(** * avatar-3d-poc: job lifecycle, pipeline orchestration and bounded polling

    A shallow embedding of the backend of the 3D avatar generator
    ([backend/main.py], [backend/pipeline.py], [backend/services/*.py],
    [backend/utils/validators.py]) together with the properties of its
    job state machine, its sequential stage executor and its polling loop.

    Conventions of the embedding.
    - Python strings are [string]; a [dict] used as a registry is a
      [gmap string _]; a [dict] with a fixed set of optional keys is a
      record whose optional keys are [option] fields.
    - A Python exception is represented by its [str(e)] text.
    - Code that talks to the outside world (the four services, the job
      registry shared between requests and background tasks) is written in
      the free monad [Prog]: a program is a tree of adapter calls and of
      [with job_lock:] critical sections.
    - The registry is looked at in two ways.  In [Main] one
      [with job_lock:] block is one action: this is what a party sees that
      holds the lock.  In [Threads] one statement is one action, and the
      handlers that read a record without the lock see the states between
      the statements of a block.
    - [print] calls and wall-clock durations recorded for observability are
      left out: nothing in the control flow reads them. *)

From stdpp Require Import gmap strings list fin_maps pretty.
From Stdlib Require Import ZArith QArith Lia.

Open Scope string_scope.
Open Scope Z_scope.

(** ** Python runtime pieces shared by all modules *)

(** An exception, identified with its [str(e)]. *)
Definition Exc := string.

(** [str(KeyError(k))] is the [repr] of the key. *)
Definition KeyError (k : string) : Exc := "'" +:+ k +:+ "'".

(** The structured outcome every service returns: the orchestrator reads
    only ["success"] and ["message"]; ["output_path"] is carried along. *)
Record StageOutcome := mkOutcome {
  success : bool;
  message : string;
  output_path : option string
}.

(** The [data] dictionary handed to the status callback. *)
Record StatusData := mkData {
  sd_message : option string;
  sd_progress : option Z;
  sd_extra : list (string * string)
}.

(** The dictionary returned by [AvatarPipeline.process_avatar]: the keys
    its caller reads.  The keys kept for observability (["job_id"],
    ["input_path"], ["steps"], the times) are not represented. *)
Record Result := mkResult {
  r_success : bool;
  r_error : option string;
  r_output_files : option (gmap string string)
}.

(** One entry of the [jobs] registry of [main.py]; ["created_at"], which
    nothing reads, is not represented. *)
Record Job := mkJob {
  job_id : string;
  status : string;
  upload_path : string;
  filename : string;
  current_step : option string;
  last_update : option StatusData;
  result : option Result;
  output_files : option (gmap string string);
  error : option string
}.

Definition set_status (v : string) (j : Job) : Job :=
  mkJob (job_id j) v (upload_path j) (filename j) (current_step j)
        (last_update j) (result j) (output_files j) (error j).

Definition set_current_step (v : string) (j : Job) : Job :=
  mkJob (job_id j) (status j) (upload_path j) (filename j) (Some v)
        (last_update j) (result j) (output_files j) (error j).

Definition set_last_update (v : StatusData) (j : Job) : Job :=
  mkJob (job_id j) (status j) (upload_path j) (filename j) (current_step j)
        (Some v) (result j) (output_files j) (error j).

Definition set_result (v : Result) (j : Job) : Job :=
  mkJob (job_id j) (status j) (upload_path j) (filename j) (current_step j)
        (last_update j) (Some v) (output_files j) (error j).

Definition set_output_files (v : gmap string string) (j : Job) : Job :=
  mkJob (job_id j) (status j) (upload_path j) (filename j) (current_step j)
        (last_update j) (result j) (Some v) (error j).

Definition set_error (v : string) (j : Job) : Job :=
  mkJob (job_id j) (status j) (upload_path j) (filename j) (current_step j)
        (last_update j) (result j) (output_files j) (Some v).

(** The invocations of the four services, with their arguments. *)
Inductive AdapterCall :=
| detect_face_call (image_path : string)
| cartoonize_call (image_path out_path style : string)
| generate_3d_model_call (image_path out_path : string) (timeout : Z)
| optimize_for_printing_call (model_path out_path : string)
    (target_height_mm : Z) (printer_profile : string).

(** Position of a service in the fixed order of the pipeline. *)
Definition stage_of (c : AdapterCall) : nat :=
  match c with
  | detect_face_call _ => 1
  | cartoonize_call _ _ _ => 2
  | generate_3d_model_call _ _ _ => 3
  | optimize_for_printing_call _ _ _ _ => 4
  end%nat.

(** A critical section: the statements of one [with job_lock:] block, as a
    function on the registry.  The statements executed before an exception
    keep their effect, so the registry is returned in both cases. *)
Definition Critical := gmap string Job → gmap string Job * option Exc.

(** Programs over the two kinds of visible actions. *)
Inductive Prog (A : Type) : Type :=
| Ret (a : A)
| Raise (e : Exc)
| Call (c : AdapterCall) (k : Exc + StageOutcome → Prog A)
| Locked (f : Critical) (k : option Exc → Prog A).

Arguments Ret {A} a.
Arguments Raise {A} e.
Arguments Call {A} c k.
Arguments Locked {A} f k.

Fixpoint bind {A B} (p : Prog A) (g : A → Prog B) : Prog B :=
  match p with
  | Ret a => g a
  | Raise e => Raise e
  | Call c k => Call c (λ r, bind (k r) g)
  | Locked f k => Locked f (λ r, bind (k r) g)
  end.

#[global] Instance Prog_ret : MRet Prog := @Ret.
#[global] Instance Prog_bind : MBind Prog := λ A B g p, bind p g.

(** [try: p  except Exception as e: h e]. *)
Fixpoint try_except {A} (p : Prog A) (h : Exc → Prog A) : Prog A :=
  match p with
  | Ret a => Ret a
  | Raise e => h e
  | Call c k => Call c (λ r, try_except (k r) h)
  | Locked f k => Locked f (λ r, try_except (k r) h)
  end.

(** Invoke a service: it returns its outcome or the exception propagates. *)
Definition call (c : AdapterCall) : Prog StageOutcome :=
  Call c (λ r, match r with inl e => Raise e | inr o => Ret o end).

(** Run a [with job_lock:] block. *)
Definition with_job_lock (f : Critical) : Prog unit :=
  Locked f (λ r, match r with Some e => Raise e | None => Ret tt end).

(** [jobs[job_id][key] = value], for the setter [upd] of that key. *)
Definition setitem (job_id : string) (upd : Job → Job) : Critical :=
  λ jobs, match jobs !! job_id with
          | Some j => (<[job_id := upd j]> jobs, None)
          | None => (jobs, Some (KeyError job_id))
          end.

(** Two statements in sequence inside one critical section. *)
Definition then_ (f g : Critical) : Critical :=
  λ jobs, match f jobs with
          | (jobs1, None) => g jobs1
          | (jobs1, Some e) => (jobs1, Some e)
          end.

(** The state a program runs in: the registry and the log of the service
    invocations made so far (the call log of a test double). *)
Record World := mkWorld {
  jobs : gmap string Job;
  calls : list AdapterCall
}.

(** Run a program to completion, on its own, against services that answer
    [oracle c] to the invocation [c]. *)
Fixpoint run {A} (oracle : AdapterCall → Exc + StageOutcome)
    (p : Prog A) (w : World) : (Exc + A) * World :=
  match p with
  | Ret a => (inr a, w)
  | Raise e => (inl e, w)
  | Call c k => run oracle (k (oracle c)) (mkWorld (jobs w) (calls w ++ [c]))
  | Locked f k =>
      let '(jobs1, r) := f (jobs w) in
      run oracle (k r) (mkWorld jobs1 (calls w))
  end.

(** ** [backend/pipeline.py] *)

Module Pipeline.

(** The attributes of an [AvatarPipeline] instance that [process_avatar]
    reads.  The four service objects are the targets of [Call]. *)
Record AvatarPipeline := mkPipeline {
  output_dir : string;
  target_height_mm : Z;
  printer_profile : string
}.

Section process_avatar.
Variable self : AvatarPipeline.
Variable input_path : string.
Variable job_id : string.
Variable status_callback : option (string → StatusData → Prog unit).

(** The nested helper [update_status]. *)
Definition update_status (step : string) (data : StatusData) : Prog unit :=
  match status_callback with
  | Some cb => cb step data
  | None => Ret tt
  end.

Definition cartoon_path : string :=
  output_dir self +:+ "/cartoonized/" +:+ job_id +:+ "_cartoon.png".
Definition model_3d_path : string :=
  output_dir self +:+ "/models_3d/" +:+ job_id +:+ "_model.glb".
Definition stl_path : string :=
  output_dir self +:+ "/stl_files/" +:+ job_id +:+ "_avatar.stl".

(** [{**results, "success": False, "error": msg}]. *)
Definition failure (msg : string) : Result := mkResult false (Some msg) None.

(** The body of the [try] block.  In the second [update_status] of step 1
    the keys of [face_result] are merged last, so its ["message"] is the one
    the callback sees; its diagnostic keys are not represented. *)
Definition process_avatar_body : Prog Result :=
  (* Step 1: Face Detection *)
  update_status "face_detection" (mkData (Some "Detecting face...") (Some 0) []);;
  face_result ← call (detect_face_call input_path);
  if negb (success face_result) then
    update_status "failed" (mkData (Some (message face_result)) None []);;
    Ret (failure (message face_result))
  else
  update_status "face_detection"
    (mkData (Some (message face_result)) (Some 20) []);;
  (* Step 2: Cartoonization *)
  update_status "cartoonization"
    (mkData (Some "Creating Pixar-style cartoon (30-60s)...") (Some 20) []);;
  cartoon_result ← call (cartoonize_call input_path cartoon_path "pixar");
  if negb (success cartoon_result) then
    update_status "failed" (mkData (Some (message cartoon_result)) None []);;
    Ret (failure (message cartoon_result))
  else
  update_status "cartoonization"
    (mkData (Some "Cartoonization complete!") (Some 40)
            [("cartoon_path", cartoon_path)]);;
  (* Step 3: 3D Generation *)
  update_status "3d_generation"
    (mkData (Some "Generating 3D model (2-3 minutes)...") (Some 40) []);;
  model_result ← call (generate_3d_model_call cartoon_path model_3d_path 300);
  if negb (success model_result) then
    update_status "failed" (mkData (Some (message model_result)) None []);;
    Ret (failure (message model_result))
  else
  update_status "3d_generation"
    (mkData (Some "3D model generated!") (Some 80)
            [("model_path", model_3d_path)]);;
  (* Step 4: Mesh Optimization *)
  update_status "optimization"
    (mkData (Some "Optimizing mesh for printing...") (Some 80) []);;
  optimize_result ← call (optimize_for_printing_call model_3d_path stl_path
                            (target_height_mm self) (printer_profile self));
  if negb (success optimize_result) then
    update_status "failed" (mkData (Some (message optimize_result)) None []);;
    Ret (failure (message optimize_result))
  else
  update_status "completed"
    (mkData (Some "Avatar ready for printing!") (Some 100)
            [("stl_path", stl_path)]);;
  (* Final results *)
  Ret (mkResult true None
         (Some (<["cartoon" := cartoon_path]>
               (<["model_3d" := model_3d_path]>
               (<["stl" := stl_path]> ∅))))).

Definition process_avatar : Prog Result :=
  try_except process_avatar_body
    (λ e, let error_msg := "Pipeline error: " +:+ e in
          update_status "failed" (mkData (Some error_msg) None []);;
          Ret (failure error_msg)).

End process_avatar.

End Pipeline.

(** ** [backend/utils/validators.py] *)

Module Validators.

(** What is stored under a path: the number of bytes and what
    [PIL.Image.open] makes of them, either an exception or the size and the
    mode of the decoded image. *)
Record Content := mkContent {
  length_bytes : Z;
  pil_open : Exc + (Z * Z * string)
}.

Definition ALLOWED_IMAGE_EXTENSIONS : list string := [".jpg"; ".jpeg"; ".png"].
Definition MAX_FILE_SIZE_MB : Z := 10.
Definition MIN_IMAGE_DIMENSION : Z := 512.
Definition MAX_IMAGE_DIMENSION : Z := 4096.

Section validate_image_file.
(** [Path(p).suffix.lower()], and the text of [f"{size_mb:.1f}"] for a
    length in bytes: string formatting the control flow does not read. *)
Variable suffix_lower : string → string.
Variable fmt_mb : Z → string.

(** [os.path.getsize(p) / (1024 * 1024) > limit]: the quotient of an integer
    by a power of two is exact, so the test is the one on integers. *)
Definition size_mb_exceeds (len limit : Z) : bool := limit * (1024 * 1024) <? len.

Definition validate_image_file (fs : gmap string Content) (filepath : string)
    (check_size check_dimensions : bool) : bool * string :=
  match fs !! filepath with
  | None => (false, "File does not exist")
  | Some c =>
    if negb (bool_decide (suffix_lower filepath ∈ ALLOWED_IMAGE_EXTENSIONS)) then
      (false, "Invalid file type. Allowed: "
                +:+ String.concat ", " ALLOWED_IMAGE_EXTENSIONS)
    else if check_size && size_mb_exceeds (length_bytes c) MAX_FILE_SIZE_MB then
      (false, "File too large: " +:+ fmt_mb (length_bytes c)
                +:+ "MB (max " +:+ pretty MAX_FILE_SIZE_MB +:+ "MB)")
    else
      match pil_open c with
      | inl e => (false, "Failed to read image: " +:+ e)
      | inr (width, height, mode) =>
        if check_dimensions
           && ((width <? MIN_IMAGE_DIMENSION) || (height <? MIN_IMAGE_DIMENSION)) then
          (false, "Image too small: " +:+ pretty width +:+ "x" +:+ pretty height
                    +:+ "px (min " +:+ pretty MIN_IMAGE_DIMENSION +:+ "x"
                    +:+ pretty MIN_IMAGE_DIMENSION +:+ "px)")
        else if check_dimensions
           && ((MAX_IMAGE_DIMENSION <? width) || (MAX_IMAGE_DIMENSION <? height)) then
          (false, "Image too large: " +:+ pretty width +:+ "x" +:+ pretty height
                    +:+ "px (max " +:+ pretty MAX_IMAGE_DIMENSION +:+ "x"
                    +:+ pretty MAX_IMAGE_DIMENSION +:+ "px)")
        else if negb (bool_decide (mode ∈ ["RGB"; "RGBA"])) then
          (false, "Unsupported image mode: " +:+ mode +:+ " (need RGB or RGBA)")
        else (true, "Image file is valid")
      end
  end.

End validate_image_file.

End Validators.

(** ** [backend/main.py] *)

Module Main.

(** How a request handler ends: with its return value, with a raised
    [HTTPException], or with an exception nothing handles. *)
Inductive Reply (A : Type) : Type :=
| Returns (a : A)
| HTTPException (status_code : Z) (detail : string)
| Unhandled (e : Exc).

Arguments Returns {A} a.
Arguments HTTPException {A} status_code detail.
Arguments Unhandled {A} e.

(** The response model [JobStatus]. *)
Record JobStatus := mkJobStatus {
  js_job_id : string;
  js_status : string;
  js_progress : Z;
  js_message : string;
  js_current_step : option string;
  js_output_files : option (gmap string string);
  js_error : option string
}.

Record FileResponse := mkFileResponse {
  fr_path : string;
  fr_media_type : string;
  fr_filename : string
}.

(** The dictionary [upload_photo] returns. *)
Record UploadReply := mkUploadReply {
  ur_job_id : string;
  ur_message : string;
  ur_status : string
}.

(** An [UploadFile]: its name and the bytes [file.read()] yields. *)
Record UploadFile := mkUploadFile {
  uf_filename : string;
  uf_content : Validators.Content
}.

(** The process-wide state the handlers share: the [jobs] registry and the
    background tasks that were scheduled, each at the point it has reached.
    A task is filed under the id of the job it was scheduled for. *)
Record Server := mkServer {
  s_jobs : gmap string Job;
  s_tasks : gmap string (Prog unit)
}.

Definition OUTPUT_DIR : string := "output".

Section handlers.
(** Configuration read from the environment when the module is loaded. *)
Variable MAX_UPLOAD_SIZE_MB : Z.
Variable pipeline : Pipeline.AvatarPipeline.
(** String functions the control flow does not depend on. *)
Variable sanitize_filename : string → string.
Variable suffix_lower : string → string.
Variable fmt_mb : Z → string.

Definition update_job_status (job_id step : string) (data : StatusData) : Critical :=
  λ jobs,
    if bool_decide (is_Some (jobs !! job_id)) then
      then_ (setitem job_id (set_current_step step))
            (setitem job_id (set_last_update data)) jobs
    else (jobs, None).

(** The block under [# Update final status]. *)
Definition final_status (job_id : string) (result : Result) : Critical :=
  if r_success result then
    then_ (setitem job_id (set_status "completed"))
   (then_ (setitem job_id (set_result result))
          (match r_output_files result with
           | Some files => setitem job_id (set_output_files files)
           | None => λ jobs, (jobs, Some (KeyError "output_files"))
           end))
  else
    then_ (setitem job_id (set_status "failed"))
          (setitem job_id (set_error (default "Unknown error" (r_error result)))).

Definition process_avatar_background (job_id input_path : string) : Prog unit :=
  try_except
    ((* Update status *)
     with_job_lock (setitem job_id (set_status "processing"));;
     (* Process avatar *)
     result ← Pipeline.process_avatar pipeline input_path job_id
                (Some (λ step data,
                         with_job_lock (update_job_status job_id step data)));
     (* Update final status *)
     with_job_lock (final_status job_id result))
    (λ e, with_job_lock
            (then_ (setitem job_id (set_status "failed"))
                   (setitem job_id (set_error e)))).

(** [upload_photo], with the job id it draws, on a file system where at
    most the write of the upload raises ([write_error]); [Uploads] has it
    with every call that can raise. *)
Definition upload_photo (job_id : string) (file : UploadFile)
    (write_error : option Exc) (fs : gmap string Validators.Content) (s : Server)
  : Reply UploadReply * gmap string Validators.Content * Server :=
  let content := uf_content file in
  (* Validate file size *)
  if Validators.size_mb_exceeds (Validators.length_bytes content) MAX_UPLOAD_SIZE_MB then
    (HTTPException 413
       ("File too large: " +:+ fmt_mb (Validators.length_bytes content)
          +:+ "MB (max " +:+ pretty MAX_UPLOAD_SIZE_MB +:+ "MB)"), fs, s)
  else
  (* Save uploaded file *)
  let filename := sanitize_filename (uf_filename file) in
  let upload_path := OUTPUT_DIR +:+ "/uploads/" +:+ job_id +:+ "_" +:+ filename in
  match write_error with
  | Some e =>
      (HTTPException 500 ("Upload error: " +:+ e), delete upload_path fs, s)
  | None =>
    let fs1 := <[upload_path := content]> fs in
    (* Verify file was written *)
    if negb (bool_decide (is_Some (fs1 !! upload_path))) then
      (HTTPException 500 "Failed to save uploaded file", fs1, s)
    else
    (* Validate image *)
    let '(is_valid, message) :=
      Validators.validate_image_file suffix_lower fmt_mb fs1 upload_path false true in
    if negb is_valid then
      (HTTPException 400 message, delete upload_path fs1, s)
    else
    (* Create job record *)
    let jobs1 :=
      <[job_id := mkJob job_id "pending" upload_path filename
                        None None None None None]> (s_jobs s) in
    (* Start background processing *)
    let tasks1 :=
      <[job_id := process_avatar_background job_id upload_path]> (s_tasks s) in
    (Returns (mkUploadReply job_id
                "Photo uploaded successfully. Processing started." "pending"),
     fs1, mkServer jobs1 tasks1)
  end.

Definition progress_map : gmap string Z :=
  list_to_map [("pending", 0); ("face_detection", 10); ("cartoonization", 30);
               ("3d_generation", 60); ("optimization", 85); ("completed", 100);
               ("failed", 0)].

(** [d.get(key, dflt)] for a key that may be [None]. *)
Definition get_or {V} (d : gmap string V) (key : option string) (dflt : V) : V :=
  match key with
  | Some k => default dflt (d !! k)
  | None => dflt
  end.

(** The progress computed by [get_status] from the two fields it reads. *)
Definition progress_of (status : string) (current_step : option string) : Z :=
  let progress :=
    get_or progress_map current_step (get_or progress_map (Some status) 0) in
  if bool_decide (status = "completed") then 100 else progress.

(** [get_status] on a registry that does not change while it reads; the
    reads one by one are in [Threads]. *)
Definition get_status (job_id : string) (jobs : gmap string Job) : Reply JobStatus :=
  match jobs !! job_id with
  | None => HTTPException 404 "Job not found"
  | Some job =>
    let status := status job in
    let current_step := current_step job in
    let last_update := last_update job in
    (* Calculate progress *)
    let progress := progress_of status current_step in
    Returns (mkJobStatus job_id status progress
               (default ("Status: " +:+ status) (last_update ≫= sd_message))
               current_step (output_files job) (error job))
  end.

(** The common shape of the three download handlers: [key] selects the
    entry of ["output_files"], [missing] is the detail of the 404.  Again
    on a registry that does not change while the handler reads. *)
Definition fetch_output (key missing media_type prefix extension : string)
    (job_id : string) (jobs : gmap string Job) (fs : gset string)
  : Reply FileResponse :=
  match jobs !! job_id with
  | None => HTTPException 404 "Job not found"
  | Some job =>
    if negb (bool_decide (status job = "completed")) then
      HTTPException 400 ("Job not completed yet (status: " +:+ status job +:+ ")")
    else
      match output_files job with
      | None => Unhandled (KeyError "output_files")
      | Some files =>
        match files !! key with
        | None => Unhandled (KeyError key)
        | Some path =>
          if negb (bool_decide (path ∈ fs)) then HTTPException 404 missing
          else Returns (mkFileResponse path media_type
                          (prefix +:+ job_id +:+ extension))
        end
      end
  end.

Definition get_preview : string → gmap string Job → gset string → Reply FileResponse :=
  fetch_output "model_3d" "GLB file not found" "model/gltf-binary" "avatar_" ".glb".

Definition download_stl : string → gmap string Job → gset string → Reply FileResponse :=
  fetch_output "stl" "STL file not found" "application/sla" "avatar_" ".stl".

Definition download_cartoon : string → gmap string Job → gset string → Reply FileResponse :=
  fetch_output "cartoon" "Cartoon image not found" "image/png" "cartoon_" ".png".

(** *** The server as a transition system

    One transition is one action of one party: a request to [/upload]
    handled to its end (the handler is a coroutine on the event loop and
    never awaits between validation and the return), one service invocation
    of one background task answered in any way, or one critical section of
    one background task.  The [uuid4] drawn by [upload_photo] is taken to be
    new.  The read-only handlers leave the state alone. *)
Inductive step : Server → Server → Prop :=
| step_upload job_id file write_error fs reply fs' s s' :
    s_jobs s !! job_id = None →
    upload_photo job_id file write_error fs s = (reply, fs', s') →
    step s s'
| step_call job_id c k r s :
    s_tasks s !! job_id = Some (Call c k) →
    step s (mkServer (s_jobs s) (<[job_id := k r]> (s_tasks s)))
| step_locked job_id f k jobs' r s :
    s_tasks s !! job_id = Some (Locked f k) →
    f (s_jobs s) = (jobs', r) →
    step s (mkServer jobs' (<[job_id := k r]> (s_tasks s))).

Definition initial : Server := mkServer ∅ ∅.

Definition reachable (s : Server) : Prop := rtc step initial s.

End handlers.

End Main.

(** ** [backend/main.py], statement by statement

    The background tasks run in worker threads.  [job_lock] keeps their
    [with job_lock:] blocks apart, but a block is several statements, and
    the read-only handlers read the fields of a record after they have
    released the lock.  Here one action is one statement: a subscript
    assignment on the registry, the test of an [if], entering or leaving a
    block.  The tasks are the programs of [Main]; each of their critical
    sections is resolved into the statements of its block. *)

Module Threads.

(** The statements of one [with job_lock:] block, in the order they are
    executed: a subscript assignment on the registry, a test of the
    registry, the end of the block. *)
Inductive Block :=
| leave
| stmt (f : Critical) (rest : Block)
| test (c : gmap string Job → bool) (yes no : Block).

(** The block as one function on the registry: an exception ends it and
    keeps what was stored before. *)
Fixpoint denote (b : Block) : Critical :=
  match b with
  | leave => λ jobs, (jobs, None)
  | stmt f rest => then_ f (denote rest)
  | test c yes no => λ jobs, if c jobs then denote yes jobs else denote no jobs
  end.

(** The block of [update_job_status]. *)
Definition update_job_status (job_id step : string) (data : StatusData) : Block :=
  test (λ jobs, bool_decide (is_Some (jobs !! job_id)))
    (stmt (setitem job_id (set_current_step step))
    (stmt (setitem job_id (set_last_update data)) leave))
    leave.

(** The three blocks of [process_avatar_background]. *)
Definition start_processing (job_id : string) : Block :=
  stmt (setitem job_id (set_status "processing")) leave.

Definition final_status (job_id : string) (result : Result) : Block :=
  if r_success result then
    stmt (setitem job_id (set_status "completed"))
   (stmt (setitem job_id (set_result result))
   (stmt (match r_output_files result with
          | Some files => setitem job_id (set_output_files files)
          | None => λ jobs, (jobs, Some (KeyError "output_files"))
          end) leave))
  else
    stmt (setitem job_id (set_status "failed"))
   (stmt (setitem job_id (set_error (default "Unknown error" (r_error result))))
         leave).

Definition record_exception (job_id : string) (e : Exc) : Block :=
  stmt (setitem job_id (set_status "failed"))
 (stmt (setitem job_id (set_error e)) leave).

(** Which block a critical section of the programs of [Main] stands for. *)
Inductive block_of : Critical → Block → Prop :=
| block_update job_id step data :
    block_of (Main.update_job_status job_id step data)
             (update_job_status job_id step data)
| block_start job_id :
    block_of (setitem job_id (set_status "processing")) (start_processing job_id)
| block_final job_id result :
    block_of (Main.final_status job_id result) (final_status job_id result)
| block_exception job_id e :
    block_of (then_ (setitem job_id (set_status "failed"))
                    (setitem job_id (set_error e)))
             (record_exception job_id e).

(** A background task: between two blocks, or inside one, holding
    [job_lock], with the statements still to execute. *)
Inductive Task :=
| Running (p : Prog unit)
| Inside (b : Block) (k : option Exc → Prog unit).

(** The registry, the tasks, each filed under the id of its job, and the
    job whose task holds [job_lock], if one does. *)
Record State := mkState {
  t_jobs : gmap string Job;
  t_tasks : gmap string Task;
  t_holder : option string
}.

(** One statement of one task.  A service invocation is answered in any
    way; a block is entered only while the lock is free; a statement that
    raises leaves the block, which releases the lock, and keeps what was
    stored before. *)
Inductive task_step : State → State → Prop :=
| step_call job_id c k r s :
    t_tasks s !! job_id = Some (Running (Call c k)) →
    task_step s (mkState (t_jobs s) (<[job_id := Running (k r)]> (t_tasks s))
                         (t_holder s))
| step_acquire job_id f k b s :
    t_tasks s !! job_id = Some (Running (Locked f k)) →
    t_holder s = None →
    block_of f b →
    task_step s (mkState (t_jobs s) (<[job_id := Inside b k]> (t_tasks s))
                         (Some job_id))
| step_stmt job_id f rest k jobs' s :
    t_tasks s !! job_id = Some (Inside (stmt f rest) k) →
    f (t_jobs s) = (jobs', None) →
    task_step s (mkState jobs' (<[job_id := Inside rest k]> (t_tasks s))
                         (t_holder s))
| step_raise job_id f rest k jobs' e s :
    t_tasks s !! job_id = Some (Inside (stmt f rest) k) →
    f (t_jobs s) = (jobs', Some e) →
    task_step s (mkState jobs' (<[job_id := Running (k (Some e))]> (t_tasks s))
                         None)
| step_test job_id c yes no k s :
    t_tasks s !! job_id = Some (Inside (test c yes no) k) →
    task_step s (mkState (t_jobs s)
                   (<[job_id := Inside (if c (t_jobs s) then yes else no) k]>
                      (t_tasks s))
                   (t_holder s))
| step_leave job_id k s :
    t_tasks s !! job_id = Some (Inside leave k) →
    task_step s (mkState (t_jobs s) (<[job_id := Running (k None)]> (t_tasks s))
                         None).

(** *** The read-only handlers

    A handler takes [job_lock] to look the record up and reads its fields
    after it has released the lock, from the record itself, not from a
    copy: between two reads the background tasks go on.  The handlers are
    coroutines on the event loop and do not await while they read, so no
    other request is handled meanwhile; only the tasks, which run in worker
    threads, move. *)
Inductive Reader (A : Type) : Type :=
| Answer (reply : Main.Reply A)
| Read {B : Type} (field : Job → B) (k : B → Reader A).

Arguments Answer {A} reply.
Arguments Read {A B} field k.

(** The replies of a handler that has found the record of [job_id] in
    state [s]: before each read the tasks may have taken any number of
    steps. *)
Fixpoint reads {A} (job_id : string) (h : Reader A) (s : State)
    (reply : Main.Reply A) : Prop :=
  match h with
  | Answer reply' => reply = reply'
  | Read field k =>
      ∃ s' j, rtc task_step s s' ∧ t_jobs s' !! job_id = Some j
              ∧ reads job_id (k (field j)) s' reply
  end.

(** The replies to a request that takes the lock in state [s]. *)
Definition serves {A} (h : Reader A) (job_id : string) (s : State)
    (reply : Main.Reply A) : Prop :=
  t_holder s = None
  ∧ match t_jobs s !! job_id with
    | None => reply = Main.HTTPException 404 "Job not found"
    | Some _ => reads job_id h s reply
    end.

(** [get_status], after the record is found. *)
Definition get_status (job_id : string) : Reader Main.JobStatus :=
  Read status (λ st,
  Read current_step (λ step,
  Read last_update (λ update,
  (* Calculate progress *)
  let progress := Main.progress_of st step in
  Read output_files (λ files,
  Read error (λ err,
  Answer (Main.Returns
            (Main.mkJobStatus job_id st progress
               (default ("Status: " +:+ st) (update ≫= sd_message))
               step files err))))))).

(** The common shape of the three download handlers, after the record is
    found; the status is read again for the detail of the 400. *)
Definition fetch_output (key missing media_type prefix extension : string)
    (job_id : string) (fs : gset string) : Reader Main.FileResponse :=
  Read status (λ st,
  if negb (bool_decide (st = "completed")) then
    Read status (λ st',
    Answer (Main.HTTPException 400
              ("Job not completed yet (status: " +:+ st' +:+ ")")))
  else
    Read output_files (λ files,
    Answer
      match files with
      | None => Main.Unhandled (KeyError "output_files")
      | Some files =>
        match files !! key with
        | None => Main.Unhandled (KeyError key)
        | Some path =>
          if negb (bool_decide (path ∈ fs)) then Main.HTTPException 404 missing
          else Main.Returns (Main.mkFileResponse path media_type
                               (prefix +:+ job_id +:+ extension))
        end
      end)).

Definition get_preview : string → gset string → Reader Main.FileResponse :=
  fetch_output "model_3d" "GLB file not found" "model/gltf-binary" "avatar_" ".glb".

Definition download_stl : string → gset string → Reader Main.FileResponse :=
  fetch_output "stl" "STL file not found" "application/sla" "avatar_" ".stl".

Definition download_cartoon : string → gset string → Reader Main.FileResponse :=
  fetch_output "cartoon" "Cartoon image not found" "image/png" "cartoon_" ".png".

Section transitions.
Variable MAX_UPLOAD_SIZE_MB : Z.
Variable pipeline : Pipeline.AvatarPipeline.
Variable sanitize_filename : string → string.
Variable suffix_lower : string → string.
Variable fmt_mb : Z → string.

(** One transition of the server: one statement of one background task, or
    a request to [/upload] handled to its end.  [upload_photo] is the one of
    [Main]; it takes [job_lock] for the statement that files the record, and
    the task it schedules joins the others, outside any block. *)
Inductive step : State → State → Prop :=
| step_task s s' : task_step s s' → step s s'
| step_upload job_id file write_error fs reply fs' server' s :
    t_holder s = None →
    t_jobs s !! job_id = None →
    Main.upload_photo MAX_UPLOAD_SIZE_MB pipeline sanitize_filename suffix_lower
      fmt_mb job_id file write_error fs (Main.mkServer (t_jobs s) ∅)
    = (reply, fs', server') →
    step s (mkState (Main.s_jobs server')
                    ((Running <$> Main.s_tasks server') ∪ t_tasks s) None).

Definition initial : State := mkState ∅ ∅ None.

Definition reachable (s : State) : Prop := rtc step initial s.

End transitions.

End Threads.

(** ** [backend/services/face_detector.py] *)

Module FaceDetector.

(** A landmark of the face mesh, in normalised image coordinates. *)
Record Landmark := mkLandmark { lm_x : Q; lm_y : Q; lm_z : Q }.

Record BoundingBox := mkBox {
  x_min : Z; y_min : Z; x_max : Z; y_max : Z; bb_width : Z; bb_height : Z
}.

(** The dictionary [detect_face] returns. *)
Record FaceResult := mkFace {
  f_success : bool;
  f_face_found : bool;
  f_face_count : Z;
  f_landmarks : option (list (Z * Z * Q));
  f_bounding_box : option BoundingBox;
  f_face_area_ratio : option Q;
  f_image_dimensions : option (Z * Z);
  f_message : string
}.

(** [int(q)]: truncation towards zero. *)
Definition int (q : Q) : Z := Z.quot (Qnum q) (Zpos (Qden q)).

(** [min(l)] and [max(l)]; both raise [ValueError] on an empty list. *)
Definition py_min (l : list Z) : Exc + Z :=
  match l with
  | [] => inl "min() arg is an empty sequence"
  | x :: l' => inr (foldr Z.min x l')
  end.

Definition py_max (l : list Z) : Exc + Z :=
  match l with
  | [] => inl "max() arg is an empty sequence"
  | x :: l' => inr (foldr Z.max x l')
  end.

Definition Qltb (x y : Q) : bool :=
  match (x ?= y)%Q with Lt => true | _ => false end.

(** [a / b] on integers: true division, [ZeroDivisionError] for [b = 0]. *)
Definition truediv (a b : Z) : Exc + Q :=
  if b =? 0 then inl "division by zero" else inr (inject_Z a / inject_Z b)%Q.

(** [detect_face].  [shape] is what [cv2.imread] gives ([None] when the file
    cannot be read, else height and width); [multi_face_landmarks] is the
    answer of the face mesh.  The arithmetic on Python floats is done on
    rationals. *)
Definition detect_face (image_path : string) (shape : option (Z * Z))
    (multi_face_landmarks : option (list (list Landmark))) : Exc + FaceResult :=
  match shape with
  | None => inl ("Cannot read image: " +:+ image_path)
  | Some (height, width) =>
    match multi_face_landmarks with
    | None | Some [] =>
      inr (mkFace false false 0 None None None None
             "No face detected in image. Please use a clear front-facing portrait.")
    | Some (face_landmarks :: _) =>
      (* Convert normalized landmarks to pixel coordinates *)
      let landmarks_px :=
        (λ lm, (int (lm_x lm * inject_Z width), int (lm_y lm * inject_Z height),
                lm_z lm)) <$> face_landmarks in
      let x_coords := (λ p, p.1.1) <$> landmarks_px in
      let y_coords := (λ p, p.1.2) <$> landmarks_px in
      (* Calculate bounding box *)
      match py_min x_coords, py_min y_coords, py_max x_coords, py_max y_coords with
      | inr xmin, inr ymin, inr xmax, inr ymax =>
        let bounding_box := mkBox xmin ymin xmax ymax (xmax - xmin) (ymax - ymin) in
        (* Check face size *)
        match truediv (bb_width bounding_box * bb_height bounding_box)
                      (width * height) with
        | inl e => inl e
        | inr face_area_ratio =>
          if Qltb face_area_ratio (5 # 100) then
            inr (mkFace false true 1 (Some landmarks_px) (Some bounding_box) None None
                   "Face is too small in image. Please use a closer portrait photo.")
          else if Qltb (9 # 10) face_area_ratio then
            inr (mkFace false true 1 (Some landmarks_px) (Some bounding_box) None None
                   "Face is too close. Please use a photo with some space around the face.")
          else
            inr (mkFace true true 1 (Some landmarks_px) (Some bounding_box)
                   (Some face_area_ratio) (Some (width, height))
                   "Face detected successfully!")
        end
      | inl e, _, _, _ | _, inl e, _, _ | _, _, inl e, _ | _, _, _, inl e => inl e
      end
    end
  end.

(** What the orchestrator reads from the dictionary. *)
Definition outcome (r : FaceResult) : StageOutcome :=
  mkOutcome (f_success r) (f_message r) None.

End FaceDetector.

(** ** [backend/services/three_d_generator.py] *)

Module ThreeDGenerator.

(** The dictionary [_check_status] returns; it never raises.  The key
    ["error"] is in every dictionary it builds: [sr_error] is the value
    stored under it, [None] being Python's [None]. *)
Record StatusResult := mkStatus {
  sr_status : string;
  sr_progress : Z;
  sr_model_url : option string;
  sr_thumbnail_url : option string;
  sr_error : option string
}.

(** The dictionary [generate_3d_model] returns. *)
Record ModelResult := mkModel {
  m_success : bool;
  m_output_path : option string;
  m_task_id : option string;
  m_message : string;
  m_model_url : option string;
  m_thumbnail_url : option string
}.

(** [f"{v}"] for [v] a string or [None]. *)
Definition format_optional (v : option string) : string := default "None" v.

Inductive PollEvent :=
| ev_check
| ev_sleep (seconds : Z).

(** The state the polling loop runs in.  [now] is the reading of
    [time.time()], counted in ticks of the clock; [checks] counts the calls
    of [_check_status]; [log] lists the checks and sleeps in order. *)
Record World := mkWorld {
  now : Z;
  checks : nat;
  log : list PollEvent
}.

(** The three ways the loop is left: the [return] of the time-out test and
    the branches for ["SUCCEEDED"] and ["FAILED"]. *)
Inductive PollExit :=
| TimedOut
| Succeeded (status_result : StatusResult)
| RemoteFailed (status_result : StatusResult).

Section generate_3d_model.
(** The environment: how many ticks one second has, whether reading the
    image raises, what [_create_task] returns (its message or the task id),
    how the remote task answers the k-th check and how long that check
    takes, by how much the k-th sleep overshoots, and whether downloading
    the model raises. *)
Variable ticks_per_second : Z.
Variable read_error : option Exc.
Variable task_response : string + string.
Variable check_response : nat → StatusResult.
Variable check_cost : nat → Z.
Variable sleep_extra : nat → Z.
Variable download_error : option string → option Exc.

Definition _check_status (w : World) : StatusResult * World :=
  (check_response (checks w),
   mkWorld (now w + check_cost (checks w)) (S (checks w)) (log w ++ [ev_check])).

(** [time.sleep(seconds)] called after the k-th check. *)
Definition sleep (k : nat) (seconds : Z) (w : World) : World :=
  mkWorld (now w + seconds * ticks_per_second + sleep_extra k) (checks w)
          (log w ++ [ev_sleep seconds]).

(** The [while True:] loop of step 2.  [elapsed > timeout] compares seconds;
    on ticks it reads [elapsed > timeout * ticks_per_second]. *)
Fixpoint poll (fuel : nat) (timeout poll_interval start_time : Z) (w : World)
  : option (PollExit * World) :=
  match fuel with
  | O => None
  | S fuel' =>
    let elapsed := now w - start_time in
    if timeout * ticks_per_second <? elapsed then Some (TimedOut, w)
    else
      (* Check status *)
      let '(status_result, w1) := _check_status w in
      if bool_decide (sr_status status_result = "SUCCEEDED") then
        Some (Succeeded status_result, w1)
      else if bool_decide (sr_status status_result = "FAILED") then
        Some (RemoteFailed status_result, w1)
      else if bool_decide (sr_status status_result ∈ ["PENDING"; "IN_PROGRESS"]) then
        poll fuel' timeout poll_interval start_time (sleep (checks w) poll_interval w1)
      else
        (* Unknown status *)
        poll fuel' timeout poll_interval start_time (sleep (checks w) poll_interval w1)
  end.

Definition failed (task_id : option string) (msg : string) : ModelResult :=
  mkModel false None task_id msg None None.

Definition generate_3d_model (fuel : nat) (image_path output_path : string)
    (timeout poll_interval : Z) (w : World) : option (ModelResult * World) :=
  match read_error with
  | Some e => Some (failed None ("3D generation error: " +:+ e), w)
  | None =>
    match task_response with
    | inl msg => Some (failed None msg, w)
    | inr task_id =>
      (* Step 2: Poll for completion *)
      let start_time := now w in
      match poll fuel timeout poll_interval start_time w with
      | None => None
      | Some (TimedOut, w') =>
          Some (failed (Some task_id)
                  ("3D generation timed out after " +:+ pretty timeout +:+ "s"), w')
      | Some (Succeeded status_result, w') =>
          (* Download the GLB model *)
          let model_url := sr_model_url status_result in
          match download_error model_url with
          | Some e => Some (failed None ("3D generation error: " +:+ e), w')
          | None =>
              Some (mkModel true (Some output_path) (Some task_id)
                      "3D model generated successfully" model_url
                      (sr_thumbnail_url status_result), w')
          end
      | Some (RemoteFailed status_result, w') =>
          (* [status_result.get('error', 'Unknown error')]: the key is
             always there, so the default is never taken and a task without
             an error is reported with the text of [None]. *)
          Some (failed (Some task_id)
                  ("3D generation failed: "
                     +:+ format_optional (sr_error status_result)), w')
      end
    end
  end.

(** The clock reading at the top of the k-th iteration (counted from 0)
    of a loop entered at time [t0] that has not been left before. *)
Fixpoint clock_at (poll_interval t0 : Z) (k : nat) : Z :=
  match k with
  | O => t0
  | S k' => clock_at poll_interval t0 k' + check_cost k'
            + poll_interval * ticks_per_second + sleep_extra k'
  end.

(** A check that is neither final success nor final failure. *)
Definition still_pending (r : StatusResult) : Prop :=
  sr_status r ≠ "SUCCEEDED" ∧ sr_status r ≠ "FAILED".

End generate_3d_model.

(** Every check but the last is followed by a sleep of [seconds] before the
    next one: the log is check, sleep, check, sleep, ... *)
Fixpoint paced (seconds : Z) (l : list PollEvent) : bool :=
  match l with
  | [] => true
  | [ev_check] => true
  | ev_check :: ev_sleep s :: l' => bool_decide (s = seconds) && paced seconds l'
  | _ => false
  end.

End ThreeDGenerator.

(** * More of the code *)

(** ** [three_d_generator.py]: the two HTTP exchanges *)

Module MeshyHttp.

(** The body of a task document of the API, as far as the code reads it. *)
Record TaskData := mkTaskData {
  td_id : option string;
  td_status : option string;
  td_progress : option Z;
  td_model_urls : option (gmap string string);
  td_thumbnail_url : option string;
  td_error : option string
}.

(** A response: [response.status_code], [response.text] and what
    [response.json()] gives. *)
Record Response := mkResponse {
  status_code : Z;
  text : string;
  json : Exc + TaskData
}.

(** [_check_status], given how [requests.get] ends. *)
Definition _check_status (reply : Exc + Response) : ThreeDGenerator.StatusResult :=
  match reply with
  | inl e => ThreeDGenerator.mkStatus "FAILED" 0 None None (Some e)
  | inr response =>
    if negb (status_code response =? 200) then
      ThreeDGenerator.mkStatus "FAILED" 0 None None (Some (text response))
    else
      match json response with
      | inl e => ThreeDGenerator.mkStatus "FAILED" 0 None None (Some e)
      | inr data =>
        match td_status data with
        | None => ThreeDGenerator.mkStatus "FAILED" 0 None None (Some (KeyError "status"))
        | Some st =>
            ThreeDGenerator.mkStatus st (default 0 (td_progress data))
              (default ∅ (td_model_urls data) !! "glb")
              (td_thumbnail_url data) (td_error data)
        end
      end
  end.

(** [_create_task], given how [requests.post] ends: the message of the
    failure or the id of the task. *)
Definition _create_task (reply : Exc + Response) : string + string :=
  match reply with
  | inl e => inl ("Task creation error: " +:+ e)
  | inr response =>
    if negb (status_code response =? 200) then
      inl ("Task creation failed: " +:+ text response)
    else
      match json response with
      | inl e => inl ("Task creation error: " +:+ e)
      | inr data =>
        match td_id data with
        | None => inl ("Task creation error: " +:+ KeyError "id")
        | Some task_id => inr task_id
        end
      end
  end.

(** An exchange that did not end in a 200 response. *)
Definition http_error (reply : Exc + Response) (msg : string) : Prop :=
  reply = inl msg
  ∨ ∃ response, reply = inr response ∧ status_code response ≠ 200
                ∧ msg = text response.

End MeshyHttp.

From Stdlib Require Import Ascii.

(** ** [validators.py]: file names *)

Module Filenames.

(** [''.join(f(c) for c in s)]. *)
Fixpoint map_chars (f : Ascii.ascii → Ascii.ascii) (s : string) : string :=
  match s with
  | EmptyString => EmptyString
  | String c s' => String (f c) (map_chars f s')
  end.

(** [c in s]. *)
Fixpoint contains (c : Ascii.ascii) (s : string) : bool :=
  match s with
  | EmptyString => false
  | String c' s' => bool_decide (c' = c) || contains c s'
  end.

(** [s.replace(old, new)] for one-character [old] and [new]. *)
Definition replace (old new : Ascii.ascii) (s : string) : string :=
  map_chars (λ c, if bool_decide (c = old) then new else c) s.

Section sanitize_filename.
(** [c.isalnum()]. *)
Variable isalnum : Ascii.ascii → bool.

Definition keeps (c : Ascii.ascii) : bool :=
  isalnum c || bool_decide (c ∈ ["."%char; "-"%char; "_"%char]).

Definition sanitize_filename (filename : string) : string :=
  (* Remove path separators *)
  let filename := replace "\"%char "_"%char (replace "/"%char "_"%char filename) in
  (* Remove special characters, keep alphanumeric, dots, hyphens, underscores *)
  let sanitized := map_chars (λ c, if keeps c then c else "_"%char) filename in
  (* Ensure it has an extension *)
  if negb (contains "."%char sanitized) then sanitized +:+ ".jpg" else sanitized.

End sanitize_filename.

(** The three passes of [sanitize_filename] before the extension is added,
    as one pass over the characters. *)
Definition clean (isalnum : Ascii.ascii → bool) (c : Ascii.ascii) : Ascii.ascii :=
  let c1 := if bool_decide (c = "/"%char) then "_"%char else c in
  let c2 := if bool_decide (c1 = "\"%char) then "_"%char else c1 in
  if keeps isalnum c2 then c2 else "_"%char.

End Filenames.

(** ** [pipeline.py]: [get_status_summary] *)

Module Summary.

(** The keys of the [results] dictionary that [get_status_summary] reads:
    ["success"], ["error"], the ["success"] flag of each entry of
    ["steps"] in order, and ["output_files"]. *)
Record Results := mkResults {
  rs_success : bool;
  rs_error : option string;
  rs_steps : list bool;
  rs_output_files : option (gmap string string)
}.

(** The dictionary it returns. *)
Record StatusSummary := mkSummary {
  ss_status : string;
  ss_message : option string;
  ss_progress : Z;
  ss_current_step : option string;
  ss_completed_steps : option nat;
  ss_output_files : option (gmap string string)
}.

Definition step_names : list string :=
  ["face_detection"; "cartoonization"; "3d_generation"; "optimization"].

(** [int((completed_steps / total_steps) * 100)] with [total_steps = 4]:
    a quarter and its multiple by 100 are exact in binary floating point,
    so this is the integer [100 * completed_steps / 4]. *)
Definition get_status_summary (results : Results) : StatusSummary :=
  if negb (rs_success results) then
    mkSummary "failed" (Some (default "Processing failed" (rs_error results)))
              0 None None None
  else
    let completed_steps := length (filter (λ s, s = true) (rs_steps results)) in
    let total_steps := 4%nat in
    let progress := Z.of_nat completed_steps * 100 / Z.of_nat total_steps in
    let current_step :=
      if bool_decide (completed_steps < total_steps)%nat
      then step_names !! completed_steps else None in
    mkSummary
      (if bool_decide (completed_steps = total_steps) then "completed" else "processing")
      None progress current_step (Some completed_steps) (rs_output_files results).

End Summary.

(** ** [face_detector.py]: [crop_to_face] *)

Module Crop.

(** The region handed to [image.crop]: left, top, right, bottom. *)
Record Region := mkRegion { left : Z; top : Z; right : Z; bottom : Z }.

(** [crop_to_face]: [None] is the [False] it returns when no usable face is
    found, otherwise the region that is cropped and saved.  [shape] and
    [multi_face_landmarks] are the inputs of [detect_face]; the size PIL
    reports is that of the same file. *)
Definition crop_to_face (image_path : string) (shape : option (Z * Z))
    (multi_face_landmarks : option (list (list FaceDetector.Landmark)))
    (padding : Q) : Exc + option Region :=
  (* Detect face first *)
  match FaceDetector.detect_face image_path shape multi_face_landmarks with
  | inl e => inl e
  | inr result =>
    if negb (FaceDetector.f_success result) then inr None
    else
      match shape, FaceDetector.f_bounding_box result with
      | Some (height, width), Some bbox =>
        (* Calculate crop region with padding *)
        let face_width := FaceDetector.bb_width bbox in
        let face_height := FaceDetector.bb_height bbox in
        let pad_x := FaceDetector.int (inject_Z face_width * padding) in
        let pad_y := FaceDetector.int (inject_Z face_height * padding) in
        let crop_left := Z.max 0 (FaceDetector.x_min bbox - pad_x) in
        let crop_top := Z.max 0 (FaceDetector.y_min bbox - pad_y) in
        let crop_right := Z.min width (FaceDetector.x_max bbox + pad_x) in
        let crop_bottom := Z.min height (FaceDetector.y_max bbox + pad_y) in
        inr (Some (mkRegion crop_left crop_top crop_right crop_bottom))
      | _, _ => inl (KeyError "bounding_box")
      end
  end.

End Crop.

(** ** [cartoonizer.py]: [batch_cartoonize] *)

Module Batch.

Inductive Event :=
| ev_cartoonize (image_path output_path style : string)
| ev_sleep (seconds : Z).

Section batch_cartoonize.
(** [self.cartoonize], which catches every exception itself, and
    [Path.name]. *)
Variable cartoonize : string → string → string → StageOutcome.
Variable name_of : string → string.

(** The [for i, image_path in enumerate(image_paths)] loop from index [i]
    on, [n] being [len(image_paths)]: the results appended and what is
    done, in order. *)
Fixpoint loop (output_dir style : string) (n : Z) (i : nat)
    (image_paths : list string) : list StageOutcome * list Event :=
  match image_paths with
  | [] => ([], [])
  | image_path :: rest =>
    let output_path :=
      output_dir +:+ "/cartoon_" +:+ pretty i +:+ "_" +:+ name_of image_path in
    let result := cartoonize image_path output_path style in
    (* Rate limiting: wait between requests *)
    let pause := if Z.of_nat i <? n - 1 then [ev_sleep 2] else [] in
    let '(results, events) := loop output_dir style n (S i) rest in
    (result :: results,
     (ev_cartoonize image_path output_path style :: pause ++ events)%list)
  end.

Definition batch_cartoonize (image_paths : list string) (output_dir style : string)
  : list StageOutcome * list Event :=
  loop output_dir style (Z.of_nat (length image_paths)) 0 image_paths.

End batch_cartoonize.

(** Requests and pauses alternate, starting and ending with a request. *)
Fixpoint spaced (l : list Event) : bool :=
  match l with
  | [] => true
  | [ev_cartoonize _ _ _] => true
  | ev_cartoonize _ _ _ :: ev_sleep s :: ((ev_cartoonize _ _ _ :: _) as l') =>
      bool_decide (s = 2) && spaced l'
  | _ => false
  end.

Definition requests (l : list Event) : list (string * string * string) :=
  omap (λ e, match e with
             | ev_cartoonize p o s => Some (p, o, s)
             | ev_sleep _ => None
             end) l.

End Batch.

(** ** [main.py]: [upload_photo] on a file system that can fail *)

Module Uploads.

(** The calls of [upload_photo] that can raise, in the order of the code,
    each with the exception it raises, if it does.  A write that raises
    comes with what is under the path afterwards: nothing, or a file that
    was created and not completed. *)
Record Faults := mkFaults {
  read : option Exc;                (* await file.read() *)
  mkdir_output : option Exc;        (* OUTPUT_DIR.mkdir(...) *)
  mkdir_uploads : option Exc;       (* (OUTPUT_DIR / "uploads").mkdir(...) *)
  write : option (Exc * option Validators.Content);
                                    (* open(upload_path, "wb"), f.write(content) *)
  exists_written : option Exc;      (* upload_path.exists(), line 153 *)
  validate : option Exc;            (* validate_image_file, outside its own try *)
  unlink_invalid : option Exc;      (* upload_path.unlink(), line 159 *)
  cleanup_exists : option Exc;      (* upload_path.exists(), in the handler *)
  cleanup_unlink : option Exc;      (* upload_path.unlink(), in the handler *)
  stat : option Exc                 (* Path(upload_path).stat() *)
}.

(** How the [try] block of [upload_photo] ends. *)
Inductive Tried :=
| passed
| http (status_code : Z) (detail : string)
| raised (e : Exc).

Section upload_photo.
Variable MAX_UPLOAD_SIZE_MB : Z.
Variable pipeline : Pipeline.AvatarPipeline.
Variable sanitize_filename : string → string.
Variable suffix_lower : string → string.
Variable fmt_mb : Z → string.

(** The body of the [try] block, on the files. *)
Definition save_and_validate (faults : Faults) (upload_path : string)
    (content : Validators.Content) (fs : gmap string Validators.Content)
  : Tried * gmap string Validators.Content :=
  match write faults with
  | Some (e, remains) =>
      (raised e, match remains with
                 | Some partial => <[upload_path := partial]> fs
                 | None => fs
                 end)
  | None =>
    let fs1 := <[upload_path := content]> fs in
    (* Verify file was written *)
    match exists_written faults with
    | Some e => (raised e, fs1)
    | None =>
      if negb (bool_decide (is_Some (fs1 !! upload_path))) then
        (http 500 "Failed to save uploaded file", fs1)
      else
      (* Validate image *)
      match validate faults with
      | Some e => (raised e, fs1)
      | None =>
        let '(is_valid, message) :=
          Validators.validate_image_file suffix_lower fmt_mb fs1 upload_path
            false true in
        if negb is_valid then
          match unlink_invalid faults with
          | Some e => (raised e, fs1)
          | None => (http 400 message, delete upload_path fs1)
          end
        else (passed, fs1)
      end
    end
  end.

(** [upload_photo], with the job id it draws. *)
Definition upload_photo (job_id : string) (file : Main.UploadFile)
    (faults : Faults) (fs : gmap string Validators.Content) (s : Main.Server)
  : Main.Reply Main.UploadReply * gmap string Validators.Content * Main.Server :=
  (* Validate file size *)
  match read faults with
  | Some e => (Main.Unhandled e, fs, s)
  | None =>
  let content := Main.uf_content file in
  if Validators.size_mb_exceeds (Validators.length_bytes content) MAX_UPLOAD_SIZE_MB then
    (Main.HTTPException 413
       ("File too large: " +:+ fmt_mb (Validators.length_bytes content)
          +:+ "MB (max " +:+ pretty MAX_UPLOAD_SIZE_MB +:+ "MB)"), fs, s)
  else
  (* Save uploaded file *)
  let filename := sanitize_filename (Main.uf_filename file) in
  let upload_path :=
    Main.OUTPUT_DIR +:+ "/uploads/" +:+ job_id +:+ "_" +:+ filename in
  (* Ensure output directory exists *)
  match mkdir_output faults with
  | Some e => (Main.Unhandled e, fs, s)
  | None =>
  match mkdir_uploads faults with
  | Some e => (Main.Unhandled e, fs, s)
  | None =>
  match save_and_validate faults upload_path content fs with
  | (http status_code detail, fs1) =>
      (* except HTTPException: raise *)
      (Main.HTTPException status_code detail, fs1, s)
  | (raised e, fs1) =>
      (* except Exception as e *)
      match cleanup_exists faults with
      | Some e' => (Main.Unhandled e', fs1, s)
      | None =>
        if bool_decide (is_Some (fs1 !! upload_path)) then
          match cleanup_unlink faults with
          | Some e' => (Main.Unhandled e', fs1, s)
          | None =>
              (Main.HTTPException 500 ("Upload error: " +:+ e),
               delete upload_path fs1, s)
          end
        else (Main.HTTPException 500 ("Upload error: " +:+ e), fs1, s)
      end
  | (passed, fs1) =>
      (* Create job record *)
      match stat faults with
      | Some e => (Main.Unhandled e, fs1, s)
      | None =>
        let jobs1 :=
          <[job_id := mkJob job_id "pending" upload_path filename
                            None None None None None]> (Main.s_jobs s) in
        (* Start background processing *)
        let tasks1 :=
          <[job_id := Main.process_avatar_background pipeline job_id upload_path]>
            (Main.s_tasks s) in
        (Main.Returns (Main.mkUploadReply job_id
                         "Photo uploaded successfully. Processing started."
                         "pending"),
         fs1, Main.mkServer jobs1 tasks1)
      end
  end
  end
  end
  end.

End upload_photo.

(** A file system on which at most the write fails, leaving [remains]. *)
Definition only_write (write_error : option Exc)
    (remains : option Validators.Content) : Faults :=
  mkFaults None None None ((λ e, (e, remains)) <$> write_error)
           None None None None None None.

End Uploads.

(** ** More sample inputs *)

Module MoreSamples.

(** [str.isalnum] on the characters of ASCII. *)
Definition isalnum (c : Ascii.ascii) : bool :=
  let n := Ascii.nat_of_ascii c in
  ((48 <=? n) && (n <=? 57) || (65 <=? n) && (n <=? 90)
   || (97 <=? n) && (n <=? 122))%nat.

(** A remote task that fails at the third check and reports no error. *)
Definition fails_third (k : nat) : ThreeDGenerator.StatusResult :=
  if (k <? 2)%nat
  then ThreeDGenerator.mkStatus "IN_PROGRESS" 50 None None None
  else ThreeDGenerator.mkStatus "FAILED" 0 None None None.

(** An API that answers the first check and is unavailable at the second. *)
Definition flaky (k : nat) : Exc + MeshyHttp.Response :=
  if (k <? 1)%nat
  then inr (MeshyHttp.mkResponse 200 "{}"
              (inr (MeshyHttp.mkTaskData (Some "t1") (Some "PENDING") None None
                      None None)))
  else inr (MeshyHttp.mkResponse 503 "Service Unavailable" (inl "no JSON")).

Definition unauthorized : Exc + MeshyHttp.Response :=
  inr (MeshyHttp.mkResponse 401 "Unauthorized" (inl "no JSON")).

End MoreSamples.

(** * Vocabulary of the properties *)

(** The four service invocations of one run, in the order of the code. *)
Definition stage_calls (p : Pipeline.AvatarPipeline) (job_id input_path : string)
  : list AdapterCall :=
  [ detect_face_call input_path;
    cartoonize_call input_path (Pipeline.cartoon_path p job_id) "pixar";
    generate_3d_model_call (Pipeline.cartoon_path p job_id)
                           (Pipeline.model_3d_path p job_id) 300;
    optimize_for_printing_call (Pipeline.model_3d_path p job_id)
                               (Pipeline.stl_path p job_id)
                               (Pipeline.target_height_mm p)
                               (Pipeline.printer_profile p) ].

Definition terminal (st : string) : Prop := st = "completed" ∨ st = "failed".

(** One move of the job state machine. *)
Inductive forward : string → string → Prop :=
| forward_start : forward "pending" "processing"
| forward_complete : forward "processing" "completed"
| forward_fail : forward "processing" "failed".

(** The three artifact kinds are all referenced. *)
Definition all_outputs (files : gmap string string) : Prop :=
  is_Some (files !! "cartoon") ∧ is_Some (files !! "model_3d")
  ∧ is_Some (files !! "stl").

(** What a record of the registry looks like in each state. *)
Definition record_ok (j : Job) : Prop :=
  (status j = "pending" ∧ current_step j = None
     ∧ error j = None ∧ output_files j = None)
  ∨ (status j = "processing" ∧ error j = None ∧ output_files j = None)
  ∨ (status j = "completed" ∧ error j = None
     ∧ ∃ files, output_files j = Some files ∧ all_outputs files)
  ∨ (status j = "failed" ∧ current_step j = Some "failed"
     ∧ is_Some (error j) ∧ output_files j = None).

(** What a background task of job [id] may still do when the record of its
    job is [j]: it has ended only if the job is in a terminal state, it
    never ends by an exception, it invokes services only while the job is
    processing, and each of its critical sections rewrites the record of
    its own job and nothing else, into a record that is again well formed
    and whose status is the same or one move forward. *)
Fixpoint task_ok (id : string) (p : Prog unit) (j : Job) : Prop :=
  match p with
  | Ret _ => terminal (status j)
  | Raise _ => False
  | Call _ k => status j = "processing" ∧ ∀ r, task_ok id (k r) j
  | Locked f k =>
      ∀ jobs, ∃ j' r,
        f (<[id := j]> jobs) = (<[id := j']> jobs, r)
        ∧ record_ok j'
        ∧ (status j' = status j ∨ forward (status j) (status j'))
        ∧ task_ok id (k r) j'
  end.

(** The invariant of the server: every record is well formed and has its
    background task, which is in step with it. *)
Definition server_ok (s : Main.Server) : Prop :=
  ∀ id, match Main.s_jobs s !! id with
        | Some j => record_ok j
                    ∧ ∃ p, Main.s_tasks s !! id = Some p ∧ task_ok id p j
        | None => Main.s_tasks s !! id = None
        end.

(** Services called before position [K] of [cs] all return success. *)
Definition succeeds_before (oracle : AdapterCall → Exc + StageOutcome)
    (cs : list AdapterCall) (K : nat) : Prop :=
  ∀ i c, (i < K)%nat → cs !! i = Some c →
         ∃ o, oracle c = inr o ∧ success o = true.

(** The path [upload_photo] saves the upload under. *)
Definition upload_path_of (sanitize_filename : string → string)
    (job_id : string) (file : Main.UploadFile) : string :=
  Main.OUTPUT_DIR +:+ "/uploads/" +:+ job_id +:+ "_"
    +:+ sanitize_filename (Main.uf_filename file).

(** No face: the face mesh answers [None] or an empty list. *)
Definition no_face (faces : option (list (list FaceDetector.Landmark))) : Prop :=
  faces = None ∨ faces = Some [].

(** The share of the image area that a bounding box covers. *)
Definition area_ratio (bb : FaceDetector.BoundingBox) (height width : Z) : Q :=
  (inject_Z (FaceDetector.bb_width bb * FaceDetector.bb_height bb)
   / inject_Z (width * height))%Q.

(** The box spans the given pixel coordinates. *)
Definition encloses (bb : FaceDetector.BoundingBox) (px : list (Z * Z * Q)) : Prop :=
  Forall (λ p, FaceDetector.x_min bb ≤ p.1.1 ≤ FaceDetector.x_max bb
               ∧ FaceDetector.y_min bb ≤ p.1.2 ≤ FaceDetector.y_max bb) px
  ∧ FaceDetector.bb_width bb = FaceDetector.x_max bb - FaceDetector.x_min bb
  ∧ FaceDetector.bb_height bb = FaceDetector.y_max bb - FaceDetector.y_min bb.

(** The state of the polling loop at the top of its k-th iteration, when it
    was entered at time [t0] with no check made yet and has not been left:
    k checks, each followed by a sleep. *)
Definition world_at (ticks_per_second : Z) (check_cost sleep_extra : nat → Z)
    (poll_interval t0 : Z) (k : nat) : ThreeDGenerator.World :=
  ThreeDGenerator.mkWorld
    (ThreeDGenerator.clock_at ticks_per_second check_cost sleep_extra
       poll_interval t0 k)
    k
    (concat (replicate k [ThreeDGenerator.ev_check;
                          ThreeDGenerator.ev_sleep poll_interval])).

(** *** The registry between the statements *)

(** What holds of a record at every moment, also between the statements of
    a block: an error only with status failed, an outputs map only with
    status completed, and then with all three references. *)
Definition record_sound (j : Job) : Prop :=
  (is_Some (error j) → status j = "failed")
  ∧ (∀ files, output_files j = Some files →
       status j = "completed" ∧ all_outputs files).

(** What else a background task of job [id] may still do: each of its
    critical sections is one of the blocks of [main.py], and the one that
    stores a terminal status is its last action. *)
Fixpoint task_shape (id : string) (p : Prog unit) (j : Job) : Prop :=
  match p with
  | Ret _ | Raise _ => True
  | Call _ k => ∀ r, task_shape id (k r) j
  | Locked f k =>
      (∃ b, Threads.block_of f b)
      ∧ ∀ jobs j' r, f (<[id := j]> jobs) = (<[id := j']> jobs, r) →
          (terminal (status j') → ∃ a, k r = Ret a) ∧ task_shape id (k r) j'
  end.

(** A task between two blocks, with the record [j] of its job. *)
Definition running_ok (id : string) (p : Prog unit) (j : Job) : Prop :=
  record_ok j ∧ task_ok id p j ∧ task_shape id p j
  ∧ (terminal (status j) → ∃ a, p = Ret a).

(** What the rest of a block may still do to the record [j] of its job. *)
Fixpoint inside_ok (id : string) (b : Threads.Block) (k : option Exc → Prog unit)
    (j : Job) : Prop :=
  match b with
  | Threads.leave => running_ok id (k None) j
  | Threads.stmt f rest =>
      ∀ jobs, ∃ j' r,
        f (<[id := j]> jobs) = (<[id := j']> jobs, r)
        ∧ record_sound j'
        ∧ (status j' = status j ∨ forward (status j) (status j'))
        ∧ match r with
          | None => inside_ok id rest k j'
          | Some e => running_ok id (k (Some e)) j'
          end
  | Threads.test c yes no =>
      ∀ jobs, inside_ok id (if c (<[id := j]> jobs) then yes else no) k j
  end.

(** A task in step with the record [j] of its job. *)
Definition thread_ok (id : string) (t : Threads.Task) (j : Job) : Prop :=
  match t with
  | Threads.Running p => running_ok id p j
  | Threads.Inside b k => inside_ok id b k j
  end.

(** The invariant of the statement-level server. *)
Definition state_ok (s : Threads.State) : Prop :=
  (∀ id, match Threads.t_jobs s !! id with
         | Some j => record_sound j
                     ∧ ∃ t, Threads.t_tasks s !! id = Some t ∧ thread_ok id t j
         | None => Threads.t_tasks s !! id = None
         end)
  ∧ (∀ id b k, Threads.t_tasks s !! id = Some (Threads.Inside b k) →
               Threads.t_holder s = Some id).

(** The tasks of the server of [Main], seen between their blocks. *)
Definition between_blocks (s : Main.Server) : Threads.State :=
  Threads.mkState (Main.s_jobs s) (Threads.Running <$> Main.s_tasks s) None.

(** A record with nothing in it, to probe a critical section with. *)
Definition blank : Job := mkJob "" "" "" "" None None None None None.


(** *** The face mesh *)

(** The pixel position of a landmark of the face mesh in an image of the
    given size, with its depth. *)
Definition pixel (width height : Z) (lm : FaceDetector.Landmark) : Z * Z * Q :=
  (FaceDetector.int (FaceDetector.lm_x lm * inject_Z width),
   FaceDetector.int (FaceDetector.lm_y lm * inject_Z height),
   FaceDetector.lm_z lm).

(** The box is the bounding box of the pixels: it spans them and each of its
    four sides passes through one of them. *)
Definition bounding_box_of (bb : FaceDetector.BoundingBox) (px : list (Z * Z * Q))
  : Prop :=
  encloses bb px
  ∧ (∃ p, p ∈ px ∧ p.1.1 = FaceDetector.x_min bb)
  ∧ (∃ p, p ∈ px ∧ p.1.1 = FaceDetector.x_max bb)
  ∧ (∃ p, p ∈ px ∧ p.1.2 = FaceDetector.y_min bb)
  ∧ (∃ p, p ∈ px ∧ p.1.2 = FaceDetector.y_max bb).

(** ** Sample inputs *)

Module Sample.

Definition pl : Pipeline.AvatarPipeline := Pipeline.mkPipeline "output" 80 "ender3v2".

Definition sanitize_filename (name : string) : string := name.
Definition suffix_lower (path : string) : string := ".png".
Definition fmt_mb (len : Z) : string := pretty (len / (1024 * 1024)).

(** A 2 MB upload that decodes to a 1024 x 1024 RGB image. *)
Definition photo : Main.UploadFile :=
  Main.mkUploadFile "me.png" (Validators.mkContent 2097152 (inr (1024, 1024, "RGB"))).

(** A 20 MB upload. *)
Definition huge : Main.UploadFile :=
  Main.mkUploadFile "big.png" (Validators.mkContent 20971520 (inr (1024, 1024, "RGB"))).

Definition id : string := "4b0c".
Definition path : string := "output/uploads/4b0c_me.png".

(** The record [upload_photo] files for [photo]. *)
Definition pending_record : Job :=
  mkJob id "pending" path "me.png" None None None None None.

(** Services whose stage [bad] answers [r] and whose earlier stages
    succeed. *)
Definition oracle (bad : nat) (r : Exc + StageOutcome) (c : AdapterCall)
  : Exc + StageOutcome :=
  if bool_decide (stage_of c = bad) then r else inr (mkOutcome true "ok" None).

(** Let the background task of job [id] take its next step, a critical
    section or a service invocation answered by [r]. *)
Definition fire (id : string) (r : Exc + StageOutcome) (s : Main.Server)
  : Main.Server :=
  match Main.s_tasks s !! id with
  | Some (Locked f k) =>
      let '(jobs', e) := f (Main.s_jobs s) in
      Main.mkServer jobs' (<[id := k e]> (Main.s_tasks s))
  | Some (Call c k) => Main.mkServer (Main.s_jobs s) (<[id := k r]> (Main.s_tasks s))
  | _ => s
  end.

(** The server after the upload of [photo] ... *)
Definition uploaded : Main.Server :=
  (Main.upload_photo 10 pl sanitize_filename suffix_lower fmt_mb
     id photo None ∅ Main.initial).2.

(** ... and after the task has run into a face check that fails. *)
Definition no_face_found : Exc + StageOutcome :=
  inr (mkOutcome false "No face detected" None).

Definition failed : Main.Server :=
  Nat.iter 5 (fire id no_face_found) uploaded.

(** ... or through all four stages. *)
Definition completed : Main.Server :=
  Nat.iter 15 (fire id (inr (mkOutcome true "ok" None))) uploaded.

(** A remote task that succeeds at the third check, and one that never
    ends. *)
Definition third_time (k : nat) : ThreeDGenerator.StatusResult :=
  if (k <? 2)%nat
  then ThreeDGenerator.mkStatus "IN_PROGRESS" 50 None None None
  else ThreeDGenerator.mkStatus "SUCCEEDED" 100 (Some "https://models/model.glb")
         None None.

Definition never (k : nat) : ThreeDGenerator.StatusResult :=
  ThreeDGenerator.mkStatus "PENDING" 0 None None None.

(** One face with two landmarks, in a 1000 x 1000 image. *)
Definition faces : option (list (list FaceDetector.Landmark)) :=
  Some [[FaceDetector.mkLandmark (1 # 4) (1 # 4) 0;
         FaceDetector.mkLandmark (3 # 4) (3 # 4) 0]].

(** Two faces in an image 1000 wide and 800 high; the first has three
    landmarks. *)
Definition portrait : option (list (list FaceDetector.Landmark)) :=
  Some [[FaceDetector.mkLandmark (1 # 10) (1 # 5) 0;
         FaceDetector.mkLandmark (1 # 2) (7 # 10) (1 # 100);
         FaceDetector.mkLandmark (3 # 10) (1 # 2) 0];
        [FaceDetector.mkLandmark (8 # 10) (8 # 10) 0;
         FaceDetector.mkLandmark (9 # 10) (9 # 10) 0]].

(** A second upload of the same photo under another id, and the server
    after the task of the first job has then run its first block. *)
Definition second : string := "9f1e".

Definition two_uploaded : Main.Server :=
  (Main.upload_photo 10 pl sanitize_filename suffix_lower fmt_mb
     second photo None ∅ uploaded).2.

Definition two_started : Main.Server :=
  fire id (inr (mkOutcome true "ok" None)) two_uploaded.

(** The server just before the task of [id] enters its last block, on the
    run that fails at the face check and on the run that succeeds. *)
Definition failing : Main.Server :=
  Nat.iter 4 (fire id no_face_found) uploaded.


End Sample.

(** * Properties *)

(** ** Critical sections on the record of one job *)

Lemma setitem_insert id upd j (jobs : gmap string Job) :
  setitem id upd (<[id := j]> jobs) = (<[id := upd j]> jobs, None).
Proof.
  unfold setitem. rewrite lookup_insert_eq. by rewrite insert_insert_eq.
Qed.

Lemma then_setitem_insert id upd (g : Critical) j (jobs : gmap string Job) :
  then_ (setitem id upd) g (<[id := j]> jobs) = g (<[id := upd j]> jobs).
Proof. unfold then_. by rewrite setitem_insert. Qed.

Lemma update_job_status_insert id step data j (jobs : gmap string Job) :
  Main.update_job_status id step data (<[id := j]> jobs)
  = (<[id := set_last_update data (set_current_step step j)]> jobs, None).
Proof.
  unfold Main.update_job_status. rewrite lookup_insert_eq.
  rewrite bool_decide_eq_true_2 by eauto.
  by rewrite then_setitem_insert, setitem_insert.
Qed.

Lemma task_ok_locked id f k j j' r :
  (∀ jobs, f (<[id := j]> jobs) = (<[id := j']> jobs, r)) →
  record_ok j' →
  status j' = status j ∨ forward (status j) (status j') →
  task_ok id (k r) j' →
  task_ok id (Locked f k) j.
Proof. intros Hf ? ? ? jobs. exists j', r. by rewrite Hf. Qed.

Lemma task_ok_call id c k j :
  status j = "processing" → (∀ r, task_ok id (k r) j) → task_ok id (Call c k) j.
Proof. by split. Qed.

Ltac critical :=
  intros;
  first [ apply update_job_status_insert
        | apply setitem_insert
        | unfold Main.final_status; simpl;
          rewrite ?then_setitem_insert; apply setitem_insert ].

Ltac record :=
  unfold record_ok, all_outputs; simpl;
  first [ solve [left; done]
        | solve [right; left; done]
        | solve [right; right; left; repeat split; eauto; simplify_map_eq; eauto]
        | solve [right; right; right; repeat split; eauto] ].

Ltac moves :=
  simpl; first [ left; reflexivity | right; constructor ].

#[local] Arguments task_ok : simpl never.

Ltac task_step :=
  simpl;
  lazymatch goal with
  | |- task_ok _ (Ret _) _ => unfold task_ok, terminal; simpl; auto
  | |- task_ok _ (Call _ _) _ =>
      apply task_ok_call; [ reflexivity | intros [?e|?o] ]
  | |- task_ok _ (Locked _ _) _ =>
      eapply task_ok_locked; [ critical | record | moves | ]
  | |- context [negb (success ?o)] => destruct (success o)
  end.


Section server.
Variable MAX_UPLOAD_SIZE_MB : Z.
Variable pl : Pipeline.AvatarPipeline.
Variable sanitize_filename suffix_lower : string → string.
Variable fmt_mb : Z → string.

Abbreviation upload_photo :=
  (Main.upload_photo MAX_UPLOAD_SIZE_MB pl sanitize_filename suffix_lower fmt_mb).
Abbreviation step :=
  (Main.step MAX_UPLOAD_SIZE_MB pl sanitize_filename suffix_lower fmt_mb).
Abbreviation reachable :=
  (Main.reachable MAX_UPLOAD_SIZE_MB pl sanitize_filename suffix_lower fmt_mb).

Lemma process_avatar_background_ok id path j :
  status j = "pending" → record_ok j →
  task_ok id (Main.process_avatar_background pl id path) j.
Proof.
  intros Hs Hok.
  assert (current_step j = None ∧ error j = None ∧ output_files j = None)
    as (Hc & He & Ho).
  { destruct Hok as [H|[H|[H|H]]]; destruct H as (H & ?); try done;
      rewrite Hs in H; discriminate. }
  destruct j; simpl in *; subst.
  unfold Main.process_avatar_background, Pipeline.process_avatar,
    Pipeline.process_avatar_body, Pipeline.update_status.
  repeat task_step.
Qed.

(** What [upload_photo] does to the server: nothing, or it files one new
    pending record together with its task. *)
Lemma upload_photo_cases job_id file write_error fs reply fs' s s' :
  upload_photo job_id file write_error fs s = (reply, fs', s') →
  s' = s
  ∨ ∃ path name,
      s' = Main.mkServer
             (<[job_id := mkJob job_id "pending" path name None None None None None]>
                (Main.s_jobs s))
             (<[job_id := Main.process_avatar_background pl job_id path]>
                (Main.s_tasks s)).
Proof.
  unfold Main.upload_photo. intros H.
  repeat case_match; simplify_eq; eauto.
Qed.

Lemma pending_record_ok id path name :
  record_ok (mkJob id "pending" path name None None None None None).
Proof. by left. Qed.

Lemma step_server_ok s s' : server_ok s → step s s' → server_ok s'.
Proof.
  intros Hok Hstep. destruct Hstep as
    [job_id file we fs reply fs' s s' Hfresh Hup
    |job_id c k r s Htask
    |job_id f k jobs' r s Htask Hf].
  - apply upload_photo_cases in Hup as [->|(path & name & ->)]; [done|].
    intros id. simpl. destruct (decide (id = job_id)) as [->|Hne].
    + rewrite !lookup_insert_eq. split; [apply pending_record_ok|].
      eexists; split; [done|].
      by apply process_avatar_background_ok; [|apply pending_record_ok].
    + rewrite !lookup_insert_ne by done. apply Hok.
  - intros id. simpl. pose proof (Hok id) as Hid.
    destruct (decide (id = job_id)) as [->|Hne].
    + rewrite lookup_insert_eq. rewrite Htask in Hid.
      destruct (Main.s_jobs s !! job_id) as [j|]; [|done].
      destruct Hid as (Hj & p & [= <-] & Hp & Hk). eauto.
    + by rewrite lookup_insert_ne.
  - pose proof (Hok job_id) as Hid. rewrite Htask in Hid.
    destruct (Main.s_jobs s !! job_id) as [j|] eqn:Hj; [|done].
    destruct Hid as (Hrec & p & [= <-] & Hp).
    destruct (Hp (Main.s_jobs s)) as (j' & r' & Hf' & Hrec' & Hmove & Hk).
    rewrite (insert_id _ _ _ Hj), Hf in Hf'. simplify_eq.
    intros id. simpl. destruct (decide (id = job_id)) as [->|Hne].
    + rewrite !lookup_insert_eq. eauto.
    + rewrite !lookup_insert_ne by done. apply Hok.
Qed.

Lemma initial_server_ok : server_ok Main.initial.
Proof. intros id. unfold Main.initial. simpl. by rewrite !lookup_empty. Qed.

Lemma steps_server_ok s s' : server_ok s → rtc step s s' → server_ok s'.
Proof. induction 2; eauto using step_server_ok. Qed.

Lemma reachable_server_ok s : reachable s → server_ok s.
Proof. apply steps_server_ok, initial_server_ok. Qed.


(** One transition moves the status of a job at most one step forward. *)
Lemma step_status s s' id j :
  server_ok s → step s s' → Main.s_jobs s !! id = Some j →
  ∃ j', Main.s_jobs s' !! id = Some j'
        ∧ (status j' = status j ∨ forward (status j) (status j')).
Proof.
  intros Hok Hstep Hj. destruct Hstep as
    [job_id file we fs reply fs' s s' Hfresh Hup
    |job_id c k r s Htask
    |job_id f k jobs' r s Htask Hf].
  - apply upload_photo_cases in Hup as [->|(path & name & ->)]; [eauto|].
    simpl. rewrite lookup_insert_ne by congruence. eauto.
  - simpl. eauto.
  - pose proof (Hok job_id) as Hid. rewrite Htask in Hid.
    destruct (Main.s_jobs s !! job_id) as [j0|] eqn:Hj0; [|done].
    destruct Hid as (Hrec & p & [= <-] & Hp).
    destruct (Hp (Main.s_jobs s)) as (j' & r' & Hf' & Hrec' & Hmove & Hk).
    rewrite (insert_id _ _ _ Hj0), Hf in Hf'. simplify_eq.
    simpl. destruct (decide (id = job_id)) as [->|Hne].
    + rewrite lookup_insert_eq. simplify_eq. eauto.
    + rewrite lookup_insert_ne by done. eauto.
Qed.

Lemma forward_not_terminal st st' : forward st st' → ¬ terminal st.
Proof. by intros [] [|]. Qed.

(** C6: from any reachable state of the server on, along any further
    transitions, the record of a job stays in the registry and its status
    only moves forward along pending, processing, completed or failed; a
    status that is completed or failed never changes again. *)
Theorem status_only_moves_forward s s' id j :
  reachable s → rtc step s s' → Main.s_jobs s !! id = Some j →
  ∃ j', Main.s_jobs s' !! id = Some j'
        ∧ rtc forward (status j) (status j')
        ∧ (terminal (status j) → status j' = status j).
Proof.
  intros Hs%reachable_server_ok Hsteps. revert j Hs.
  induction Hsteps as [s|s s1 s2 Hstep Hsteps IH]; intros j Hok Hj.
  - exists j. by split; [|split].
  - destruct (step_status _ _ _ _ Hok Hstep Hj) as (j1 & Hj1 & Hmove).
    destruct (IH j1 (step_server_ok _ _ Hok Hstep) Hj1) as (j2 & Hj2 & Hrtc & Hterm).
    exists j2. split; [done|]. destruct Hmove as [Heq|Hfwd].
    + rewrite <- Heq. by split.
    + split; [by econstructor|].
      intros Ht. by apply forward_not_terminal in Hfwd.
Qed.






Lemma validate_image_file_message fs path cs cd :
  ∃ v m, Validators.validate_image_file suffix_lower fmt_mb fs path cs cd = (v, m).
Proof. destruct (Validators.validate_image_file _ _ _ _ _ _); eauto. Qed.

(** C8: a submission whose file is too large, cannot be written or fails
    the image validation is answered by an HTTP error and leaves the server
    as it was, so that the status query for the drawn job id answers 404;
    any other submission returns the job id with status "pending", after
    which the registry holds a pending record for that id and the background
    task is filed for it, not yet started: it is the whole program of
    [process_avatar_background]. *)
Theorem upload_rejects_before_creating job_id file write_error fs s :
  Main.s_jobs s !! job_id = None →
  let path := upload_path_of sanitize_filename job_id file in
  let rejected :=
    Validators.size_mb_exceeds
      (Validators.length_bytes (Main.uf_content file)) MAX_UPLOAD_SIZE_MB = true
    ∨ is_Some write_error
    ∨ (Validators.validate_image_file suffix_lower fmt_mb
         (<[path := Main.uf_content file]> fs) path false true).1 = false in
  ∃ reply fs' s',
    upload_photo job_id file write_error fs s = (reply, fs', s')
    ∧ ((rejected
        ∧ (∃ code detail, reply = Main.HTTPException code detail)
        ∧ s' = s
        ∧ Main.get_status job_id (Main.s_jobs s')
          = Main.HTTPException 404 "Job not found")
       ∨ (¬ rejected
          ∧ (∃ text, reply = Main.Returns (Main.mkUploadReply job_id text "pending"))
          ∧ (∃ j, Main.s_jobs s' !! job_id = Some j ∧ status j = "pending")
          ∧ Main.s_tasks s' !! job_id
            = Some (Main.process_avatar_background pl job_id path)
          ∧ ∀ id, id ≠ job_id → Main.s_jobs s' !! id = Main.s_jobs s !! id)).
Proof.
  intros Hfresh path rejected. subst rejected.
  unfold Main.upload_photo. fold (upload_path_of sanitize_filename job_id file).
  fold path.
  assert (Main.get_status job_id (Main.s_jobs s)
          = Main.HTTPException 404 "Job not found") as H404.
  { unfold Main.get_status. by rewrite Hfresh. }
  destruct (Validators.size_mb_exceeds _ _) eqn:Hsize.
  { do 3 eexists. split; [reflexivity|]. left.
    split; [by left|]. split; [by do 2 eexists|]. by split. }
  destruct write_error as [e|].
  { do 3 eexists. split; [reflexivity|]. left.
    split; [right; left; by eexists|]. split; [by do 2 eexists|]. by split. }
  rewrite lookup_insert_eq. rewrite bool_decide_eq_true_2 by (by eexists). simpl.
  destruct (Validators.validate_image_file _ _ _ _ _ _) as [[] m] eqn:Hval; simpl.
  - do 3 eexists. split; [reflexivity|]. right. simpl.
    split; [intros [?|[[? ?]|?]]; done|].
    split; [by eexists|]. rewrite !lookup_insert_eq.
    split; [by eexists|]. split; [done|].
    intros id Hne. by rewrite lookup_insert_ne.
  - do 3 eexists. split; [reflexivity|]. left.
    split; [by right; right|]. split; [by do 2 eexists|]. by split.
Qed.

End server.

(** ** Statement by statement *)

Lemma block_of_denote f b jobs : Threads.block_of f b → Threads.denote b jobs = f jobs.
Proof.
  intros [id step data|id|id result|id e]; simpl.
  - unfold Main.update_job_status. case_bool_decide; [|done].
    unfold then_. destruct (setitem _ _ _) as [? []]; [done|].
    destruct (setitem _ _ _) as [? []]; done.
  - unfold then_. destruct (setitem _ _ _) as [? []]; done.
  - unfold Threads.final_status, Main.final_status.
    destruct (r_success result); simpl; unfold then_;
      repeat (match goal with
              | |- context [match ?x with _ => _ end] => destruct x
              end; try done).
  - unfold then_.
    repeat (match goal with
            | |- context [match ?x with _ => _ end] => destruct x
            end; try done).
Qed.

Lemma record_ok_sound j : record_ok j → record_sound j.
Proof.
  unfold record_ok, record_sound.
  intros [H|[H|[H|H]]]; destruct H as (Hs & H);
    (split; [intros [e He]|intros files Hf]);
    try (destruct_and?; congruence).
  destruct H as (_ & files' & Hf' & Hall). split; [done|]. congruence.
Qed.

Lemma insert_inj id (j j' : Job) (jobs : gmap string Job) :
  <[id := j]> jobs = <[id := j']> jobs → j = j'.
Proof.
  intros H. assert (<[id := j]> jobs !! id = <[id := j']> jobs !! id) as Hl
    by (by rewrite H).
  rewrite !lookup_insert_eq in Hl. by injection Hl.
Qed.

Lemma critical_result id (j j' : Job) (jobs : gmap string Job) (r r' : option Exc) :
  (<[id := j]> jobs, r) = (<[id := j']> jobs, r') → j = j' ∧ r = r'.
Proof. intros [H1 H2]%pair_equal_spec. split; [by eapply insert_inj|done]. Qed.

Ltac lookups :=
  repeat (first [ rewrite lookup_insert_eq
                | rewrite lookup_singleton_eq
                | rewrite lookup_insert_ne by done
                | rewrite bool_decide_eq_true_2 by eauto ]; simpl).

(** The blocks of a task are those of its own job. *)
Lemma block_of_own id f k j b :
  task_ok id (Locked f k) j → Threads.block_of f b →
  (∃ step data, f = Main.update_job_status id step data
                ∧ b = Threads.update_job_status id step data)
  ∨ (f = setitem id (set_status "processing") ∧ b = Threads.start_processing id)
  ∨ (∃ result, f = Main.final_status id result ∧ b = Threads.final_status id result)
  ∨ (∃ e, f = then_ (setitem id (set_status "failed")) (setitem id (set_error e))
          ∧ b = Threads.record_exception id e).
Proof.
  intros Hok Hb.
  assert (∀ id', id' ≠ id →
            (f (<[id := j]> {[id' := blank]})).1 !! id' = Some blank) as Hother.
  { intros id' Hne. destruct (Hok {[id' := blank]}) as (j' & r & -> & _).
    simpl. rewrite lookup_insert_ne by done. apply lookup_singleton_eq. }
  destruct Hb as [id' step data|id'|id' result|id' e];
    (destruct (decide (id' = id)) as [->|Hne]; [eauto 10|]);
    specialize (Hother id' Hne); exfalso; revert Hother.
  - unfold Main.update_job_status, then_, setitem. lookups. done.
  - unfold setitem. lookups. done.
  - unfold Main.final_status, then_, setitem.
    destruct (r_success result), (r_output_files result); lookups; done.
  - unfold then_, setitem. lookups. done.
Qed.

Ltac sound Hj Hrec :=
  let Hs := fresh in
  destruct (record_ok_sound _ Hj) as [_ Hs];
  unfold record_sound, record_ok in *; simpl in *;
  destruct Hrec as [Hrec|[Hrec|[Hrec|Hrec]]]; destruct_and?;
  (split; [intros [? ?]|intros ? ?]);
  repeat match goal with H : ∃ _, _ |- _ => destruct H end; destruct_and?;
  simplify_eq; auto; try congruence;
  (split; [done|]); by eapply Hs.

Ltac statement Hj Hrec Hmv :=
  intros ?; eexists _, _; split; [apply setitem_insert|];
  split; [sound Hj Hrec|];
  split; [first [left; reflexivity | exact Hmv]|].

(** Entering a block: it does, statement by statement, what the critical
    section does at once. *)
Lemma acquire_ok id f k j b :
  running_ok id (Locked f k) j → Threads.block_of f b → inside_ok id b k j.
Proof.
  intros (Hj & Hok & (_ & Hshape) & _) Hb.
  destruct (Hok ∅) as (jc & rc & Hf & Hrec & Hmv & Hk).
  destruct (Hshape _ _ _ Hf) as [Hend Hshape'].
  assert (running_ok id (k rc) jc) as Hrun by done.
  clear Hk Hend Hshape' Hshape.
  destruct (block_of_own _ _ _ _ _ Hok Hb)
    as [(step & data & -> & ->)|[(-> & ->)|[(result & -> & ->)|(e & -> & ->)]]].
  - rewrite update_job_status_insert in Hf. apply critical_result in Hf as [<- <-].
    intros jobs. simpl. lookups.
    statement Hj Hrec Hmv. statement Hj Hrec Hmv. done.
  - rewrite setitem_insert in Hf. apply critical_result in Hf as [<- <-].
    statement Hj Hrec Hmv. done.
  - unfold Main.final_status in Hf. unfold Threads.final_status.
    destruct (r_success result).
    + rewrite !then_setitem_insert in Hf.
      destruct (r_output_files result) as [files|].
      * rewrite setitem_insert in Hf. apply critical_result in Hf as [<- <-].
        statement Hj Hrec Hmv. statement Hj Hrec Hmv. statement Hj Hrec Hmv.
        done.
      * apply critical_result in Hf as [<- <-].
        statement Hj Hrec Hmv. statement Hj Hrec Hmv.
        intros ?. eexists _, _. split; [reflexivity|].
        split; [by apply record_ok_sound|]. split; [by left|]. done.
    + rewrite then_setitem_insert, setitem_insert in Hf.
      apply critical_result in Hf as [<- <-].
      statement Hj Hrec Hmv. statement Hj Hrec Hmv. done.
  - rewrite then_setitem_insert, setitem_insert in Hf.
    apply critical_result in Hf as [<- <-].
    statement Hj Hrec Hmv. statement Hj Hrec Hmv. done.
Qed.

Lemma state_ok_update s id j' t' holder' :
  state_ok s →
  is_Some (Threads.t_jobs s !! id) →
  record_sound j' → thread_ok id t' j' →
  (∀ id' b k, <[id := t']> (Threads.t_tasks s) !! id' = Some (Threads.Inside b k) →
              holder' = Some id') →
  state_ok (Threads.mkState (<[id := j']> (Threads.t_jobs s))
                            (<[id := t']> (Threads.t_tasks s)) holder').
Proof.
  intros [Hok Hin] Hj Hs Ht Hh. split; [|done].
  intros id'. simpl. destruct (decide (id' = id)) as [->|Hne].
  - rewrite !lookup_insert_eq. eauto.
  - rewrite !lookup_insert_ne by done. apply Hok.
Qed.

Lemma state_ok_task s id t :
  state_ok s → Threads.t_tasks s !! id = Some t →
  ∃ j, Threads.t_jobs s !! id = Some j ∧ record_sound j ∧ thread_ok id t j.
Proof.
  intros [Hok _] Ht. specialize (Hok id). rewrite Ht in Hok.
  destruct (Threads.t_jobs s !! id) as [j|]; [|done].
  destruct Hok as (Hs & t' & [= <-] & Hok). eauto.
Qed.

Lemma state_ok_record s id j :
  state_ok s → Threads.t_jobs s !! id = Some j →
  record_sound j ∧ ∃ t, Threads.t_tasks s !! id = Some t ∧ thread_ok id t j.
Proof. intros [Hok _] Hj. specialize (Hok id). by rewrite Hj in Hok. Qed.

Lemma task_step_ok s s' : state_ok s → Threads.task_step s s' → state_ok s'.
Proof.
  intros Hok Hstep. pose proof Hok as [_ Hin].
  destruct Hstep as
    [id c k r s Ht|id f k b s Ht Hfree Hb|id f rest k jobs' s Ht Hf
    |id f rest k jobs' e s Ht Hf|id c yes no k s Ht|id k s Ht];
    destruct (state_ok_task _ _ _ Hok Ht) as (j & Hj & Hs & Hth);
    try rewrite <- (insert_id (Threads.t_jobs s) id j Hj) at 1.
  - apply state_ok_update; eauto.
    + destruct Hth as (Hrec & (Hst & Hk) & Hsh & _).
      split; [done|]. split; [apply Hk|]. split; [apply Hsh|].
      intros [Ht'|Ht']; rewrite Hst in Ht'; discriminate.
    + intros id' b' k' H'. destruct (decide (id' = id)) as [->|Hne].
      * by rewrite lookup_insert_eq in H'.
      * rewrite lookup_insert_ne in H' by done. eauto.
  - apply state_ok_update; eauto.
    + by eapply acquire_ok.
    + intros id' b' k' H'. destruct (decide (id' = id)) as [->|Hne]; [done|].
      rewrite lookup_insert_ne in H' by done.
      apply Hin in H'. congruence.
  - destruct (Hth (Threads.t_jobs s)) as (j' & r & Hf' & Hs' & _ & Hk).
    rewrite (insert_id _ _ _ Hj), Hf in Hf'.
    apply pair_equal_spec in Hf' as [-> <-].
    apply state_ok_update; eauto.
    intros id' b' k' H'. destruct (decide (id' = id)) as [->|Hne]; eauto.
    rewrite lookup_insert_ne in H' by done. eauto.
  - destruct (Hth (Threads.t_jobs s)) as (j' & r & Hf' & Hs' & _ & Hk).
    rewrite (insert_id _ _ _ Hj), Hf in Hf'.
    apply pair_equal_spec in Hf' as [-> <-].
    apply state_ok_update; eauto.
    intros id' b' k' H'. destruct (decide (id' = id)) as [->|Hne].
    + by rewrite lookup_insert_eq in H'.
    + rewrite lookup_insert_ne in H' by done.
      apply Hin in H'. apply Hin in Ht. congruence.
  - apply state_ok_update; eauto.
    + specialize (Hth (Threads.t_jobs s)). by rewrite (insert_id _ _ _ Hj) in Hth.
    + intros id' b' k' H'. destruct (decide (id' = id)) as [->|Hne]; eauto.
      rewrite lookup_insert_ne in H' by done. eauto.
  - apply state_ok_update; eauto.
    intros id' b' k' H'. destruct (decide (id' = id)) as [->|Hne].
    + by rewrite lookup_insert_eq in H'.
    + rewrite lookup_insert_ne in H' by done.
      apply Hin in H'. apply Hin in Ht. congruence.
Qed.

Lemma task_steps_ok s s' : state_ok s → rtc Threads.task_step s s' → state_ok s'.
Proof. induction 2; eauto using task_step_ok. Qed.

Lemma task_shape_call id c k j :
  (∀ r, task_shape id (k r) j) → task_shape id (Call c k) j.
Proof. done. Qed.

Lemma task_shape_locked id f k j b :
  Threads.block_of f b →
  (∀ jobs j' r, f (<[id := j]> jobs) = (<[id := j']> jobs, r) →
     (terminal (status j') → ∃ a, k r = Ret a) ∧ task_shape id (k r) j') →
  task_shape id (Locked f k) j.
Proof. intros Hb Hk. split; [by exists b|done]. Qed.

#[local] Arguments task_shape : simpl never.

Ltac shape_step :=
  simpl;
  lazymatch goal with
  | |- task_shape _ (Ret _) _ => exact I
  | |- task_shape _ (Call _ _) _ => apply task_shape_call; intros [?e|?o]
  | |- task_shape _ (Locked _ _) _ =>
      let Hf := fresh "Hf" in
      eapply task_shape_locked; [constructor|];
      intros ? ? ? Hf;
      first [ rewrite update_job_status_insert in Hf
            | rewrite setitem_insert in Hf
            | unfold Main.final_status in Hf; simpl in Hf;
              rewrite ?then_setitem_insert, setitem_insert in Hf ];
      apply critical_result in Hf as [<- <-];
      split; [intros [?H|?H]; simpl in *;
              first [discriminate | eexists; reflexivity]|]
  | |- context [negb (success ?o)] => destruct (success o)
  end.

Lemma process_avatar_background_shape pl id path j :
  status j = "pending" →
  task_shape id (Main.process_avatar_background pl id path) j.
Proof.
  intros Hs. destruct j; simpl in *; subst.
  unfold Main.process_avatar_background, Pipeline.process_avatar,
    Pipeline.process_avatar_body, Pipeline.update_status.
  repeat shape_step.
Qed.

Lemma pending_running_ok pl id path name :
  running_ok id (Main.process_avatar_background pl id path)
    (mkJob id "pending" path name None None None None None).
Proof.
  split; [apply pending_record_ok|].
  split; [by apply process_avatar_background_ok; [|apply pending_record_ok]|].
  split; [by apply process_avatar_background_shape|].
  intros [?|?]; discriminate.
Qed.


(** One statement moves the status of a job at most one move forward and
    leaves alone the record of a job whose task has returned. *)
Lemma task_step_record s s' id j :
  state_ok s → Threads.task_step s s' → Threads.t_jobs s !! id = Some j →
  ∃ j', Threads.t_jobs s' !! id = Some j'
        ∧ (status j' = status j ∨ forward (status j) (status j'))
        ∧ (∀ a, Threads.t_tasks s !! id = Some (Threads.Running (Ret a)) →
             j' = j
             ∧ Threads.t_tasks s' !! id = Some (Threads.Running (Ret a))).
Proof.
  intros Hok Hstep Hid.
  destruct Hstep as
    [id0 c k r s Ht|id0 f k b s Ht Hfree Hb|id0 f rest k jobs' s Ht Hf
    |id0 f rest k jobs' e s Ht Hf|id0 c yes no k s Ht|id0 k s Ht];
    destruct (state_ok_task _ _ _ Hok Ht) as (j0 & Hj0 & Hs & Hth); simpl.
  1,2,5,6:
    exists j; split; [done|]; split; [by left|];
    intros a Ha; split; [done|];
    destruct (decide (id = id0)) as [->|Hne]; [congruence|];
    by rewrite lookup_insert_ne.
  all:
    destruct (Hth (Threads.t_jobs s)) as (j' & r & Hf' & Hs' & Hmv & Hk);
    rewrite (insert_id _ _ _ Hj0), Hf in Hf';
    apply pair_equal_spec in Hf' as [-> <-];
    (destruct (decide (id = id0)) as [->|Hne];
     [rewrite lookup_insert_eq; exists j'; simplify_eq;
      split; [done|]; split; [done|]; intros a Ha; congruence
     |rewrite !lookup_insert_ne by done; exists j;
      split; [done|]; split; [by left|]; done]).
Qed.

Lemma task_steps_record s s' id j :
  state_ok s → rtc Threads.task_step s s' → Threads.t_jobs s !! id = Some j →
  ∃ j', Threads.t_jobs s' !! id = Some j'
        ∧ rtc forward (status j) (status j')
        ∧ (terminal (status j) → status j' = status j)
        ∧ (∀ a, Threads.t_tasks s !! id = Some (Threads.Running (Ret a)) → j' = j).
Proof.
  intros Hok Hsteps. revert j Hok.
  induction Hsteps as [s|s s1 s2 Hstep Hsteps IH]; intros j Hok Hj.
  - exists j. by repeat split.
  - destruct (task_step_record _ _ _ _ Hok Hstep Hj) as (j1 & Hj1 & Hmv & Hdone).
    destruct (IH j1 (task_step_ok _ _ Hok Hstep) Hj1) as (j2 & Hj2 & Hrtc & Hterm & Hdone2).
    exists j2. split; [done|]. split; [|split].
    + destruct Hmv as [<-|Hfwd]; [done|by econstructor].
    + intros Ht. destruct Hmv as [Heq|Hfwd].
      * rewrite <- Heq. apply Hterm. by rewrite Heq.
      * by apply forward_not_terminal in Hfwd.
    + intros a Ha. destruct (Hdone a Ha) as [-> Ha1]. eauto.
Qed.

(** Outside the blocks of its task a record is well formed, and once its
    status is terminal the task has returned. *)
Lemma settled s id j :
  state_ok s → Threads.t_jobs s !! id = Some j → Threads.t_holder s ≠ Some id →
  record_ok j
  ∧ (terminal (status j) →
       ∃ a, Threads.t_tasks s !! id = Some (Threads.Running (Ret a))).
Proof.
  intros Hok Hj Hfree. pose proof Hok as [_ Hin].
  destruct (state_ok_record _ _ _ Hok Hj) as (_ & [p|b k] & Ht & Hth).
  - destruct Hth as (Hrec & _ & _ & Hend). split; [done|].
    intros [a ->]%Hend. eauto.
  - apply Hin in Ht. done.
Qed.

(** ** The server of [Main] inside the statement-level one *)

Lemma run_block b k id jobs tasks :
  rtc Threads.task_step
    (Threads.mkState jobs (<[id := Threads.Inside b k]> tasks) (Some id))
    (Threads.mkState (Threads.denote b jobs).1
       (<[id := Threads.Running (k (Threads.denote b jobs).2)]> tasks) None).
Proof.
  revert jobs tasks. induction b as [|f rest IH|c yes IHyes no IHno];
    intros jobs tasks; simpl.
  - eapply rtc_l.
    + by apply (Threads.step_leave id k (Threads.mkState _ _ _)), lookup_insert_eq.
    + simpl. rewrite insert_insert_eq. apply rtc_refl.
  - unfold then_. destruct (f jobs) as [jobs1 [e|]] eqn:Hf; simpl.
    + eapply rtc_l.
      * by apply (Threads.step_raise id f rest k jobs1 e (Threads.mkState _ _ _));
          [apply lookup_insert_eq|].
      * simpl. rewrite insert_insert_eq. apply rtc_refl.
    + eapply rtc_l.
      * by apply (Threads.step_stmt id f rest k jobs1 (Threads.mkState _ _ _));
          [apply lookup_insert_eq|].
      * simpl. rewrite insert_insert_eq. apply IH.
  - eapply rtc_l.
    + by apply (Threads.step_test id c yes no k (Threads.mkState _ _ _)),
        lookup_insert_eq.
    + simpl. rewrite insert_insert_eq. destruct (c jobs); [apply IHyes|apply IHno].
Qed.


Lemma all_outputs_nonempty files : all_outputs files → files ≠ ∅.
Proof. intros ([? Hl] & _) ->. by rewrite lookup_empty in Hl. Qed.

Lemma record_sound_error j : record_sound j → status j ≠ "failed" → error j = None.
Proof.
  intros [He _] Hst. destruct (error j) as [e|] eqn:Heq; [|done].
  exfalso. apply Hst, He. first [by rewrite Heq|eauto].
Qed.

Lemma record_sound_outputs j :
  record_sound j → status j ≠ "completed" → output_files j = None.
Proof.
  intros [_ Ho] Hst. destruct (output_files j) as [files|] eqn:Heq; [|done].
  by destruct (Ho files eq_refl).
Qed.

Lemma steps_sound s s' id j :
  state_ok s → rtc Threads.task_step s s' → Threads.t_jobs s' !! id = Some j →
  state_ok s' ∧ record_sound j.
Proof.
  intros Hok Hsteps Hj. pose proof (task_steps_ok _ _ Hok Hsteps) as Hok'.
  split; [done|]. by destruct (state_ok_record _ _ _ Hok' Hj).
Qed.

Lemma steps_terminal s s' id j j' :
  state_ok s → rtc Threads.task_step s s' →
  Threads.t_jobs s !! id = Some j → Threads.t_jobs s' !! id = Some j' →
  terminal (status j) → status j' = status j.
Proof.
  intros Hok Hsteps Hj Hj' Ht.
  destruct (task_steps_record _ _ _ _ Hok Hsteps Hj) as (j2 & Hj2 & _ & Hterm & _).
  simplify_eq. by apply Hterm.
Qed.


(** The first statement of a block, taken by a task that was between two
    blocks. *)
Lemma first_statement cs id f k upd rest j :
  Main.s_tasks cs !! id = Some (Locked f k) →
  Threads.block_of f (Threads.stmt (setitem id upd) rest) →
  Main.s_jobs cs !! id = Some j →
  rtc Threads.task_step (between_blocks cs)
    (Threads.mkState (<[id := upd j]> (Main.s_jobs cs))
       (<[id := Threads.Inside rest k]> (Threads.Running <$> Main.s_tasks cs))
       (Some id)).
Proof.
  intros Ht Hb Hj. eapply rtc_l.
  { eapply (Threads.step_acquire id f k); [|done|exact Hb].
    simpl. by rewrite lookup_fmap, Ht. }
  eapply rtc_l.
  { eapply (Threads.step_stmt id (setitem id upd) rest k);
      [apply lookup_insert_eq|simpl; unfold setitem; by rewrite Hj]. }
  simpl. rewrite insert_insert_eq. apply rtc_refl.
Qed.

(** A task whose next critical section ends its job can be interrupted
    after the statement that stores the status. *)
Lemma final_block_interrupted r cs id j j' :
  state_ok (between_blocks cs) →
  Main.s_jobs cs !! id = Some j → status j = "processing" →
  Main.s_jobs (Sample.fire id r cs) !! id = Some j' → terminal (status j') →
  ∃ s', rtc Threads.task_step (between_blocks cs) s'
        ∧ Threads.t_jobs s' !! id = Some (set_status (status j') j).
Proof.
  intros Hok Hj Hst Hj' Hterm. unfold Sample.fire in Hj'.
  assert (¬ terminal (status j)) as Hnot
    by (rewrite Hst; intros [?|?]; discriminate).
  destruct (Main.s_tasks cs !! id) as [[a|e|c k|f k]|] eqn:Ht;
    try (simpl in Hj'; rewrite Hj in Hj'; injection Hj' as <-; done).
  assert (Threads.t_tasks (between_blocks cs) !! id
          = Some (Threads.Running (Locked f k))) as Ht'
    by (simpl; by rewrite lookup_fmap, Ht).
  destruct (state_ok_task _ _ _ Hok Ht') as (j0 & Hj0 & _ & _ & Htask & ([b Hb] & _) & _).
  simpl in Hj0. rewrite Hj in Hj0. injection Hj0 as <-.
  destruct (f (Main.s_jobs cs)) as [jobs' e] eqn:Hf. simpl in Hj'.
  rewrite <- (insert_id _ _ _ Hj) in Hf.
  destruct (block_of_own _ _ _ _ _ Htask Hb)
    as [(step & data & -> & ->)|[(-> & ->)|[(result & -> & ->)|(e' & -> & ->)]]].
  - rewrite update_job_status_insert in Hf. injection Hf as <- <-.
    rewrite lookup_insert_eq in Hj'. injection Hj' as <-. done.
  - rewrite setitem_insert in Hf. injection Hf as <- <-.
    rewrite lookup_insert_eq in Hj'. injection Hj' as <-.
    destruct Hterm; discriminate.
  - unfold Main.final_status in Hf. unfold Threads.final_status in Hb.
    destruct (r_success result).
    + rewrite !then_setitem_insert in Hf.
      assert (status j' = "completed") as ->.
      { destruct (r_output_files result);
          [rewrite setitem_insert in Hf|]; injection Hf as <- <-;
          rewrite lookup_insert_eq in Hj'; by injection Hj' as <-. }
      eexists. split; [by eapply first_statement|]. apply lookup_insert_eq.
    + rewrite then_setitem_insert, setitem_insert in Hf. injection Hf as <- <-.
      rewrite lookup_insert_eq in Hj'. injection Hj' as <-.
      eexists. split; [by eapply first_statement|]. apply lookup_insert_eq.
  - rewrite then_setitem_insert, setitem_insert in Hf. injection Hf as <- <-.
    rewrite lookup_insert_eq in Hj'. injection Hj' as <-.
    eexists. split; [by eapply first_statement|]. apply lookup_insert_eq.
Qed.


(** A status query that finds the record and reads all its fields in the
    later state [s']. *)
Lemma status_query_late s s' id j :
  Threads.t_holder s = None → is_Some (Threads.t_jobs s !! id) →
  rtc Threads.task_step s s' → Threads.t_jobs s' !! id = Some j →
  ∃ r, Threads.serves (Threads.get_status id) id s (Main.Returns r)
       ∧ Main.js_status r = status j
       ∧ Main.js_output_files r = output_files j
       ∧ Main.js_error r = error j.
Proof.
  intros Hfree [j0 Hj0] Hsteps Hj. eexists. split.
  - split; [done|]. rewrite Hj0. simpl.
    exists s', j. split; [done|]. split; [done|].
    do 4 (exists s', j; split; [apply rtc_refl|]; split; [done|]). reflexivity.
  - done.
Qed.



Lemma status_is_Some (jobs : gmap string Job) id st :
  status <$> (jobs !! id) = Some st → ∃ j, jobs !! id = Some j ∧ status j = st.
Proof. destruct (jobs !! id) as [j|]; [|done]. intros [= <-]. eauto. Qed.


(** A request that no statement of a task falls into is answered the way
    the handlers of [Main] answer on the registry of that moment. *)
Lemma get_status_undisturbed s id :
  Threads.t_holder s = None →
  Threads.serves (Threads.get_status id) id s (Main.get_status id (Threads.t_jobs s)).
Proof.
  intros Hfree. split; [done|]. unfold Main.get_status.
  destruct (Threads.t_jobs s !! id) as [j|] eqn:Hj; [|done]. simpl.
  do 5 (exists s, j; split; [apply rtc_refl|]; split; [done|]). reflexivity.
Qed.

Lemma fetch_output_undisturbed key missing media prefix ext s id fs :
  Threads.t_holder s = None →
  Threads.serves (Threads.fetch_output key missing media prefix ext id fs) id s
    (Main.fetch_output key missing media prefix ext id (Threads.t_jobs s) fs).
Proof.
  intros Hfree. split; [done|]. unfold Main.fetch_output.
  destruct (Threads.t_jobs s !! id) as [j|] eqn:Hj; [|done]. simpl.
  exists s, j. split; [apply rtc_refl|]. split; [done|].
  destruct (negb (bool_decide (status j = "completed"))).
  - simpl. exists s, j. split; [apply rtc_refl|]. by split.
  - simpl. exists s, j. split; [apply rtc_refl|]. by split.
Qed.

Section threads.
Variable MAX_UPLOAD_SIZE_MB : Z.
Variable pl : Pipeline.AvatarPipeline.
Variable sanitize_filename suffix_lower : string → string.
Variable fmt_mb : Z → string.

Abbreviation upload_photo :=
  (Main.upload_photo MAX_UPLOAD_SIZE_MB pl sanitize_filename suffix_lower fmt_mb).
Abbreviation step :=
  (Main.step MAX_UPLOAD_SIZE_MB pl sanitize_filename suffix_lower fmt_mb).
Abbreviation reachable :=
  (Main.reachable MAX_UPLOAD_SIZE_MB pl sanitize_filename suffix_lower fmt_mb).
Abbreviation tstep :=
  (Threads.step MAX_UPLOAD_SIZE_MB pl sanitize_filename suffix_lower fmt_mb).
Abbreviation treachable :=
  (Threads.reachable MAX_UPLOAD_SIZE_MB pl sanitize_filename suffix_lower fmt_mb).

Lemma step_state_ok s s' : state_ok s → tstep s s' → state_ok s'.
Proof.
  intros Hok Hstep.
  destruct Hstep as [s0 s1 Hstep|id file we fs reply fs' server' s0 Hfree Hfresh Hup];
    [eapply task_step_ok; eassumption|].
  destruct Hok as [Hok Hin].
  apply upload_photo_cases in Hup as [->|(path & name & ->)]; simpl.
  - rewrite fmap_empty, (left_id_L ∅ (∪)). split; [done|].
    intros id' b k H'. apply Hin in H'. congruence.
  - rewrite fmap_insert, fmap_empty, insert_empty, <- insert_union_singleton_l.
    split.
    + intros id'. simpl. destruct (decide (id' = id)) as [->|Hne].
      * rewrite !lookup_insert_eq.
        split; [apply record_ok_sound, pending_record_ok|].
        eexists. split; [done|]. apply pending_running_ok.
      * rewrite !lookup_insert_ne by done. apply Hok.
    + intros id' b k H'. simpl in *.
      destruct (decide (id' = id)) as [->|Hne].
      * by rewrite lookup_insert_eq in H'.
      * rewrite lookup_insert_ne in H' by done. apply Hin in H'. congruence.
Qed.

Lemma initial_state_ok : state_ok Threads.initial.
Proof. split; [intros id|intros id b k]; simpl; by rewrite ?lookup_empty. Qed.

Lemma reachable_state_ok s : treachable s → state_ok s.
Proof.
  unfold Threads.reachable. revert s.
  apply rtc_ind_r; [apply initial_state_ok|].
  intros s s' _ Hstep Hok. eapply step_state_ok; eassumption.
Qed.


Lemma upload_photo_any_server job_id file we fs s s0 reply fs' s' :
  upload_photo job_id file we fs s = (reply, fs', s') →
  (s' = s ∧ upload_photo job_id file we fs s0 = (reply, fs', s0))
  ∨ ∃ path name,
      let record := mkJob job_id "pending" path name None None None None None in
      let task := Main.process_avatar_background pl job_id path in
      s' = Main.mkServer (<[job_id := record]> (Main.s_jobs s))
                         (<[job_id := task]> (Main.s_tasks s))
      ∧ upload_photo job_id file we fs s0
        = (reply, fs', Main.mkServer (<[job_id := record]> (Main.s_jobs s0))
                                     (<[job_id := task]> (Main.s_tasks s0))).
Proof.
  unfold Main.upload_photo. intros H.
  repeat case_match; simplify_eq; eauto 10.
Qed.

Lemma step_between_blocks s s' :
  treachable (between_blocks s) → step s s' → treachable (between_blocks s').
Proof.
  intros Hs Hstep. pose proof (reachable_state_ok _ Hs) as Hok.
  unfold Threads.reachable. etrans; [exact Hs|]. clear Hs.
  destruct Hstep as
    [job_id file we fs reply fs' s s' Hfresh Hup
    |job_id c k r s Htask
    |job_id f k jobs' r s Htask Hf].
  - apply (upload_photo_any_server _ _ _ _ _ (Main.mkServer (Main.s_jobs s) ∅))
      in Hup as [[-> Hup]|(path & name & -> & Hup)].
    + apply rtc_once.
      replace (between_blocks s) with
        (Threads.mkState (Main.s_jobs (Main.mkServer (Main.s_jobs s) ∅))
           ((Threads.Running <$> Main.s_tasks (Main.mkServer (Main.s_jobs s) ∅))
            ∪ Threads.t_tasks (between_blocks s)) None) at 2.
      * by eapply Threads.step_upload; [| |exact Hup].
      * unfold between_blocks. simpl. by rewrite fmap_empty, (left_id_L ∅ (∪)).
    + apply rtc_once.
      match goal with
      | Hup : _ = (_, _, ?server') |- _ =>
          replace (between_blocks (Main.mkServer _ _)) with
            (Threads.mkState (Main.s_jobs server')
               ((Threads.Running <$> Main.s_tasks server')
                ∪ Threads.t_tasks (between_blocks s)) None)
      end.
      * by eapply Threads.step_upload; [| |exact Hup].
      * unfold between_blocks. simpl.
        by rewrite !fmap_insert, fmap_empty, insert_empty,
          <- insert_union_singleton_l.
  - apply rtc_once, Threads.step_task.
    unfold between_blocks. simpl. rewrite fmap_insert.
    apply (Threads.step_call job_id c k r (Threads.mkState _ _ _)). simpl.
    by rewrite lookup_fmap, Htask.
  - assert (Threads.t_tasks (between_blocks s) !! job_id
            = Some (Threads.Running (Locked f k))) as Ht
      by (simpl; by rewrite lookup_fmap, Htask).
    destruct (state_ok_task _ _ _ Hok Ht) as (j & Hj & _ & _ & _ & ([b Hb] & _) & _).
    apply (rtc_subrel Threads.task_step); [by constructor|].
    eapply rtc_l.
    { by apply (Threads.step_acquire job_id f k b). }
    unfold between_blocks. simpl. rewrite fmap_insert.
    pose proof (run_block b k job_id (Main.s_jobs s)
                  (Threads.Running <$> Main.s_tasks s)) as Hrun.
    by rewrite (block_of_denote f b _ Hb), Hf in Hrun.
Qed.

(** Every state the server of [Main] reaches, with its tasks seen between
    their blocks, is a state the statement-level server reaches. *)
Lemma reachable_between_blocks s : reachable s → treachable (between_blocks s).
Proof.
  unfold Main.reachable. revert s. apply rtc_ind_r.
  - unfold between_blocks, Main.initial. simpl. rewrite fmap_empty. apply rtc_refl.
  - intros s s' _ Hstep Hs. by eapply step_between_blocks.
Qed.


(** C2: in every state the statement-level server reaches, a completed
    record has no error and a failed record has no outputs map; an error is
    stored only in a failed record and an outputs map, which then holds all
    three references, only in a completed one, so never both.  Whenever the
    task of the job is not inside one of its blocks, a completed record has
    its non-empty outputs map and a failed record has its error.  A status
    query that reports completed reports no error, one that reports failed
    reports no outputs map, and a query that no statement falls into
    reports the status, the outputs map and the error of the record. *)
Theorem record_outputs_xor_error_between_blocks s id j :
  treachable s → Threads.t_jobs s !! id = Some j →
  (status j = "completed" →
     error j = None
     ∧ (Threads.t_holder s ≠ Some id →
          ∃ files, output_files j = Some files ∧ files ≠ ∅ ∧ all_outputs files))
  ∧ (status j = "failed" →
       output_files j = None
       ∧ (Threads.t_holder s ≠ Some id → is_Some (error j)))
  ∧ (status j ≠ "failed" → error j = None)
  ∧ (∀ files, output_files j = Some files →
       status j = "completed" ∧ files ≠ ∅ ∧ all_outputs files)
  ∧ (∀ r, Threads.serves (Threads.get_status id) id s (Main.Returns r) →
       (Main.js_status r = "completed" → Main.js_error r = None)
       ∧ (Main.js_status r = "failed" → Main.js_output_files r = None)
       ∧ (∀ files, Main.js_output_files r = Some files →
            files ≠ ∅ ∧ all_outputs files))
  ∧ (Threads.t_holder s = None →
       ∃ r, Threads.serves (Threads.get_status id) id s (Main.Returns r)
            ∧ Main.js_status r = status j
            ∧ Main.js_output_files r = output_files j
            ∧ Main.js_error r = error j).
Proof.
  intros Hok%reachable_state_ok Hj.
  destruct (state_ok_record _ _ _ Hok Hj) as (Hs & _).
  split; [|split; [|split; [|split; [|split]]]].
  - intros Hst. split; [apply record_sound_error; [done|by rewrite Hst]|].
    intros Hfree. destruct (settled _ _ _ Hok Hj Hfree) as [[H|[H|[H|H]]] _];
      destruct H as (Hst' & H); rewrite Hst in Hst'; try discriminate.
    destruct H as (_ & files & Hf & Hall). exists files.
    split; [done|]. split; [by apply all_outputs_nonempty|done].
  - intros Hst. split; [apply record_sound_outputs; [done|by rewrite Hst]|].
    intros Hfree. destruct (settled _ _ _ Hok Hj Hfree) as [[H|[H|[H|H]]] _];
      destruct H as (Hst' & H); rewrite Hst in Hst'; try discriminate.
    tauto.
  - by apply record_sound_error.
  - intros files Hf. destruct Hs as [_ Ho]. destruct (Ho files Hf) as [? Hall].
    split; [done|]. split; [by apply all_outputs_nonempty|done].
  - intros r [Hfree Hserve]. rewrite Hj in Hserve. simpl in Hserve.
    destruct Hserve as (s1 & j1 & H1 & Hj1 & s2 & j2 & H2 & Hj2 & s3 & j3 & H3 & Hj3
                        & s4 & j4 & H4 & Hj4 & s5 & j5 & H5 & Hj5 & [= ->]).
    simpl.
    destruct (steps_sound _ _ _ _ Hok H1 Hj1) as [Hok1 _].
    destruct (steps_sound _ _ _ _ Hok1 H2 Hj2) as [Hok2 _].
    destruct (steps_sound _ _ _ _ Hok2 H3 Hj3) as [Hok3 _].
    destruct (steps_sound _ _ _ _ Hok3 H4 Hj4) as [Hok4 Hs4].
    destruct (steps_sound _ _ _ _ Hok4 H5 Hj5) as [Hok5 Hs5].
    assert (rtc Threads.task_step s1 s4) as H14 by (do 2 (etrans; [eassumption|]); done).
    assert (rtc Threads.task_step s1 s5) as H15 by (etrans; eassumption).
    split; [|split].
    + intros Hst. apply record_sound_error; [done|].
      rewrite (steps_terminal _ _ _ _ _ Hok1 H15 Hj1 Hj5), Hst; [done|].
      left; done.
    + intros Hst. apply record_sound_outputs; [done|].
      rewrite (steps_terminal _ _ _ _ _ Hok1 H14 Hj1 Hj4), Hst; [done|].
      right; done.
    + intros files Hf. destruct Hs4 as [_ Ho]. destruct (Ho files Hf) as [? Hall].
      split; [by apply all_outputs_nonempty|done].
  - intros Hfree. eexists. split.
    + split; [done|]. rewrite Hj. simpl.
      do 5 (exists s, j; split; [apply rtc_refl|]; split; [done|]). reflexivity.
    + done.
Qed.



End threads.

Lemma run_locked {A} oracle f (k : option Exc → Prog A) w jobs1 r :
  f (jobs w) = (jobs1, r) →
  run oracle (Locked f k) w = run oracle (k r) (mkWorld jobs1 (calls w)).
Proof. intros Hf. simpl. by rewrite Hf. Qed.

Lemma run_call {A} oracle c (k : Exc + StageOutcome → Prog A) w r :
  oracle c = r →
  run oracle (Call c k) w = run oracle (k r) (mkWorld (jobs w) (calls w ++ [c])).
Proof. by intros <-. Qed.

#[local] Arguments run : simpl never.

Ltac run_step :=
  simpl;
  lazymatch goal with
  | |- context [run _ (Locked _ _) _] =>
      erewrite run_locked by (simpl; critical)
  | |- context [run ?oracle (Call ?c _) _] =>
      erewrite (run_call oracle c) by eassumption
  | |- context [negb (success ?o)] =>
      lazymatch goal with H : success o = _ |- _ => rewrite H end
  end.

(** ** Bounded polling *)

Lemma concat_replicate_snoc {A} (x : list A) k :
  (concat (replicate k x) ++ x)%list = concat (replicate (S k) x).
Proof.
  induction k as [|k IH]; simpl.
  - by rewrite app_nil_r.
  - simpl in IH. by rewrite <- app_assoc, IH.
Qed.

Lemma paced_rounds seconds k :
  ThreeDGenerator.paced seconds
    (concat (replicate k [ThreeDGenerator.ev_check;
                          ThreeDGenerator.ev_sleep seconds])) = true.
Proof.
  induction k as [|k IH]; [done|]. simpl.
  rewrite bool_decide_eq_true_2 by done. exact IH.
Qed.

Lemma paced_rounds_check seconds k :
  ThreeDGenerator.paced seconds
    (concat (replicate k [ThreeDGenerator.ev_check;
                          ThreeDGenerator.ev_sleep seconds])
     ++ [ThreeDGenerator.ev_check])%list = true.
Proof.
  induction k as [|k IH]; [done|]. simpl.
  rewrite bool_decide_eq_true_2 by done. exact IH.
Qed.

Section polling.
Variable tps : Z.
Variable resp : nat → ThreeDGenerator.StatusResult.
Variable cost extra : nat → Z.
Variable timeout interval t0 : Z.
Hypothesis tps_pos : 0 < tps.
Hypothesis cost_nonneg : ∀ k, 0 ≤ cost k.
Hypothesis extra_nonneg : ∀ k, 0 ≤ extra k.
Hypothesis interval_pos : 0 < interval.

Abbreviation clock := (ThreeDGenerator.clock_at tps cost extra interval t0).
Abbreviation at_top := (world_at tps cost extra interval t0).
Abbreviation poll :=
  (λ fuel, ThreeDGenerator.poll tps resp cost extra fuel timeout interval t0).

Lemma clock_step k : clock k + interval * tps ≤ clock (S k).
Proof. simpl. pose proof (cost_nonneg k). pose proof (extra_nonneg k). lia. Qed.

Lemma clock_lower k : t0 + Z.of_nat k * (interval * tps) ≤ clock k.
Proof.
  induction k as [|k IH]; [simpl; lia|].
  pose proof (clock_step k). lia.
Qed.

Lemma clock_mono k n : (k ≤ n)%nat → clock k ≤ clock n.
Proof.
  induction 1 as [|n Hle IH]; [lia|].
  pose proof (clock_step n). nia.
Qed.

(** One iteration that finds the task neither succeeded nor failed. *)
Lemma poll_pending fuel k :
  ThreeDGenerator.still_pending (resp k) →
  clock k - t0 ≤ timeout * tps →
  poll (S fuel) (at_top k) = poll fuel (at_top (S k)).
Proof.
  intros [Hs Hf] Hclock. simpl.
  destruct (timeout * tps <? clock k - t0) eqn:Hlt; [lia|].
  rewrite !bool_decide_eq_false_2 by done.
  assert (ThreeDGenerator.sleep tps extra k interval
            (ThreeDGenerator._check_status resp cost (at_top k)).2
          = at_top (S k)) as Hnext.
  { unfold ThreeDGenerator.sleep, ThreeDGenerator._check_status, world_at.
    cbn [snd ThreeDGenerator.now ThreeDGenerator.checks ThreeDGenerator.log].
    f_equal. rewrite <- app_assoc. apply (concat_replicate_snoc _ k). }
  simpl in Hnext. rewrite Hnext. by case_bool_decide.
Qed.

Lemma poll_pending_rounds n fuel :
  (∀ k, (k < n)%nat → ThreeDGenerator.still_pending (resp k)) →
  (∀ k, (k < n)%nat → clock k - t0 ≤ timeout * tps) →
  poll (n + fuel)%nat (at_top 0%nat) = poll fuel (at_top n).
Proof.
  intros Hpend Hclock. revert fuel. induction n as [|n IH]; intros fuel; [done|].
  replace (S n + fuel)%nat with (n + S fuel)%nat by lia.
  rewrite IH; [|intros; apply Hpend; lia|intros; apply Hclock; lia].
  apply poll_pending; [apply Hpend|apply Hclock]; lia.
Qed.

Lemma poll_succeeded fuel k :
  ThreeDGenerator.sr_status (resp k) = "SUCCEEDED" →
  clock k - t0 ≤ timeout * tps →
  poll (S fuel) (at_top k)
  = Some (ThreeDGenerator.Succeeded (resp k),
          (ThreeDGenerator._check_status resp cost (at_top k)).2).
Proof.
  intros Hs Hclock. simpl.
  destruct (timeout * tps <? clock k - t0) eqn:Hlt; [lia|].
  by rewrite bool_decide_eq_true_2.
Qed.

Lemma poll_timed_out fuel k :
  timeout * tps < clock k - t0 →
  poll (S fuel) (at_top k) = Some (ThreeDGenerator.TimedOut, at_top k).
Proof.
  intros Hclock. simpl.
  by destruct (timeout * tps <? clock k - t0) eqn:Hlt; [|lia].
Qed.

(** With enough fuel a loop over a task that never ends stops at the first
    iteration whose clock reading is past the deadline. *)
Lemma poll_never_terminal fuel k :
  (∀ i, ThreeDGenerator.still_pending (resp i)) →
  timeout * tps < clock k - t0 + Z.of_nat fuel * (interval * tps) →
  ∃ K, (k ≤ K)%nat
       ∧ poll (S fuel) (at_top k) = Some (ThreeDGenerator.TimedOut, at_top K)
       ∧ timeout * tps < clock K - t0
       ∧ (∀ i, (k ≤ i < K)%nat → clock i - t0 ≤ timeout * tps).
Proof.
  intros Hpend. revert k. induction fuel as [|fuel IH]; intros k Hfuel.
  - exists k. split; [lia|]. split; [apply poll_timed_out; lia|].
    split; [lia|]. intros; lia.
  - destruct (Z_lt_le_dec (timeout * tps) (clock k - t0)) as [Hout|Hin].
    + exists k. split; [lia|]. split; [by apply poll_timed_out|].
      split; [done|]. intros; lia.
    + destruct (IH (S k)) as (K & HK & Hrun & Hpast & Hbefore).
      { pose proof (clock_step k). lia. }
      exists K. split; [lia|]. split; [by rewrite poll_pending|].
      split; [done|]. intros i Hi.
      destruct (decide (i = k)) as [->|]; [done|]. apply Hbefore. lia.
Qed.

(** C5: for a positive timeout and a positive interval, on a clock that
    never runs backwards and with sleeps that last at least as long as
    asked.  If the remote task answers N checks with a status that is
    neither success nor failure and then succeeds, and the (N+1)-th check
    starts within the timeout, the loop makes exactly N+1 checks and leaves
    with the answer of the last one, from which [generate_3d_model] builds
    its successful result when the download goes through.  If the task
    never reaches a final status, the loop leaves by its time-out test,
    with the elapsed time past the timeout, after at most
    timeout / interval + 1 checks, and [generate_3d_model] reports a
    failure.  In both cases every check but the last is followed by a sleep
    of the interval. *)
Theorem bounded_polling_wait task_id download image_path out_path :
  0 < timeout →
  let start := ThreeDGenerator.mkWorld t0 0 [] in
  let generate fuel :=
    ThreeDGenerator.generate_3d_model tps None (inr task_id) resp cost extra
      download fuel image_path out_path timeout interval start in
  (∀ N, (∀ k, (k < N)%nat → ThreeDGenerator.still_pending (resp k)) →
        ThreeDGenerator.sr_status (resp N) = "SUCCEEDED" →
        clock N - t0 ≤ timeout * tps →
        ∀ fuel, (N < fuel)%nat →
          ∃ w', poll fuel start = Some (ThreeDGenerator.Succeeded (resp N), w')
                ∧ ThreeDGenerator.checks w' = S N
                ∧ ThreeDGenerator.paced interval (ThreeDGenerator.log w') = true
                ∧ (download (ThreeDGenerator.sr_model_url (resp N)) = None →
                   ∃ m, generate fuel = Some (m, w')
                        ∧ ThreeDGenerator.m_success m = true
                        ∧ ThreeDGenerator.m_output_path m = Some out_path
                        ∧ ThreeDGenerator.m_model_url m
                          = ThreeDGenerator.sr_model_url (resp N)))
  ∧ ((∀ k, ThreeDGenerator.still_pending (resp k)) →
     ∀ fuel, timeout / interval + 1 < Z.of_nat fuel →
       ∃ w', poll fuel start = Some (ThreeDGenerator.TimedOut, w')
             ∧ timeout * tps < ThreeDGenerator.now w' - t0
             ∧ Z.of_nat (ThreeDGenerator.checks w') ≤ timeout / interval + 1
             ∧ ThreeDGenerator.paced interval (ThreeDGenerator.log w') = true
             ∧ ∃ m, generate fuel = Some (m, w')
                    ∧ ThreeDGenerator.m_success m = false).
Proof.
  intros timeout_pos start generate. split.
  - intros N Hpend Hdone Hclock fuel Hfuel.
    assert (poll fuel start
            = Some (ThreeDGenerator.Succeeded (resp N),
                    (ThreeDGenerator._check_status resp cost (at_top N)).2))
      as Hpoll.
    { replace fuel with (N + S (fuel - S N))%nat by lia.
      change start with (at_top 0%nat). rewrite poll_pending_rounds.
      - by apply poll_succeeded.
      - done.
      - intros k Hk. assert (clock k ≤ clock N) by (apply clock_mono; lia). lia. }
    eexists. split; [exact Hpoll|]. split; [done|].
    split; [apply paced_rounds_check|].
    intros Hdl. subst generate. unfold ThreeDGenerator.generate_3d_model.
    change (ThreeDGenerator.now start) with t0.
    cbv beta in Hpoll. rewrite Hpoll, Hdl. eauto.
  - intros Hpend fuel Hfuel.
    destruct fuel as [|fuel].
    { pose proof (Z.div_pos timeout interval). lia. }
    destruct (poll_never_terminal fuel 0 Hpend)
      as (K & _ & Hpoll & Hpast & Hbefore).
    { simpl. pose proof (Z.mul_succ_div_gt timeout interval interval_pos) as Hq.
      assert (interval * Z.succ (timeout / interval) ≤ interval * Z.of_nat fuel)
        as Hle by (apply Z.mul_le_mono_nonneg_l; lia).
      assert (timeout * tps < Z.of_nat fuel * interval * tps)
        by (apply Z.mul_lt_mono_pos_r; lia).
      lia. }
    exists (at_top K). split; [exact Hpoll|]. split; [done|].
    split; [|split; [apply paced_rounds|]].
    + simpl. destruct K as [|K]; [pose proof (Z.div_pos timeout interval); lia|].
      assert (Z.of_nat K ≤ timeout / interval); [|lia].
      apply Z.div_le_lower_bound; [done|].
      pose proof (clock_lower K). pose proof (Hbefore K). nia.
    + subst generate. unfold ThreeDGenerator.generate_3d_model.
      change (ThreeDGenerator.now start) with t0.
      change start with (at_top 0%nat). cbv beta in Hpoll. rewrite Hpoll. eauto.
Qed.

End polling.

(** ** Face check *)

Lemma Qltb_lt x y : FaceDetector.Qltb x y = true ↔ (x < y)%Q.
Proof.
  unfold FaceDetector.Qltb. rewrite Qlt_alt.
  destruct (x ?= y)%Q; split; congruence.
Qed.

Lemma Qltb_false_iff x y : FaceDetector.Qltb x y = false ↔ ¬ (x < y)%Q.
Proof. rewrite <- Qltb_lt. by destruct (FaceDetector.Qltb x y). Qed.

Lemma foldr_min_le x l : Forall (λ y, foldr Z.min x l ≤ y) (x :: l).
Proof.
  induction l as [|a l IH]; simpl.
  - apply Forall_cons_2; [lia|apply Forall_nil_2].
  - apply Forall_cons in IH as [Hx Hl].
    apply Forall_cons_2; [lia|]. apply Forall_cons_2; [lia|].
    eapply Forall_impl; [exact Hl|]. simpl. intros; lia.
Qed.

Lemma foldr_max_ge x l : Forall (λ y, y ≤ foldr Z.max x l) (x :: l).
Proof.
  induction l as [|a l IH]; simpl.
  - apply Forall_cons_2; [lia|apply Forall_nil_2].
  - apply Forall_cons in IH as [Hx Hl].
    apply Forall_cons_2; [lia|]. apply Forall_cons_2; [lia|].
    eapply Forall_impl; [exact Hl|]. simpl. intros; lia.
Qed.

Lemma py_min_spec l m : FaceDetector.py_min l = inr m → Forall (λ y, m ≤ y) l.
Proof. destruct l; [done|]. intros [= <-]. apply foldr_min_le. Qed.

Lemma py_max_spec l m : FaceDetector.py_max l = inr m → Forall (λ y, y ≤ m) l.
Proof. destruct l; [done|]. intros [= <-]. apply foldr_max_ge. Qed.

(** The run of a program only ever appends to the log of invocations. *)
Lemma run_calls_extend {A} oracle (p : Prog A) w :
  ∃ l, calls (run oracle p w).2 = (calls w ++ l)%list.
Proof.
  revert w. induction p as [a|e|c k IH|f k IH]; intros w.
  - exists []. by rewrite app_nil_r.
  - exists []. by rewrite app_nil_r.
  - unfold run; fold (@run A).
    destruct (IH (oracle c) (mkWorld (jobs w) (calls w ++ [c]))) as [l Hl].
    exists (c :: l). rewrite Hl. simpl. by rewrite <- app_assoc.
  - unfold run; fold (@run A). destruct (f (jobs w)) as [jobs1 r].
    destruct (IH r (mkWorld jobs1 (calls w))) as [l Hl]. by exists l.
Qed.

Lemma detect_face_no_face image_path height width faces :
  no_face faces →
  FaceDetector.detect_face image_path (Some (height, width)) faces
  = inr (FaceDetector.mkFace false false 0 None None None None
           "No face detected in image. Please use a clear front-facing portrait.").
Proof. by intros [->| ->]. Qed.

Lemma elem_of_skip {A} (x y z : A) l : z ∈ x :: l → z ∈ x :: y :: l.
Proof.
  intros [->|H]%elem_of_cons; apply elem_of_cons; [by left|right].
  apply elem_of_cons. by right.
Qed.

Lemma foldr_min_in x l : foldr Z.min x l ∈ x :: l.
Proof.
  induction l as [|y l IH]; simpl; [apply elem_of_cons; by left|].
  destruct (Z.min_spec y (foldr Z.min x l)) as [[_ ->]|[_ ->]].
  - apply elem_of_cons. right. apply elem_of_cons. by left.
  - by apply elem_of_skip.
Qed.

Lemma foldr_max_in x l : foldr Z.max x l ∈ x :: l.
Proof.
  induction l as [|y l IH]; simpl; [apply elem_of_cons; by left|].
  destruct (Z.max_spec y (foldr Z.max x l)) as [[_ ->]|[_ ->]].
  - by apply elem_of_skip.
  - apply elem_of_cons. right. apply elem_of_cons. by left.
Qed.

Lemma py_min_in l m : FaceDetector.py_min l = inr m → m ∈ l.
Proof. destruct l; [done|]. intros [= <-]. apply foldr_min_in. Qed.

Lemma py_max_in l m : FaceDetector.py_max l = inr m → m ∈ l.
Proof. destruct l; [done|]. intros [= <-]. apply foldr_max_in. Qed.

Lemma detect_face_first_face image_path height width lm face rest :
  width * height ≠ 0 →
  let px := pixel width height <$> lm :: face in
  ∃ bb,
    bounding_box_of bb px
    ∧ FaceDetector.detect_face image_path (Some (height, width))
        (Some ((lm :: face) :: rest))
      = inr (if FaceDetector.Qltb (area_ratio bb height width) (5 # 100) then
               FaceDetector.mkFace false true 1 (Some px) (Some bb) None None
                 "Face is too small in image. Please use a closer portrait photo."
             else if FaceDetector.Qltb (9 # 10) (area_ratio bb height width) then
               FaceDetector.mkFace false true 1 (Some px) (Some bb) None None
                 "Face is too close. Please use a photo with some space around the face."
             else
               FaceDetector.mkFace true true 1 (Some px) (Some bb)
                 (Some (area_ratio bb height width)) (Some (width, height))
                 "Face detected successfully!").
Proof.
  intros Hz px. unfold FaceDetector.detect_face.
  change ((λ lm0, (FaceDetector.int (FaceDetector.lm_x lm0 * inject_Z width),
                   FaceDetector.int (FaceDetector.lm_y lm0 * inject_Z height),
                   FaceDetector.lm_z lm0)) <$> lm :: face) with px.
  destruct (FaceDetector.py_min ((λ p, p.1.1) <$> px)) as [?|xmin] eqn:Hxmin; [done|].
  destruct (FaceDetector.py_min ((λ p, p.1.2) <$> px)) as [?|ymin] eqn:Hymin; [done|].
  destruct (FaceDetector.py_max ((λ p, p.1.1) <$> px)) as [?|xmax] eqn:Hxmax; [done|].
  destruct (FaceDetector.py_max ((λ p, p.1.2) <$> px)) as [?|ymax] eqn:Hymax; [done|].
  exists (FaceDetector.mkBox xmin ymin xmax ymax (xmax - xmin) (ymax - ymin)).
  split.
  - split; [|simpl].
    + split; [|done]. simpl.
      apply py_min_spec in Hxmin, Hymin. apply py_max_spec in Hxmax, Hymax.
      rewrite Forall_fmap in Hxmin, Hymin, Hxmax, Hymax.
      rewrite Forall_forall in Hxmin, Hymin, Hxmax, Hymax.
      apply Forall_forall. intros p Hp.
      specialize (Hxmin p Hp). specialize (Hymin p Hp).
      specialize (Hxmax p Hp). specialize (Hymax p Hp). simpl in *. lia.
    + apply py_min_in, list_elem_of_fmap in Hxmin as (p1 & -> & ?).
      apply py_min_in, list_elem_of_fmap in Hymin as (p2 & -> & ?).
      apply py_max_in, list_elem_of_fmap in Hxmax as (p3 & -> & ?).
      apply py_max_in, list_elem_of_fmap in Hymax as (p4 & -> & ?).
      simpl. split; [by exists p1|]. split; [by exists p3|].
      split; [by exists p2|by exists p4].
  - unfold FaceDetector.truediv. simpl FaceDetector.bb_width.
    simpl FaceDetector.bb_height.
    destruct (width * height =? 0) eqn:Hz'; [lia|].
    unfold area_ratio. simpl FaceDetector.bb_width. simpl FaceDetector.bb_height.
    by repeat case_match.
Qed.

(** The bounding box of a list of pixels is determined by the list. *)
Lemma bounding_box_of_area bb bb' px height width :
  bounding_box_of bb px → bounding_box_of bb' px →
  area_ratio bb height width = area_ratio bb' height width.
Proof.
  intros ((Hin & Hw & Hh) & (p1 & Hp1 & H1) & (p2 & Hp2 & H2)
          & (p3 & Hp3 & H3) & (p4 & Hp4 & H4))
         ((Hin' & Hw' & Hh') & (q1 & Hq1 & G1) & (q2 & Hq2 & G2)
          & (q3 & Hq3 & G3) & (q4 & Hq4 & G4)).
  rewrite Forall_forall in Hin, Hin'.
  pose proof (Hin q1 Hq1). pose proof (Hin q2 Hq2).
  pose proof (Hin q3 Hq3). pose proof (Hin q4 Hq4).
  pose proof (Hin' p1 Hp1). pose proof (Hin' p2 Hp2).
  pose proof (Hin' p3 Hp3). pose proof (Hin' p4 Hp4).
  unfold area_ratio. rewrite Hw, Hh, Hw', Hh'.
  replace (FaceDetector.x_min bb') with (FaceDetector.x_min bb) by lia.
  replace (FaceDetector.x_max bb') with (FaceDetector.x_max bb) by lia.
  replace (FaceDetector.y_min bb') with (FaceDetector.y_min bb) by lia.
  replace (FaceDetector.y_max bb') with (FaceDetector.y_max bb) by lia.
  reflexivity.
Qed.

Section run.
Variable pl : Pipeline.AvatarPipeline.

Ltac stage H n :=
  let o := fresh "o" in
  let Ho := fresh "Ho" in
  let Hs := fresh "Hs" in
  destruct (H n _ ltac:(lia) eq_refl) as (o & Ho & Hs).

Ltac stages H := try stage H 0%nat; try stage H 1%nat; try stage H 2%nat.

(** The run of the background task when the service of stage K+1 reports
    a failure. *)
Lemma run_stage_failure oracle id path jobs0 j K c o :
  jobs0 !! id = Some j →
  stage_calls pl id path !! K = Some c →
  succeeds_before oracle (stage_calls pl id path) K →
  oracle c = inr o → success o = false →
  ∃ w j',
    run oracle (Main.process_avatar_background pl id path) (mkWorld jobs0 [])
      = (inr tt, w)
    ∧ calls w = take (S K) (stage_calls pl id path)
    ∧ jobs w = <[id := j']> jobs0
    ∧ status j' = "failed"
    ∧ current_step j' = Some "failed"
    ∧ error j' = Some (message o).
Proof.
  intros Hj HK Hbefore Hc Ho.
  rewrite <- (insert_id _ _ _ Hj).
  unfold Main.process_avatar_background, Pipeline.process_avatar,
    Pipeline.process_avatar_body, Pipeline.update_status.
  destruct K as [|[|[|[|K]]]]; simpl in HK; simplify_eq; stages Hbefore;
    repeat run_step;
    (eexists _, _; split; [reflexivity|]; simpl; repeat split).
  all: try (by rewrite insert_insert_eq).
  all: reflexivity.
Qed.

(** The run of the background task when the service of stage K+1 raises. *)
Lemma run_stage_fault oracle id path jobs0 j K c e :
  jobs0 !! id = Some j →
  stage_calls pl id path !! K = Some c →
  succeeds_before oracle (stage_calls pl id path) K →
  oracle c = inl e →
  ∃ w j',
    run oracle (Main.process_avatar_background pl id path) (mkWorld jobs0 [])
      = (inr tt, w)
    ∧ calls w = take (S K) (stage_calls pl id path)
    ∧ jobs w = <[id := j']> jobs0
    ∧ status j' = "failed"
    ∧ current_step j' = Some "failed"
    ∧ error j' = Some ("Pipeline error: " +:+ e).
Proof.
  intros Hj HK Hbefore Hc.
  rewrite <- (insert_id _ _ _ Hj).
  unfold Main.process_avatar_background, Pipeline.process_avatar,
    Pipeline.process_avatar_body, Pipeline.update_status.
  destruct K as [|[|[|[|K]]]]; simpl in HK; simplify_eq; stages Hbefore;
    repeat run_step;
    (eexists _, _; split; [reflexivity|]; simpl; repeat split).
  all: try (by rewrite insert_insert_eq).
  all: done.
Qed.

Lemma take_stage_calls_stage id path K :
  Forall (λ c, (stage_of c ≤ S K)%nat) (take (S K) (stage_calls pl id path)).
Proof.
  destruct K as [|[|[|K]]]; simpl; rewrite ?take_nil;
    repeat (apply Forall_cons_2; [simpl; lia|]); apply Forall_nil_2.
Qed.

(** C1: if the services called before stage K+1 succeed and the service of
    stage K+1 returns success=false, the background task ends with the job
    recorded as failed, its error being the message of that outcome, and the
    services invoked are exactly the first K+1 of the fixed order: none of a
    later stage is called. *)
Theorem failing_stage_stops_the_run oracle id path jobs0 j K c o :
  jobs0 !! id = Some j →
  stage_calls pl id path !! K = Some c →
  succeeds_before oracle (stage_calls pl id path) K →
  oracle c = inr o → success o = false →
  ∃ w j',
    run oracle (Main.process_avatar_background pl id path) (mkWorld jobs0 [])
      = (inr tt, w)
    ∧ calls w = take (S K) (stage_calls pl id path)
    ∧ Forall (λ c', (stage_of c' ≤ S K)%nat) (calls w)
    ∧ jobs w = <[id := j']> jobs0
    ∧ status j' = "failed"
    ∧ error j' = Some (message o).
Proof.
  intros Hj HK Hbefore Hc Ho.
  destruct (run_stage_failure _ _ _ _ _ _ _ _ Hj HK Hbefore Hc Ho)
    as (w & j' & Hrun & Hcalls & Hjobs & Hst & _ & Herr).
  exists w, j'. repeat split; try done.
  rewrite Hcalls. apply take_stage_calls_stage.
Qed.

(** C3: if the service of stage K+1 raises an exception instead of
    returning an outcome, the exception is caught, the background task ends
    normally, and the job is recorded as failed (so not left processing)
    with the synthesized error "Pipeline error: " followed by the text of
    the exception. *)
Theorem adapter_fault_is_recorded oracle id path jobs0 j K c e :
  jobs0 !! id = Some j →
  stage_calls pl id path !! K = Some c →
  succeeds_before oracle (stage_calls pl id path) K →
  oracle c = inl e →
  ∃ w j',
    run oracle (Main.process_avatar_background pl id path) (mkWorld jobs0 [])
      = (inr tt, w)
    ∧ calls w = take (S K) (stage_calls pl id path)
    ∧ jobs w = <[id := j']> jobs0
    ∧ status j' = "failed"
    ∧ status j' ≠ "processing"
    ∧ error j' = Some ("Pipeline error: " +:+ e).
Proof.
  intros Hj HK Hbefore Hc.
  destruct (run_stage_fault _ _ _ _ _ _ _ _ Hj HK Hbefore Hc)
    as (w & j' & Hrun & Hcalls & Hjobs & Hst & _ & Herr).
  exists w, j'. repeat split; try done. by rewrite Hst.
Qed.

(** C10: when the background task fails, because the service of stage K+1
    returned success=false or because it raised, the record ends with
    status "failed" and current step "failed", and the status query
    reports progress 0. *)
Theorem failure_path_resets_progress oracle id path jobs0 j K c :
  jobs0 !! id = Some j →
  stage_calls pl id path !! K = Some c →
  succeeds_before oracle (stage_calls pl id path) K →
  (∃ o, oracle c = inr o ∧ success o = false) ∨ (∃ e, oracle c = inl e) →
  ∃ w j' r,
    run oracle (Main.process_avatar_background pl id path) (mkWorld jobs0 [])
      = (inr tt, w)
    ∧ jobs w !! id = Some j'
    ∧ status j' = "failed"
    ∧ current_step j' = Some "failed"
    ∧ Main.get_status id (jobs w) = Main.Returns r
    ∧ Main.js_status r = "failed"
    ∧ Main.js_current_step r = Some "failed"
    ∧ Main.js_progress r = 0.
Proof.
  intros Hj HK Hbefore Hfail.
  assert (∃ w j',
    run oracle (Main.process_avatar_background pl id path) (mkWorld jobs0 [])
      = (inr tt, w)
    ∧ jobs w = <[id := j']> jobs0
    ∧ status j' = "failed" ∧ current_step j' = Some "failed")
    as (w & j' & Hrun & Hjobs & Hst & Hcs).
  { destruct Hfail as [(o & Hc & Ho)|(e & Hc)].
    - destruct (run_stage_failure _ _ _ _ _ _ _ _ Hj HK Hbefore Hc Ho)
        as (w & j' & ? & _ & ? & ? & ? & _). by exists w, j'.
    - destruct (run_stage_fault _ _ _ _ _ _ _ _ Hj HK Hbefore Hc)
        as (w & j' & ? & _ & ? & ? & ? & _). by exists w, j'. }
  exists w, j'. eexists. split; [done|].
  unfold Main.get_status. rewrite Hjobs, lookup_insert_eq.
  repeat split; try done. simpl. by rewrite Hst, Hcs.
Qed.

(** C9: for a readable image (positive width and height) and a face mesh
    whose first face, if there is one, has landmarks, [detect_face] returns
    a result.  Without a face it is a failure with no box and no landmarks.
    With a face, the landmarks of the result are the pixel positions of the
    landmarks of the first face, its box is the bounding box of these
    pixels, and it is a failure exactly when that box covers less than 5%
    or more than 90% of the image area; a success carries the ratio and the
    image dimensions.  So the result is a failure exactly when there is no
    face or the bounding box of the first face is out of these bounds.  On
    success the orchestrator hands the very same input path to the
    cartoonizer. *)
Theorem face_check_outcome image_path height width faces :
  0 < width → 0 < height →
  (∀ face rest, faces = Some (face :: rest) → face ≠ []) →
  ∃ r,
    FaceDetector.detect_face image_path (Some (height, width)) faces = inr r
    ∧ (no_face faces →
         FaceDetector.f_success r = false ∧ FaceDetector.f_face_found r = false
         ∧ FaceDetector.f_landmarks r = None
         ∧ FaceDetector.f_bounding_box r = None)
    ∧ (∀ face rest, faces = Some (face :: rest) →
         ∃ bb,
           bounding_box_of bb (pixel width height <$> face)
           ∧ FaceDetector.f_bounding_box r = Some bb
           ∧ FaceDetector.f_landmarks r = Some (pixel width height <$> face)
           ∧ (FaceDetector.f_success r = false ↔
                (area_ratio bb height width < 5 # 100)%Q
                ∨ (9 # 10 < area_ratio bb height width)%Q)
           ∧ (FaceDetector.f_success r = true →
                FaceDetector.f_face_area_ratio r
                = Some (area_ratio bb height width)
                ∧ FaceDetector.f_image_dimensions r = Some (width, height)))
    ∧ (FaceDetector.f_success r = false ↔
         no_face faces
         ∨ ∃ face rest bb,
             faces = Some (face :: rest)
             ∧ bounding_box_of bb (pixel width height <$> face)
             ∧ ((area_ratio bb height width < 5 # 100)%Q
                ∨ (9 # 10 < area_ratio bb height width)%Q))
    ∧ (FaceDetector.f_success r = true →
         ∀ oracle id jobs0 j,
           jobs0 !! id = Some j →
           oracle (detect_face_call image_path) = inr (FaceDetector.outcome r) →
           calls (run oracle (Main.process_avatar_background pl id image_path)
                      (mkWorld jobs0 [])).2 !! 1%nat
           = Some (cartoonize_call image_path (Pipeline.cartoon_path pl id) "pixar")).
Proof.
  intros Hw Hh Hface.
  assert (∀ r, FaceDetector.f_success r = true →
         ∀ oracle id jobs0 j,
           jobs0 !! id = Some j →
           oracle (detect_face_call image_path) = inr (FaceDetector.outcome r) →
           calls (run oracle (Main.process_avatar_background pl id image_path)
                      (mkWorld jobs0 [])).2 !! 1%nat
           = Some (cartoonize_call image_path (Pipeline.cartoon_path pl id) "pixar"))
    as Hnext.
  { intros r Hr oracle id jobs0 j Hj Horacle.
    rewrite <- (insert_id _ _ _ Hj).
    unfold Main.process_avatar_background, Pipeline.process_avatar,
      Pipeline.process_avatar_body, Pipeline.update_status.
    do 3 run_step. simpl. rewrite Hr. do 2 run_step. simpl.
    rewrite (run_call _ _ _ _ _ eq_refl).
    match goal with |- context [run oracle ?p ?w] =>
      destruct (run_calls_extend oracle p w) as [l ->] end.
    reflexivity. }
  destruct faces as [[|[|lm face] rest]|].
  - eexists. split; [apply detect_face_no_face; by right|].
    split; [done|]. split; [done|].
    split; [|intros [=]]. split; [intros _; left; by right|done].
  - by destruct (Hface [] rest).
  - destruct (detect_face_first_face image_path height width lm face rest)
      as (bb & Hbox & ->); [lia|].
    assert (∀ b : bool,
              (b = false ↔
                 (area_ratio bb height width < 5 # 100)%Q
                 ∨ (9 # 10 < area_ratio bb height width)%Q) →
              (b = false ↔
                 no_face (Some ((lm :: face) :: rest))
                 ∨ ∃ face' rest' bb',
                     Some ((lm :: face) :: rest) = Some (face' :: rest')
                     ∧ bounding_box_of bb' (pixel width height <$> face')
                     ∧ ((area_ratio bb' height width < 5 # 100)%Q
                        ∨ (9 # 10 < area_ratio bb' height width)%Q))) as Hiff.
    { intros b Hb. rewrite Hb. split.
      - intros Hout. right. by exists (lm :: face), rest, bb.
      - intros [[[=]|[=]]|(face' & rest' & bb' & [= <- <-] & Hbox' & Hout)].
        by rewrite (bounding_box_of_area _ _ _ height width Hbox Hbox'). }
    eexists. split; [reflexivity|].
    destruct (FaceDetector.Qltb (area_ratio bb height width) (5 # 100)) eqn:Hsmall;
      [|destruct (FaceDetector.Qltb (9 # 10) (area_ratio bb height width)) eqn:Hbig].
    + apply Qltb_lt in Hsmall.
      assert (false = false ↔
                (area_ratio bb height width < 5 # 100)%Q
                ∨ (9 # 10 < area_ratio bb height width)%Q) as Hb
        by (split; [by left|done]).
      split; [intros [[=]|[=]]|]. split; [|split; [exact (Hiff _ Hb)|intros [=]]].
      intros face' rest' [= <- <-]. exists bb.
      split; [exact Hbox|]. split; [reflexivity|]. split; [reflexivity|].
      split; [exact Hb|]. simpl. first [by intros [=]|by intros _; split].
    + apply Qltb_lt in Hbig.
      assert (false = false ↔
                (area_ratio bb height width < 5 # 100)%Q
                ∨ (9 # 10 < area_ratio bb height width)%Q) as Hb
        by (split; [by right|done]).
      split; [intros [[=]|[=]]|]. split; [|split; [exact (Hiff _ Hb)|intros [=]]].
      intros face' rest' [= <- <-]. exists bb.
      split; [exact Hbox|]. split; [reflexivity|]. split; [reflexivity|].
      split; [exact Hb|]. simpl. first [by intros [=]|by intros _; split].
    + apply Qltb_false_iff in Hsmall, Hbig.
      assert (true = false ↔
                (area_ratio bb height width < 5 # 100)%Q
                ∨ (9 # 10 < area_ratio bb height width)%Q) as Hb
        by (split; [done|intros [?|?]; done]).
      split; [intros [[=]|[=]]|]. split; [|split; [exact (Hiff _ Hb)|apply Hnext]].
      intros face' rest' [= <- <-]. exists bb.
      split; [exact Hbox|]. split; [reflexivity|]. split; [reflexivity|].
      split; [exact Hb|]. simpl. first [by intros [=]|by intros _; split].
  - eexists. split; [apply detect_face_no_face; by left|].
    split; [done|]. split; [done|].
    split; [|intros [=]]. split; [intros _; left; by left|done].
Qed.

End run.

(** * The properties on sample inputs *)

Abbreviation sample_step :=
  (Main.step 10 Sample.pl Sample.sanitize_filename Sample.suffix_lower Sample.fmt_mb).
Abbreviation sample_reachable :=
  (Main.reachable 10 Sample.pl Sample.sanitize_filename Sample.suffix_lower
     Sample.fmt_mb).

Lemma fire_steps id r s : rtc sample_step s (Sample.fire id r s).
Proof.
  unfold Sample.fire.
  destruct (Main.s_tasks s !! id) as [[a|e|c k|f k]|] eqn:Htask;
    try apply rtc_refl.
  - apply rtc_once. by eapply Main.step_call.
  - destruct (f (Main.s_jobs s)) as [jobs' e] eqn:Hf.
    apply rtc_once. by eapply Main.step_locked.
Qed.

Lemma iter_fire_steps n id r s : rtc sample_step s (Nat.iter n (Sample.fire id r) s).
Proof.
  induction n as [|n IH]; [apply rtc_refl|]. simpl.
  etrans; [exact IH|apply fire_steps].
Qed.

Lemma uploaded_reachable : sample_reachable Sample.uploaded.
Proof.
  apply rtc_once. unfold Sample.uploaded.
  destruct (Main.upload_photo 10 Sample.pl Sample.sanitize_filename
              Sample.suffix_lower Sample.fmt_mb Sample.id Sample.photo None ∅
              Main.initial) as [[reply fs'] s'] eqn:Hup.
  by eapply Main.step_upload; [|exact Hup].
Qed.

Lemma failed_reachable : sample_reachable Sample.failed.
Proof.
  unfold Main.reachable. etrans; [apply uploaded_reachable|apply iter_fire_steps].
Qed.

Lemma completed_reachable : sample_reachable Sample.completed.
Proof.
  unfold Main.reachable. etrans; [apply uploaded_reachable|apply iter_fire_steps].
Qed.

Lemma sample_status :
  (status <$> (Main.s_jobs Sample.uploaded !! Sample.id),
   status <$> (Main.s_jobs Sample.failed !! Sample.id),
   status <$> (Main.s_jobs Sample.completed !! Sample.id))
  = (Some "pending", Some "failed", Some "completed").
Proof. vm_compute. reflexivity. Qed.

Lemma sample_succeeds_before bad r K :
  (K < bad)%nat →
  succeeds_before (Sample.oracle bad r)
    (stage_calls Sample.pl Sample.id Sample.path) K.
Proof.
  intros HK i c Hi Hc. exists (mkOutcome true "ok" None). split; [|done].
  unfold Sample.oracle. rewrite bool_decide_eq_false_2; [done|].
  destruct i as [|[|[|[|i]]]]; simpl in Hc; simplify_eq; simpl; lia.
Qed.

Lemma failing_stage_stops_the_run_witness :
  ∃ w j',
    run (Sample.oracle 2 (inr (mkOutcome false "Cartoonization failed: 503" None)))
        (Main.process_avatar_background Sample.pl Sample.id Sample.path)
        (mkWorld {[Sample.id := Sample.pending_record]} [])
      = (inr tt, w)
    ∧ calls w = take 2 (stage_calls Sample.pl Sample.id Sample.path)
    ∧ Forall (λ c', (stage_of c' ≤ 2)%nat) (calls w)
    ∧ jobs w = <[Sample.id := j']> {[Sample.id := Sample.pending_record]}
    ∧ status j' = "failed"
    ∧ error j' = Some "Cartoonization failed: 503".
Proof.
  apply (failing_stage_stops_the_run Sample.pl
           (Sample.oracle 2 (inr (mkOutcome false "Cartoonization failed: 503" None)))
           Sample.id Sample.path {[Sample.id := Sample.pending_record]} Sample.pending_record 1
           (cartoonize_call Sample.path
              (Pipeline.cartoon_path Sample.pl Sample.id) "pixar")
           (mkOutcome false "Cartoonization failed: 503" None)).
  - apply lookup_singleton_eq.
  - reflexivity.
  - apply sample_succeeds_before. lia.
  - reflexivity.
  - reflexivity.
Defined.

Lemma adapter_fault_is_recorded_witness :
  ∃ w j',
    run (Sample.oracle 3 (inl "Connection reset"))
        (Main.process_avatar_background Sample.pl Sample.id Sample.path)
        (mkWorld {[Sample.id := Sample.pending_record]} [])
      = (inr tt, w)
    ∧ calls w = take 3 (stage_calls Sample.pl Sample.id Sample.path)
    ∧ jobs w = <[Sample.id := j']> {[Sample.id := Sample.pending_record]}
    ∧ status j' = "failed"
    ∧ status j' ≠ "processing"
    ∧ error j' = Some "Pipeline error: Connection reset".
Proof.
  apply (adapter_fault_is_recorded Sample.pl
           (Sample.oracle 3 (inl "Connection reset"))
           Sample.id Sample.path {[Sample.id := Sample.pending_record]}
           Sample.pending_record 2
           (generate_3d_model_call (Pipeline.cartoon_path Sample.pl Sample.id)
              (Pipeline.model_3d_path Sample.pl Sample.id) 300)
           "Connection reset").
  - apply lookup_singleton_eq.
  - reflexivity.
  - apply sample_succeeds_before. lia.
  - reflexivity.
Defined.

Lemma failure_path_resets_progress_witness :
  ∃ w j' r,
    run (Sample.oracle 1 Sample.no_face_found)
        (Main.process_avatar_background Sample.pl Sample.id Sample.path)
        (mkWorld {[Sample.id := Sample.pending_record]} [])
      = (inr tt, w)
    ∧ jobs w !! Sample.id = Some j'
    ∧ status j' = "failed"
    ∧ current_step j' = Some "failed"
    ∧ Main.get_status Sample.id (jobs w) = Main.Returns r
    ∧ Main.js_status r = "failed"
    ∧ Main.js_current_step r = Some "failed"
    ∧ Main.js_progress r = 0.
Proof.
  apply (failure_path_resets_progress Sample.pl
           (Sample.oracle 1 Sample.no_face_found)
           Sample.id Sample.path {[Sample.id := Sample.pending_record]}
           Sample.pending_record 0 (detect_face_call Sample.path)).
  - apply lookup_singleton_eq.
  - reflexivity.
  - apply sample_succeeds_before. lia.
  - left. eexists. split; reflexivity.
Defined.

Abbreviation sample_treachable :=
  (Threads.reachable 10 Sample.pl Sample.sanitize_filename Sample.suffix_lower
     Sample.fmt_mb).

Lemma task_steps_reachable s s' :
  sample_treachable s → rtc Threads.task_step s s' → sample_treachable s'.
Proof.
  intros Hs Hsteps. unfold Threads.reachable. etrans; [exact Hs|].
  eapply (rtc_subrel Threads.task_step); [|exact Hsteps].
  intros ? ?. apply Threads.step_task.
Qed.

Lemma failing_reachable : sample_treachable (between_blocks Sample.failing).
Proof.
  apply reachable_between_blocks. unfold Main.reachable.
  etrans; [apply uploaded_reachable|apply iter_fire_steps].
Qed.


(** The record of the sample job in the middle of the last block of its
    task. *)
Lemma sample_interrupted cs r st :
  sample_treachable (between_blocks cs) →
  status <$> (Main.s_jobs cs !! Sample.id) = Some "processing" →
  status <$> (Main.s_jobs (Sample.fire Sample.id r cs) !! Sample.id) = Some st →
  terminal st →
  ∃ s' j, rtc Threads.task_step (between_blocks cs) s'
          ∧ Threads.t_jobs s' !! Sample.id = Some j
          ∧ status j = st ∧ error j = None ∧ output_files j = None.
Proof.
  intros Hreach Hst Hst' Hterm.
  pose proof (reachable_state_ok _ _ _ _ _ _ Hreach) as Hok.
  destruct (Main.s_jobs cs !! Sample.id) as [j|] eqn:Hj; [|done].
  injection Hst as Hst.
  destruct (Main.s_jobs (Sample.fire _ _ _) !! Sample.id) as [j'|] eqn:Hj'; [|done].
  injection Hst' as <-.
  destruct (final_block_interrupted _ _ _ _ _ Hok Hj Hst Hj' Hterm) as (s' & Hs' & Hl).
  destruct (settled (between_blocks cs) Sample.id j Hok Hj) as [[H|[H|[H|H]]] _];
    [done|..]; destruct H as (Hst'' & H); rewrite Hst in Hst''; try discriminate.
  exists s', (set_status (status j') j). simpl. tauto.
Qed.

Lemma failing_status :
  status <$> (Main.s_jobs Sample.failing !! Sample.id) = Some "processing".
Proof. vm_compute. reflexivity. Qed.


Lemma failing_next_status :
  status <$> (Main.s_jobs (Sample.fire Sample.id Sample.no_face_found
                             Sample.failing) !! Sample.id) = Some "failed".
Proof. vm_compute. reflexivity. Qed.


Lemma failed_status :
  status <$> (Main.s_jobs Sample.failed !! Sample.id) = Some "failed".
Proof. vm_compute. reflexivity. Qed.

Lemma completed_status :
  status <$> (Main.s_jobs Sample.completed !! Sample.id) = Some "completed".
Proof. vm_compute. reflexivity. Qed.

(** C2, as it is stated, fails: on the sample run that fails at the face
    check, when the task is stopped after the first statement of its last
    block, the record has status failed and no error, and a status query
    that found the record before the block was entered answers with status
    failed and no error. *)
Lemma failed_record_without_error :
  sample_treachable (between_blocks Sample.failing)
  ∧ ∃ s' j r,
      rtc Threads.task_step (between_blocks Sample.failing) s'
      ∧ sample_treachable s'
      ∧ Threads.t_jobs s' !! Sample.id = Some j
      ∧ status j = "failed" ∧ error j = None
      ∧ Threads.serves (Threads.get_status Sample.id) Sample.id
          (between_blocks Sample.failing) (Main.Returns r)
      ∧ Main.js_status r = "failed" ∧ Main.js_error r = None.
Proof.
  split; [exact failing_reachable|].
  destruct (sample_interrupted Sample.failing Sample.no_face_found "failed"
              failing_reachable failing_status failing_next_status
              (or_intror eq_refl))
    as (s' & j & Hsteps & Hj & Hs & He & _).
  destruct (status_is_Some _ _ _ failing_status) as (j0 & Hj0 & _).
  destruct (status_query_late (between_blocks Sample.failing) s' Sample.id j
              eq_refl (ex_intro _ j0 Hj0) Hsteps Hj) as (r & Hserve & Hrs & _ & Hre).
  exists s', j, r.
  split; [exact Hsteps|].
  split; [exact (task_steps_reachable _ _ failing_reachable Hsteps)|].
  split; [exact Hj|]. split; [exact Hs|].
  split; [exact He|]. split; [exact Hserve|].
  split; [exact (eq_trans Hrs Hs)|exact (eq_trans Hre He)].
Qed.


Lemma failed_between_blocks : sample_treachable (between_blocks Sample.failed).
Proof. exact (reachable_between_blocks _ _ _ _ _ _ failed_reachable). Qed.

Lemma completed_between_blocks : sample_treachable (between_blocks Sample.completed).
Proof. exact (reachable_between_blocks _ _ _ _ _ _ completed_reachable). Qed.

Lemma record_outputs_xor_error_between_blocks_witness :
  (∃ j, Threads.t_jobs (between_blocks Sample.failed) !! Sample.id = Some j
        ∧ status j = "failed" ∧ is_Some (error j) ∧ output_files j = None)
  ∧ (∃ j files, Threads.t_jobs (between_blocks Sample.completed) !! Sample.id = Some j
        ∧ status j = "completed" ∧ error j = None
        ∧ output_files j = Some files ∧ files ≠ ∅).
Proof.
  split.
  - destruct (status_is_Some _ _ _ failed_status) as (j & Hj & Hst).
    exists j. split; [exact Hj|]. split; [exact Hst|].
    destruct (proj1 (proj2 (record_outputs_xor_error_between_blocks 10 Sample.pl
                Sample.sanitize_filename Sample.suffix_lower Sample.fmt_mb
                (between_blocks Sample.failed) Sample.id j
                failed_between_blocks Hj)) Hst) as [Ho He].
    split; [apply He; discriminate|exact Ho].
  - destruct (status_is_Some _ _ _ completed_status) as (j & Hj & Hst).
    destruct (proj1 (record_outputs_xor_error_between_blocks 10 Sample.pl
                Sample.sanitize_filename Sample.suffix_lower Sample.fmt_mb
                (between_blocks Sample.completed) Sample.id j
                completed_between_blocks Hj) Hst) as [He Ho].
    destruct Ho as (files & Hfiles & Hne & _); [discriminate|].
    exists j, files.
    split; [exact Hj|]. split; [exact Hst|]. split; [exact He|].
    split; [exact Hfiles|exact Hne].
Defined.



Lemma status_only_moves_forward_witness :
  ∃ j', Main.s_jobs Sample.failed !! Sample.id = Some j'
        ∧ rtc forward "pending" (status j')
        ∧ (terminal "pending" → status j' = "pending").
Proof.
  apply (status_only_moves_forward 10 Sample.pl Sample.sanitize_filename
           Sample.suffix_lower Sample.fmt_mb Sample.uploaded Sample.failed
           Sample.id Sample.pending_record).
  - apply uploaded_reachable.
  - apply iter_fire_steps.
  - vm_compute. reflexivity.
Defined.


Lemma upload_rejects_before_creating_witness :
  (∃ text fs' s',
     Main.upload_photo 10 Sample.pl Sample.sanitize_filename Sample.suffix_lower
       Sample.fmt_mb Sample.id Sample.photo None ∅ Main.initial
     = (Main.Returns (Main.mkUploadReply Sample.id text "pending"), fs', s')
     ∧ Main.s_tasks s' !! Sample.id
       = Some (Main.process_avatar_background Sample.pl Sample.id Sample.path))
  ∧ (∃ code detail fs',
       Main.upload_photo 10 Sample.pl Sample.sanitize_filename Sample.suffix_lower
         Sample.fmt_mb Sample.id Sample.huge None ∅ Main.initial
       = (Main.HTTPException code detail, fs', Main.initial)).
Proof.
  split.
  - destruct (upload_rejects_before_creating 10 Sample.pl Sample.sanitize_filename
                Sample.suffix_lower Sample.fmt_mb Sample.id Sample.photo None ∅
                Main.initial (lookup_empty _))
      as (reply & fs' & s' & Hup & [(Hrej & _)|(_ & (text & ->) & _ & Htask & _)]).
    + exfalso. destruct Hrej as [Hrej|[[? Hrej]|Hrej]]; vm_compute in Hrej;
        discriminate.
    + exists text, fs', s'. split; [exact Hup|exact Htask].
  - destruct (upload_rejects_before_creating 10 Sample.pl Sample.sanitize_filename
                Sample.suffix_lower Sample.fmt_mb Sample.id Sample.huge None ∅
                Main.initial (lookup_empty _))
      as (reply & fs' & s' & Hup
          & [(_ & (code & detail & ->) & -> & _)|(Hacc & _)]).
    + exists code, detail, fs'. exact Hup.
    + exfalso. apply Hacc. left. vm_compute. reflexivity.
Defined.

Lemma face_check_outcome_witness :
  ∃ r,
    FaceDetector.detect_face Sample.path (Some (800, 1000)) Sample.portrait = inr r
    ∧ FaceDetector.f_success r = true
    ∧ FaceDetector.f_bounding_box r
      = Some (FaceDetector.mkBox 100 160 500 560 400 400)
    ∧ FaceDetector.f_landmarks r
      = Some [(100, 160, 0%Q); (500, 560, (1 # 100)%Q); (300, 400, 0%Q)]
    ∧ FaceDetector.f_face_area_ratio r
      = Some (inject_Z (400 * 400) / inject_Z (1000 * 800))%Q
    ∧ calls (run (Sample.oracle 1 (inr (FaceDetector.outcome r)))
                 (Main.process_avatar_background Sample.pl Sample.id Sample.path)
                 (mkWorld {[Sample.id := Sample.pending_record]} [])).2 !! 1%nat
      = Some (cartoonize_call Sample.path
                (Pipeline.cartoon_path Sample.pl Sample.id) "pixar").
Proof.
  destruct (face_check_outcome Sample.pl Sample.path 800 1000 Sample.portrait)
    as (r & Hr & _ & _ & _ & Hnext).
  - lia.
  - lia.
  - intros face rest [= <- <-]. discriminate.
  - exists r. split; [exact Hr|].
    vm_compute in Hr. injection Hr as <-.
    split; [reflexivity|]. split; [reflexivity|]. split; [reflexivity|].
    split; [reflexivity|].
    apply (Hnext eq_refl _ Sample.id _ Sample.pending_record).
    + apply lookup_singleton_eq.
    + reflexivity.
Defined.

Lemma bounded_polling_wait_witness :
  (∃ w', ThreeDGenerator.poll 1000 Sample.third_time (λ _, 800) (λ _, 3)
           10 300 5 0 (ThreeDGenerator.mkWorld 0 0 [])
         = Some (ThreeDGenerator.Succeeded (Sample.third_time 2), w')
         ∧ ThreeDGenerator.checks w' = 3%nat)
  ∧ (∃ w', ThreeDGenerator.poll 1000 Sample.never (λ _, 800) (λ _, 3)
             100 300 5 0 (ThreeDGenerator.mkWorld 0 0 [])
           = Some (ThreeDGenerator.TimedOut, w')
           ∧ 300 * 1000 < ThreeDGenerator.now w' - 0
           ∧ Z.of_nat (ThreeDGenerator.checks w') ≤ 300 / 5 + 1).
Proof.
  split.
  - destruct (bounded_polling_wait 1000 Sample.third_time (λ _, 800) (λ _, 3)
                300 5 0 ltac:(lia) ltac:(intros; lia) ltac:(intros; lia)
                ltac:(lia) "task-1" (λ _, None) "cartoon.png" "model.glb"
                ltac:(lia)) as [Hdone _].
    destruct (Hdone 2%nat) with (fuel := 10%nat) as (w' & Hpoll & Hchecks & _).
    + intros [|[|k]] Hk; [split; discriminate|split; discriminate|lia].
    + reflexivity.
    + vm_compute. discriminate.
    + lia.
    + exists w'. split; [exact Hpoll|exact Hchecks].
  - destruct (bounded_polling_wait 1000 Sample.never (λ _, 800) (λ _, 3)
                300 5 0 ltac:(lia) ltac:(intros; lia) ltac:(intros; lia)
                ltac:(lia) "task-1" (λ _, None) "cartoon.png" "model.glb"
                ltac:(lia)) as [_ Hnever].
    destruct Hnever with (fuel := 100%nat) as (w' & Hpoll & Hpast & Hbound & _).
    + intros k. split; discriminate.
    + vm_compute. reflexivity.
    + exists w'. split; [exact Hpoll|]. split; [exact Hpast|exact Hbound].
Defined.

(** * More properties of the code *)

(** ** Runs of the background task *)

Section more_runs.
Variable pl : Pipeline.AvatarPipeline.

(** X1: when all four services succeed, the background task ends with
    the job completed, its outputs being the three paths derived from the
    job id, no error added, the four services called once each in order,
    and the status query reporting progress 100. *)
Theorem successful_run_completes oracle id path jobs0 j :
  jobs0 !! id = Some j →
  succeeds_before oracle (stage_calls pl id path) 4 →
  ∃ w j' r,
    run oracle (Main.process_avatar_background pl id path) (mkWorld jobs0 [])
      = (inr tt, w)
    ∧ calls w = stage_calls pl id path
    ∧ jobs w = <[id := j']> jobs0
    ∧ status j' = "completed"
    ∧ current_step j' = Some "completed"
    ∧ error j' = error j
    ∧ output_files j'
      = Some (<["cartoon" := Pipeline.cartoon_path pl id]>
             (<["model_3d" := Pipeline.model_3d_path pl id]>
             (<["stl" := Pipeline.stl_path pl id]> ∅)))
    ∧ Main.get_status id (jobs w) = Main.Returns r
    ∧ Main.js_status r = "completed"
    ∧ Main.js_progress r = 100
    ∧ Main.js_error r = error j.
Proof.
  intros Hj Hall.
  destruct (Hall 0%nat _ ltac:(lia) eq_refl) as (o1 & Ho1 & Hs1).
  destruct (Hall 1%nat _ ltac:(lia) eq_refl) as (o2 & Ho2 & Hs2).
  destruct (Hall 2%nat _ ltac:(lia) eq_refl) as (o3 & Ho3 & Hs3).
  destruct (Hall 3%nat _ ltac:(lia) eq_refl) as (o4 & Ho4 & Hs4).
  rewrite <- (insert_id _ _ _ Hj).
  unfold Main.process_avatar_background, Pipeline.process_avatar,
    Pipeline.process_avatar_body, Pipeline.update_status.
  repeat run_step.
  eexists _, _, _. split; [reflexivity|]. simpl.
  split; [reflexivity|]. split; [by rewrite insert_insert_eq|].
  split; [reflexivity|]. split; [reflexivity|]. split; [reflexivity|].
  split; [reflexivity|].
  unfold Main.get_status. rewrite lookup_insert_eq. by repeat split.
Qed.

(** X2: started for a job id that is not in the registry, the background
    task ends with the [KeyError] of that id (raised again by its own
    handler), calls no service and leaves the registry as it was. *)
Theorem background_task_without_record oracle id path jobs0 :
  jobs0 !! id = None →
  run oracle (Main.process_avatar_background pl id path) (mkWorld jobs0 [])
  = (inl (KeyError id), mkWorld jobs0 []).
Proof.
  intros Hj.
  unfold Main.process_avatar_background, Pipeline.process_avatar,
    Pipeline.process_avatar_body, Pipeline.update_status.
  simpl. unfold run; simpl. unfold setitem at 1. rewrite Hj. simpl.
  unfold then_, setitem. rewrite Hj. reflexivity.
Qed.

Ltac run_any oracle :=
  simpl;
  lazymatch goal with
  | |- context [run _ (Call ?c _) _] =>
      rewrite (run_call oracle c _ _ _ eq_refl);
      let H := fresh "Hcall" in destruct (oracle c) as [?e|?o] eqn:H
  | |- context [negb (success ?o)] =>
      let H := fresh "Hsucc" in destruct (success o) eqn:H
  end.

(** X3: [process_avatar] run without a status callback never raises,
    whatever the services return or raise, and never touches the registry;
    it reports success, with the three output paths and no error, exactly
    when all four services returned success, and otherwise a failure with an
    error message and no outputs. *)
Theorem process_avatar_never_raises oracle path id w :
  ∃ r w',
    run oracle (Pipeline.process_avatar pl path id None) w = (inr r, w')
    ∧ jobs w' = jobs w
    ∧ ((r_success r = true ∧ r_error r = None
        ∧ r_output_files r
          = Some (<["cartoon" := Pipeline.cartoon_path pl id]>
                 (<["model_3d" := Pipeline.model_3d_path pl id]>
                 (<["stl" := Pipeline.stl_path pl id]> ∅)))
        ∧ calls w' = (calls w ++ stage_calls pl id path)%list
        ∧ succeeds_before oracle (stage_calls pl id path) 4)
       ∨ (r_success r = false ∧ is_Some (r_error r)
          ∧ r_output_files r = None
          ∧ ¬ succeeds_before oracle (stage_calls pl id path) 4)).
Proof.
  unfold Pipeline.process_avatar, Pipeline.process_avatar_body,
    Pipeline.update_status.
  repeat run_any oracle.
  all: eexists _, _; (split; [reflexivity|]); (split; [reflexivity|]); simpl.
  all: try (right; split; [reflexivity|]; split; [by eexists|]; split; [reflexivity|]).
  all: try (intros Hall;
    first [ destruct (Hall 0%nat _ ltac:(lia) eq_refl) as (? & ? & ?); congruence
          | destruct (Hall 1%nat _ ltac:(lia) eq_refl) as (? & ? & ?); congruence
          | destruct (Hall 2%nat _ ltac:(lia) eq_refl) as (? & ? & ?); congruence
          | destruct (Hall 3%nat _ ltac:(lia) eq_refl) as (? & ? & ?); congruence ]).
  left. split; [reflexivity|]. split; [reflexivity|]. split; [reflexivity|].
  split; [by rewrite <- !app_assoc|].
  intros i c Hi Hc. destruct i as [|[|[|[|i]]]]; simpl in Hc; simplify_eq; eauto; lia.
Qed.

End more_runs.

(** ** The server *)

Section server_more.
Variable MAX_UPLOAD_SIZE_MB : Z.
Variable pl : Pipeline.AvatarPipeline.
Variable sanitize_filename suffix_lower : string → string.
Variable fmt_mb : Z → string.

Abbreviation upload_photo' :=
  (Main.upload_photo MAX_UPLOAD_SIZE_MB pl sanitize_filename suffix_lower fmt_mb).
Abbreviation step' :=
  (Main.step MAX_UPLOAD_SIZE_MB pl sanitize_filename suffix_lower fmt_mb).
Abbreviation reachable' :=
  (Main.reachable MAX_UPLOAD_SIZE_MB pl sanitize_filename suffix_lower fmt_mb).

(** X4: every transition of the server concerns one job: the records and
    the tasks of all other jobs are as before.  It is a rejected upload,
    which changes nothing; or an upload that files the pending record of a
    job that had neither record nor task; or the move of the task of that
    job, which is a service invocation and leaves the registry alone, or
    one of its critical sections.  So a task rewrites the record of its own
    job only. *)
Theorem step_changes_one_record s s' :
  reachable' s → step' s s' →
  ∃ id0,
    (∀ id, id ≠ id0 →
       Main.s_jobs s' !! id = Main.s_jobs s !! id
       ∧ Main.s_tasks s' !! id = Main.s_tasks s !! id)
    ∧ (s' = s
       ∨ (Main.s_jobs s !! id0 = None ∧ Main.s_tasks s !! id0 = None
          ∧ ∃ j, Main.s_jobs s' !! id0 = Some j
                 ∧ job_id j = id0 ∧ status j = "pending")
       ∨ ∃ j j' p p',
           Main.s_jobs s !! id0 = Some j ∧ Main.s_jobs s' !! id0 = Some j'
           ∧ Main.s_tasks s !! id0 = Some p ∧ Main.s_tasks s' !! id0 = Some p'
           ∧ match p with
             | Call _ k => j' = j ∧ ∃ r, p' = k r
             | Locked f k =>
                 ∃ r, p' = k r ∧ f (Main.s_jobs s) = (Main.s_jobs s', r)
             | _ => False
             end).
Proof.
  intros Hs Hstep.
  apply (reachable_server_ok MAX_UPLOAD_SIZE_MB pl sanitize_filename
           suffix_lower fmt_mb) in Hs.
  destruct Hstep as
    [job_id file we fs reply fs' s s' Hfresh Hup
    |job_id c k r s Htask
    |job_id f k jobs' r s Htask Hf]; exists job_id.
  - apply upload_photo_cases in Hup as [->|(path & name & ->)];
      [split; [done|by left]|].
    split; [intros id Hne; simpl; by rewrite !lookup_insert_ne|].
    right. left. split; [done|].
    pose proof (Hs job_id) as Hid. rewrite Hfresh in Hid. split; [done|].
    simpl. rewrite lookup_insert_eq. by eexists.
  - split; [intros id Hne; simpl; by rewrite lookup_insert_ne|].
    right. right.
    pose proof (Hs job_id) as Hid. rewrite Htask in Hid.
    destruct (Main.s_jobs s !! job_id) as [j|] eqn:Hj; [|done].
    exists j, j, (Call c k), (k r). simpl. rewrite lookup_insert_eq.
    repeat split; eauto.
  - pose proof (Hs job_id) as Hid. rewrite Htask in Hid.
    destruct (Main.s_jobs s !! job_id) as [j|] eqn:Hj; [|done].
    destruct Hid as (_ & p & [= <-] & Hp).
    destruct (Hp (Main.s_jobs s)) as (j' & r' & Hf' & _).
    rewrite (insert_id _ _ _ Hj), Hf in Hf'.
    apply pair_equal_spec in Hf' as [-> <-].
    split; [intros id Hne; simpl; by rewrite !lookup_insert_ne|].
    right. right.
    exists j, j', (Locked f k), (k r). simpl. rewrite !lookup_insert_eq.
    repeat split; eauto.
Qed.

(** X5: in every reachable state each background task has the record of
    its job in the registry; a task that has ended left its job completed
    or failed, no task has died of an exception, and a task that is about
    to call a service has its job in status processing. *)
Theorem task_in_step_with_record s id p :
  reachable' s → Main.s_tasks s !! id = Some p →
  ∃ j, Main.s_jobs s !! id = Some j
       ∧ match p with
         | Ret _ => terminal (status j)
         | Raise _ => False
         | Call _ _ => status j = "processing"
         | Locked _ _ => True
         end.
Proof.
  intros Hs Hp.
  apply (reachable_server_ok MAX_UPLOAD_SIZE_MB pl sanitize_filename
           suffix_lower fmt_mb) in Hs.
  specialize (Hs id). rewrite Hp in Hs.
  destruct (Main.s_jobs s !! id) as [j|]; [|done].
  destruct Hs as (Hrec & p' & [= <-] & Hok). exists j. split; [done|].
  destruct p as [a|e|c k|f k]; unfold task_ok in Hok; tauto.
Qed.

(** When only the write can fail, this is [upload_photo] of [Main]. *)
Lemma upload_photo_only_write job_id file write_error remains fs s :
  Uploads.upload_photo MAX_UPLOAD_SIZE_MB pl sanitize_filename suffix_lower fmt_mb
    job_id file (Uploads.only_write write_error remains) fs s
  = Main.upload_photo MAX_UPLOAD_SIZE_MB pl sanitize_filename suffix_lower fmt_mb
      job_id file write_error fs s.
Proof.
  unfold Uploads.upload_photo, Main.upload_photo, Uploads.save_and_validate,
    Uploads.only_write. simpl.
  destruct (Validators.size_mb_exceeds _ _); [done|].
  destruct write_error as [e|]; simpl.
  - destruct remains as [c|]; simpl.
    + rewrite lookup_insert_eq. rewrite bool_decide_eq_true_2 by eauto.
      by rewrite delete_insert_eq.
    + case_bool_decide as Hin; [done|].
      rewrite delete_id; [done|]. destruct (fs !! _) eqn:?; [|done].
      destruct Hin. eauto.
  - rewrite lookup_insert_eq. rewrite (bool_decide_eq_true_2 (is_Some (Some _))) by eauto.
    simpl. destruct (Validators.validate_image_file _ _ _ _ _ _) as [[] m]; done.
Qed.


(** X6: [upload_photo] on a file system where every call can raise.
    Whatever raises, the files under other paths are untouched and the
    server changes only when the handler returns.  When it returns, the
    upload is stored under its path and the pending record of the job is
    filed; when it answers 413 the files are untouched; when it answers 400
    or 500 no file is left under the upload path.  The handler ends in an
    unhandled exception only with the exception of a call outside the
    handled region: reading the upload, one of the two [mkdir], the
    [exists] or the [unlink] of the clean-up, or [stat]; and when it is
    [stat] that raises, the upload stays on the disk although no job was
    filed for it. *)
Theorem upload_photo_files job_id file faults fs s :
  let path := upload_path_of sanitize_filename job_id file in
  ∃ reply fs' s',
    Uploads.upload_photo MAX_UPLOAD_SIZE_MB pl sanitize_filename suffix_lower
      fmt_mb job_id file faults fs s = (reply, fs', s')
    ∧ (∀ p, p ≠ path → fs' !! p = fs !! p)
    ∧ match reply with
      | Main.Returns _ =>
          fs' = <[path := Main.uf_content file]> fs
          ∧ ∃ j, Main.s_jobs s' !! job_id = Some j
                 ∧ status j = "pending" ∧ upload_path j = path
      | Main.HTTPException code _ =>
          s' = s
          ∧ (code = 413 ∧ fs' = fs
             ∨ (code = 400 ∨ code = 500) ∧ fs' !! path = None)
      | Main.Unhandled e =>
          s' = s
          ∧ (Uploads.read faults = Some e
             ∨ Uploads.mkdir_output faults = Some e
             ∨ Uploads.mkdir_uploads faults = Some e
             ∨ Uploads.cleanup_exists faults = Some e
             ∨ Uploads.cleanup_unlink faults = Some e
             ∨ Uploads.stat faults = Some e
               ∧ fs' = <[path := Main.uf_content file]> fs)
      end.
Proof.
  intros path. unfold Uploads.upload_photo, Uploads.save_and_validate.
  fold (upload_path_of sanitize_filename job_id file). fold path.
  assert (∀ c p, p ≠ path → <[path := c]> fs !! p = fs !! p) as Hins
    by (intros; by rewrite lookup_insert_ne).
  assert (∀ c p, p ≠ path → delete path (<[path := c]> fs) !! p = fs !! p) as Hdel
    by (intros; by rewrite lookup_delete_ne, lookup_insert_ne).
  assert (∀ p, p ≠ path → delete path fs !! p = fs !! p) as Hdel'
    by (intros; by rewrite lookup_delete_ne).
  repeat case_match; simplify_eq; do 3 eexists; (split; [reflexivity|]);
    (split; [by eauto|]); simpl; try (split; [done|]); eauto 10;
    rewrite ?lookup_delete_eq, ?lookup_insert_eq; eauto 10.
  all: repeat match goal with
       | H : bool_decide _ = false |- _ => apply bool_decide_eq_false in H
       | H : negb _ = true |- _ => apply negb_true_iff in H
       end.
  all: first [ exfalso;
               match goal with H : ¬ is_Some _ |- _ => apply H end;
               rewrite lookup_insert_eq; by eauto
             | right; split; [by right|]; by apply eq_None_not_Some ].
Qed.


(** X7: [validate_image_file] accepts a path exactly when the file
    exists, its extension is .jpg, .jpeg or .png, it is at most 10 MB if the
    size is checked, PIL opens it, width and height lie between 512 and 4096
    if the dimensions are checked, and its mode is RGB or RGBA. *)
Theorem validate_image_file_accepts fs path check_size check_dimensions :
  (Validators.validate_image_file suffix_lower fmt_mb fs path
     check_size check_dimensions).1 = true
  ↔ ∃ c width height mode,
      fs !! path = Some c
      ∧ suffix_lower path ∈ [".jpg"; ".jpeg"; ".png"]
      ∧ (check_size = true → Validators.length_bytes c ≤ 10 * 1024 * 1024)
      ∧ Validators.pil_open c = inr (width, height, mode)
      ∧ (check_dimensions = true →
           512 ≤ width ≤ 4096 ∧ 512 ≤ height ≤ 4096)
      ∧ (mode = "RGB" ∨ mode = "RGBA").
Proof.
  unfold Validators.validate_image_file, Validators.size_mb_exceeds,
    Validators.MAX_FILE_SIZE_MB, Validators.MIN_IMAGE_DIMENSION,
    Validators.MAX_IMAGE_DIMENSION, Validators.ALLOWED_IMAGE_EXTENSIONS.
  split.
  - destruct (fs !! path) as [c|]; [|done].
    case_bool_decide as Hsuf; cbn [negb]; [|by intros [=]].
    destruct (check_size && (10 * (1024 * 1024) <? Validators.length_bytes c))
      eqn:Hsz; [by intros [=]|].
    destruct (Validators.pil_open c) as [e|[[w h] mode]] eqn:Hpil; [by intros [=]|].
    destruct (check_dimensions && ((w <? 512) || (h <? 512))) eqn:Hmin;
      [by intros [=]|].
    destruct (check_dimensions && ((4096 <? w) || (4096 <? h))) eqn:Hmax;
      [by intros [=]|].
    destruct (bool_decide (mode ∈ ["RGB"; "RGBA"])) eqn:Hmode; cbn [negb];
      [|by intros [=]].
    apply bool_decide_eq_true_1 in Hmode. intros _.
    exists c, w, h, mode. split; [done|]. split; [done|].
    split; [intros ->; simpl in Hsz; lia|]. split; [done|].
    split; [intros ->; simpl in Hmin, Hmax; lia|].
    apply elem_of_cons in Hmode as [->|Hmode]; [by left|].
    apply elem_of_cons in Hmode as [->|Hmode]; [by right|].
    by apply elem_of_nil in Hmode.
  - intros (c & w & h & mode & -> & Hsuf & Hsize & -> & Hdim & Hmode).
    rewrite bool_decide_eq_true_2 by done. simpl.
    assert (bool_decide (mode ∈ ["RGB"; "RGBA"]) = true) as ->
      by (apply bool_decide_eq_true_2; destruct Hmode as [-> | ->];
          repeat constructor).
    assert (check_size && (10 * (1024 * 1024) <? Validators.length_bytes c) = false)
      as -> by (destruct check_size; simpl; [specialize (Hsize eq_refl); lia|done]).
    assert (check_dimensions && ((w <? 512) || (h <? 512)) = false)
      as -> by (destruct check_dimensions; simpl; [specialize (Hdim eq_refl); lia|done]).
    assert (check_dimensions && ((4096 <? w) || (4096 <? h)) = false)
      as -> by (destruct check_dimensions; simpl; [specialize (Hdim eq_refl); lia|done]).
    done.
Qed.

End server_more.

(** ** The 3D generation service *)

Section polling_more.
Variable tps : Z.
Variable cost extra : nat → Z.
Variable timeout interval t0 : Z.
Hypothesis tps_pos : 0 < tps.
Hypothesis cost_nonneg : ∀ k, 0 ≤ cost k.
Hypothesis extra_nonneg : ∀ k, 0 ≤ extra k.
Hypothesis interval_pos : 0 < interval.

Lemma poll_remote_failed resp fuel k :
  ThreeDGenerator.sr_status (resp k) = "FAILED" →
  ThreeDGenerator.clock_at tps cost extra interval t0 k - t0 ≤ timeout * tps →
  ThreeDGenerator.poll tps resp cost extra (S fuel) timeout interval t0
    (world_at tps cost extra interval t0 k)
  = Some (ThreeDGenerator.RemoteFailed (resp k),
          (ThreeDGenerator._check_status resp cost
             (world_at tps cost extra interval t0 k)).2).
Proof.
  intros Hs Hclock. simpl.
  destruct (timeout * tps <? _) eqn:Hlt; [lia|].
  rewrite bool_decide_eq_false_2 by (rewrite Hs; discriminate).
  by rewrite bool_decide_eq_true_2.
Qed.

Lemma generate_remote_failed resp N task_id download image_path out_path fuel :
  (∀ k, (k < N)%nat → ThreeDGenerator.still_pending (resp k)) →
  ThreeDGenerator.sr_status (resp N) = "FAILED" →
  ThreeDGenerator.clock_at tps cost extra interval t0 N - t0 ≤ timeout * tps →
  (N < fuel)%nat →
  ∃ w',
    ThreeDGenerator.generate_3d_model tps None (inr task_id) resp cost extra
      download fuel image_path out_path timeout interval
      (ThreeDGenerator.mkWorld t0 0 [])
    = Some (ThreeDGenerator.mkModel false None (Some task_id)
              ("3D generation failed: "
                 +:+ ThreeDGenerator.format_optional
                       (ThreeDGenerator.sr_error (resp N)))
              None None, w')
    ∧ ThreeDGenerator.checks w' = S N
    ∧ ThreeDGenerator.paced interval (ThreeDGenerator.log w') = true.
Proof.
  intros Hpend Hfail Hclock Hfuel.
  unfold ThreeDGenerator.generate_3d_model.
  change (ThreeDGenerator.now (ThreeDGenerator.mkWorld t0 0 [])) with t0.
  change (ThreeDGenerator.mkWorld t0 0 [])
    with (world_at tps cost extra interval t0 0).
  replace fuel with (N + S (fuel - S N))%nat by lia.
  rewrite (poll_pending_rounds tps resp cost extra timeout interval t0 N);
    [|done|].
  - rewrite poll_remote_failed by done.
    eexists. split; [reflexivity|]. split; [done|]. apply paced_rounds_check.
  - intros k Hk.
    assert (ThreeDGenerator.clock_at tps cost extra interval t0 k
            ≤ ThreeDGenerator.clock_at tps cost extra interval t0 N)
      by (apply clock_mono; auto; lia).
    lia.
Qed.

(** X8: if the remote task answers N checks with a status that is neither
    success nor failure and then reports FAILED, within the timeout,
    [generate_3d_model] makes exactly N+1 checks, each but the last followed
    by a sleep, and returns a failure that keeps the task id and whose
    message is "3D generation failed: " followed by the error of the task;
    for a task that reports no error this is the text "None", the way
    Python formats the absent value: the default "Unknown error" is never
    used, since the dictionary of a status check always has the key. *)
Theorem remote_failure_ends_the_wait resp N task_id download image_path out_path fuel :
  (∀ k, (k < N)%nat → ThreeDGenerator.still_pending (resp k)) →
  ThreeDGenerator.sr_status (resp N) = "FAILED" →
  ThreeDGenerator.clock_at tps cost extra interval t0 N - t0 ≤ timeout * tps →
  (N < fuel)%nat →
  ∃ w',
    ThreeDGenerator.generate_3d_model tps None (inr task_id) resp cost extra
      download fuel image_path out_path timeout interval
      (ThreeDGenerator.mkWorld t0 0 [])
    = Some (ThreeDGenerator.mkModel false None (Some task_id)
              ("3D generation failed: "
                 +:+ ThreeDGenerator.format_optional
                       (ThreeDGenerator.sr_error (resp N)))
              None None, w')
    ∧ ThreeDGenerator.checks w' = S N
    ∧ ThreeDGenerator.paced interval (ThreeDGenerator.log w') = true.
Proof. apply generate_remote_failed. Qed.

(** X9: a status check whose HTTP exchange raises, or is answered by
    anything but a 200, ends the wait at once, as a failure of the remote
    task with the text of the exception or of the response: after N answers
    that are neither success nor failure, [generate_3d_model] has made N+1
    checks and returns the message "3D generation failed: " followed by
    that text. *)
Theorem http_error_ends_the_wait http N msg task_id download image_path out_path fuel :
  let check k := MeshyHttp._check_status (http k) in
  (∀ k, (k < N)%nat → ThreeDGenerator.still_pending (check k)) →
  MeshyHttp.http_error (http N) msg →
  ThreeDGenerator.clock_at tps cost extra interval t0 N - t0 ≤ timeout * tps →
  (N < fuel)%nat →
  ∃ w',
    ThreeDGenerator.generate_3d_model tps None (inr task_id) check cost extra
      download fuel image_path out_path timeout interval
      (ThreeDGenerator.mkWorld t0 0 [])
    = Some (ThreeDGenerator.mkModel false None (Some task_id)
              ("3D generation failed: " +:+ msg) None None, w')
    ∧ ThreeDGenerator.checks w' = S N.
Proof.
  intros check Hpend Herr Hclock Hfuel.
  assert (check N = ThreeDGenerator.mkStatus "FAILED" 0 None None (Some msg))
    as HN.
  { subst check. simpl.
    destruct Herr as [->|(response & -> & Hcode & ->)]; [done|]. simpl.
    destruct (MeshyHttp.status_code response =? 200) eqn:Heq; [lia|done]. }
  destruct (generate_remote_failed check N task_id download image_path
              out_path fuel Hpend) as (w' & Hgen & Hchecks & _);
    [by rewrite HN|done|done|].
  exists w'. split; [|done]. rewrite Hgen. by rewrite HN.
Qed.

End polling_more.

(** X10: when the image cannot be read, or the request that creates the
    task raises or is answered by anything but a 200, [generate_3d_model]
    returns a failure without a task id and without a single status check
    or sleep: the state of the loop is untouched, whatever the fuel. *)
Theorem no_task_no_polling tps read_error reply resp cost extra
    download fuel image_path out_path timeout interval w :
  is_Some read_error ∨ (∃ msg, MeshyHttp.http_error reply msg) →
  ∃ m,
    ThreeDGenerator.generate_3d_model tps read_error
      (MeshyHttp._create_task reply) resp cost extra download fuel image_path
      out_path timeout interval w = Some (m, w)
    ∧ ThreeDGenerator.m_success m = false
    ∧ ThreeDGenerator.m_task_id m = None
    ∧ ThreeDGenerator.m_message m
      = match read_error, reply with
        | Some e, _ => "3D generation error: " +:+ e
        | None, inl e => "Task creation error: " +:+ e
        | None, inr response =>
            "Task creation failed: " +:+ MeshyHttp.text response
        end.
Proof.
  intros Hfail. unfold ThreeDGenerator.generate_3d_model.
  destruct read_error as [e|]; [by eexists|].
  destruct Hfail as [[? [=]]|[msg [->|(response & -> & Hcode & ->)]]];
    [by eexists|].
  simpl. destruct (MeshyHttp.status_code response =? 200) eqn:Heq; [lia|].
  by eexists.
Qed.

(** ** File names *)

Section filenames.
Variable isalnum : Ascii.ascii → bool.

Lemma contains_app c s t :
  Filenames.contains c (s +:+ t) = Filenames.contains c s || Filenames.contains c t.
Proof. induction s as [|a s IH]; simpl; [done|]. by rewrite IH, orb_assoc. Qed.

Lemma contains_map_chars c f s :
  (∀ a, f a ≠ c) → Filenames.contains c (Filenames.map_chars f s) = false.
Proof.
  intros Hf. induction s as [|a s IH]; simpl; [done|].
  rewrite IH. by rewrite bool_decide_eq_false_2.
Qed.

Lemma map_chars_id f s :
  (∀ a, Filenames.contains a s = true → f a = a) → Filenames.map_chars f s = s.
Proof.
  induction s as [|a s IH]; simpl; intros Hf; [done|].
  rewrite Hf, IH; [done| |].
  - intros b Hb. apply Hf. by rewrite Hb, orb_true_r.
  - by rewrite bool_decide_eq_true_2.
Qed.

Lemma map_chars_map_chars f g s :
  Filenames.map_chars f (Filenames.map_chars g s)
  = Filenames.map_chars (λ c, f (g c)) s.
Proof. induction s as [|a s IH]; simpl; [done|]. by rewrite IH. Qed.

Lemma map_chars_app f s t :
  Filenames.map_chars f (s +:+ t)
  = Filenames.map_chars f s +:+ Filenames.map_chars f t.
Proof. induction s as [|a s IH]; simpl; [done|]. by rewrite IH. Qed.

Lemma contains_map_chars_inv c f s :
  Filenames.contains c (Filenames.map_chars f s) = true →
  ∃ a, Filenames.contains a s = true ∧ f a = c.
Proof.
  induction s as [|a s IH]; simpl; [done|].
  intros [Ha%bool_decide_eq_true_1|Hs]%orb_true_iff.
  - exists a. by rewrite bool_decide_eq_true_2.
  - destruct (IH Hs) as (b & Hb & <-). exists b. by rewrite Hb, orb_true_r.
Qed.

Lemma length_map_chars f s :
  String.length (Filenames.map_chars f s) = String.length s.
Proof. induction s as [|a s IH]; simpl; [done|]. by rewrite IH. Qed.

Lemma length_app s t :
  String.length (s +:+ t) = (String.length s + String.length t)%nat.
Proof. induction s as [|a s IH]; simpl; [done|]. by rewrite IH. Qed.

Lemma sanitize_filename_unfold filename :
  Filenames.sanitize_filename isalnum filename
  = let sanitized := Filenames.map_chars (Filenames.clean isalnum) filename in
    if negb (Filenames.contains "."%char sanitized)
    then sanitized +:+ ".jpg" else sanitized.
Proof.
  unfold Filenames.sanitize_filename, Filenames.replace.
  by rewrite !map_chars_map_chars.
Qed.

Lemma keeps_underscore : Filenames.keeps isalnum "_"%char = true.
Proof. unfold Filenames.keeps. apply orb_true_iff. by right. Qed.

Lemma clean_kept c : Filenames.keeps isalnum ((Filenames.clean isalnum) c) = true.
Proof.
  unfold Filenames.clean. cbv zeta.
  match goal with |- context [if Filenames.keeps isalnum ?x then _ else _] =>
    destruct (Filenames.keeps isalnum x) eqn:Hk end;
    [exact Hk|apply keeps_underscore].
Qed.

Lemma clean_no_separator c : (Filenames.clean isalnum) c ≠ "/"%char ∧ (Filenames.clean isalnum) c ≠ "\"%char.
Proof.
  unfold Filenames.clean. repeat case_bool_decide; simpl;
    destruct (Filenames.keeps isalnum _); split; congruence.
Qed.

Lemma clean_fixes_kept c :
  Filenames.keeps isalnum c = true → c ≠ "/"%char → c ≠ "\"%char → (Filenames.clean isalnum) c = c.
Proof.
  intros Hk H1 H2. unfold Filenames.clean. cbv zeta.
  rewrite (bool_decide_eq_false_2 _ H1), (bool_decide_eq_false_2 _ H2).
  by rewrite Hk.
Qed.

Lemma sanitize_filename_facts filename :
  let r := Filenames.sanitize_filename isalnum filename in
  Filenames.contains "/"%char r = false
  ∧ Filenames.contains "\"%char r = false
  ∧ Filenames.contains "."%char r = true
  ∧ (String.length filename ≤ String.length r ≤ String.length filename + 4)%nat.
Proof.
  cbv zeta. rewrite sanitize_filename_unfold. cbv zeta.
  assert (Filenames.contains "/"%char (Filenames.map_chars (Filenames.clean isalnum) filename) = false)
    as H1 by (apply contains_map_chars; intros a; apply clean_no_separator).
  assert (Filenames.contains "\"%char (Filenames.map_chars (Filenames.clean isalnum) filename) = false)
    as H2 by (apply contains_map_chars; intros a; apply clean_no_separator).
  destruct (Filenames.contains "."%char _) eqn:Hdot; simpl.
  - rewrite H1, H2, Hdot, length_map_chars. repeat split; lia.
  - rewrite !contains_app, H1, H2, Hdot, length_app, length_map_chars. simpl.
    repeat split; lia.
Qed.

(** X11: whatever the name, [sanitize_filename] returns a name without
    slash or backslash and with a dot, at least as long as the given one
    and at most four characters longer. *)
Theorem sanitize_filename_safe filename :
  let r := Filenames.sanitize_filename isalnum filename in
  Filenames.contains "/"%char r = false
  ∧ Filenames.contains "\"%char r = false
  ∧ Filenames.contains "."%char r = true
  ∧ (String.length filename ≤ String.length r ≤ String.length filename + 4)%nat.
Proof. apply sanitize_filename_facts. Qed.

(** X12: [sanitize_filename] is idempotent: a sanitized name is returned
    unchanged (the letters of the extension it may add are alphanumeric). *)
Theorem sanitize_filename_idempotent filename :
  isalnum "j"%char = true → isalnum "p"%char = true → isalnum "g"%char = true →
  Filenames.sanitize_filename isalnum (Filenames.sanitize_filename isalnum filename)
  = Filenames.sanitize_filename isalnum filename.
Proof.
  intros Hj Hp Hg.
  set (r := Filenames.sanitize_filename isalnum filename).
  assert (Filenames.map_chars (Filenames.clean isalnum) r = r) as Hfix.
  { subst r. rewrite sanitize_filename_unfold. cbv zeta.
    assert (Filenames.map_chars (Filenames.clean isalnum) (Filenames.map_chars (Filenames.clean isalnum) filename)
            = Filenames.map_chars (Filenames.clean isalnum) filename) as Hcc.
    { apply map_chars_id. intros a (b & _ & <-)%contains_map_chars_inv.
      apply clean_fixes_kept; [apply clean_kept|apply clean_no_separator..]. }
    destruct (Filenames.contains "."%char _); simpl; [done|].
    rewrite map_chars_app, Hcc. f_equal. simpl.
    assert (Filenames.keeps isalnum "."%char = true) as Hdotk
      by (unfold Filenames.keeps; apply orb_true_iff; by right).
    assert (∀ c, isalnum c = true → Filenames.keeps isalnum c = true) as Hal
      by (intros c Hc; unfold Filenames.keeps; by rewrite Hc).
    by rewrite !clean_fixes_kept by auto. }
  rewrite (sanitize_filename_unfold r). cbv zeta. rewrite Hfix.
  destruct (sanitize_filename_facts filename) as (_ & _ & Hdot & _).
  fold r in Hdot. by rewrite Hdot.
Qed.
(** X13: with [sanitize_filename], the path [upload_photo] saves an
    upload under is output/uploads/ followed by a single path component,
    provided the job id holds no separator (a uuid does not): the name the
    client sent cannot move the file to another directory. *)
Theorem upload_path_stays_in_uploads job_id file :
  Filenames.contains "/"%char job_id = false →
  Filenames.contains "\"%char job_id = false →
  ∃ name,
    upload_path_of (Filenames.sanitize_filename isalnum) job_id file
      = "output/uploads/" +:+ name
    ∧ Filenames.contains "/"%char name = false
    ∧ Filenames.contains "\"%char name = false.
Proof.
  intros Hid1 Hid2.
  destruct (sanitize_filename_facts (Main.uf_filename file))
    as (Hs1 & Hs2 & _).
  exists (job_id +:+ "_" +:+ Filenames.sanitize_filename isalnum (Main.uf_filename file)).
  split; [reflexivity|].
  by rewrite !contains_app, Hid1, Hid2, Hs1, Hs2.
Qed.

End filenames.

(** ** Status summary, cropping and batches *)

(** X14: [get_status_summary] reports a failed result as status failed
    with progress 0 and a message; for a successful result it reports 25
    per step that succeeded, status completed exactly when four steps
    succeeded (that is, exactly when the progress is 100) and processing
    otherwise, and as current step the stage after the ones counted, or
    none once four are counted. *)
Theorem status_summary_progress results :
  let s := Summary.get_status_summary results in
  (Summary.rs_success results = false →
     Summary.ss_status s = "failed" ∧ Summary.ss_progress s = 0
     ∧ is_Some (Summary.ss_message s))
  ∧ (Summary.rs_success results = true →
       ∃ k, Summary.ss_completed_steps s = Some k
            ∧ (k ≤ length (Summary.rs_steps results))%nat
            ∧ Summary.ss_progress s = 25 * Z.of_nat k
            ∧ (Summary.ss_status s = "completed" ↔ k = 4%nat)
            ∧ (Summary.ss_status s = "completed" ↔ Summary.ss_progress s = 100)
            ∧ (Summary.ss_status s = "completed" ∨ Summary.ss_status s = "processing")
            ∧ (k < 4 → is_Some (Summary.ss_current_step s)
                       ∧ Summary.ss_current_step s = Summary.step_names !! k)%nat
            ∧ (4 ≤ k → Summary.ss_current_step s = None)%nat).
Proof.
  cbv zeta. unfold Summary.get_status_summary.
  destruct (Summary.rs_success results); simpl; (split; [|done || idtac]);
    try done; try (intros _; repeat split; by eauto).
  intros _. set (k := length _). exists k.
  assert (Z.of_nat k * 100 / Z.of_nat 4 = 25 * Z.of_nat k) as Hprog.
  { change (Z.of_nat 4) with 4. replace (Z.of_nat k * 100) with (25 * Z.of_nat k * 4) by lia.
    by rewrite Z.div_mul. }
  cbv zeta. simpl. rewrite Hprog.
  split; [done|]. split; [apply length_filter|]. split; [done|].
  split; [case_bool_decide; split; done|].
  split; [case_bool_decide; split; try done; lia|].
  split; [case_bool_decide; auto|].
  split.
  - intros Hk. rewrite bool_decide_eq_true_2 by done. split; [|done].
    apply lookup_lt_is_Some. simpl. lia.
  - intros Hk. rewrite bool_decide_eq_false_2 by lia. done.
Qed.

Lemma int_nonneg q : (0 <= q)%Q → 0 ≤ FaceDetector.int q.
Proof.
  unfold Qle, FaceDetector.int. destruct q as [n d]. simpl. intros Hn.
  apply Z.quot_pos; lia.
Qed.

Lemma detect_face_box_nonneg image_path shape faces r bb :
  FaceDetector.detect_face image_path shape faces = inr r →
  FaceDetector.f_bounding_box r = Some bb →
  0 ≤ FaceDetector.bb_width bb ∧ 0 ≤ FaceDetector.bb_height bb.
Proof.
  unfold FaceDetector.detect_face.
  destruct shape as [[height width]|]; [|done].
  destruct faces as [[|face rest]|]; [by intros [= <-]| |by intros [= <-]].
  destruct face as [|lm face]; [done|].
  rewrite !fmap_cons. unfold FaceDetector.py_min, FaceDetector.py_max.
  set (xs := (λ p : Z * Z * Q, p.1.1) <$> _).
  set (ys := (λ p : Z * Z * Q, p.1.2) <$> _).
  set (x0 := FaceDetector.int _). set (y0 := FaceDetector.int _).
  cbn [fst snd].
  pose proof (foldr_min_le x0 xs) as Hx1%Forall_cons_1.
  pose proof (foldr_max_ge x0 xs) as Hx2%Forall_cons_1.
  pose proof (foldr_min_le y0 ys) as Hy1%Forall_cons_1.
  pose proof (foldr_max_ge y0 ys) as Hy2%Forall_cons_1.
  destruct (FaceDetector.truediv _ _) as [e|ratio]; [done|].
  intros Hr Hbb.
  assert (bb = FaceDetector.mkBox (foldr Z.min x0 xs) (foldr Z.min y0 ys)
                 (foldr Z.max x0 xs) (foldr Z.max y0 ys)
                 (foldr Z.max x0 xs - foldr Z.min x0 xs)
                 (foldr Z.max y0 ys - foldr Z.min y0 ys)) as ->.
  { repeat case_match; simplify_eq; simpl in Hbb; by simplify_eq. }
  simpl. lia.
Qed.

(** X15: when [crop_to_face] crops, the face check had succeeded and the
    region lies inside the image; with a padding that is not negative it
    covers the part of the face box that lies inside the image. *)
Theorem crop_region_within_image image_path height width faces padding region :
  Crop.crop_to_face image_path (Some (height, width)) faces padding
    = inr (Some region) →
  0 ≤ Crop.left region ∧ 0 ≤ Crop.top region
  ∧ Crop.right region ≤ width ∧ Crop.bottom region ≤ height
  ∧ ∃ r bb, FaceDetector.detect_face image_path (Some (height, width)) faces = inr r
            ∧ FaceDetector.f_success r = true
            ∧ FaceDetector.f_bounding_box r = Some bb
            ∧ ((0 <= padding)%Q →
               Crop.left region ≤ Z.max 0 (FaceDetector.x_min bb)
               ∧ Z.min width (FaceDetector.x_max bb) ≤ Crop.right region
               ∧ Crop.top region ≤ Z.max 0 (FaceDetector.y_min bb)
               ∧ Z.min height (FaceDetector.y_max bb) ≤ Crop.bottom region).
Proof.
  unfold Crop.crop_to_face.
  destruct (FaceDetector.detect_face _ _ _) as [e|r] eqn:Hr; [done|].
  destruct (FaceDetector.f_success r) eqn:Hs; simpl; [|done].
  destruct (FaceDetector.f_bounding_box r) as [bb|] eqn:Hbb; [|done].
  intros [= <-]. cbn [Crop.left Crop.top Crop.right Crop.bottom].
  split; [lia|]. split; [lia|]. split; [lia|]. split; [lia|].
  exists r, bb. split; [done|]. split; [done|]. split; [done|].
  all: destruct (detect_face_box_nonneg _ _ _ _ _ Hr Hbb) as [Hw Hh].
  all: intros Hpad.
  all: assert (0 ≤ FaceDetector.int (inject_Z (FaceDetector.bb_width bb) * padding))
    by (apply int_nonneg, Qmult_le_0_compat; [|done];
        change 0%Q with (inject_Z 0); by rewrite <- Zle_Qle).
  all: assert (0 ≤ FaceDetector.int (inject_Z (FaceDetector.bb_height bb) * padding))
    by (apply int_nonneg, Qmult_le_0_compat; [|done];
        change 0%Q with (inject_Z 0); by rewrite <- Zle_Qle).
  all: lia.
Qed.

Section batch.
Variable cartoonize : string → string → string → StageOutcome.
Variable name_of : string → string.

Lemma batch_loop_spec output_dir style n i image_paths :
  Z.of_nat i + Z.of_nat (length image_paths) = n →
  ∃ results events,
    Batch.loop cartoonize name_of output_dir style n i image_paths
      = (results, events)
    ∧ results = (λ r, cartoonize r.1.1 r.1.2 r.2) <$> Batch.requests events
    ∧ (λ r, r.1.1) <$> Batch.requests events = image_paths
    ∧ Batch.spaced events = true
    ∧ match events with
      | [] => image_paths = []
      | e :: _ => ∃ p o s, e = Batch.ev_cartoonize p o s
      end.
Proof.
  revert i. induction image_paths as [|p rest IH]; intros i Hn.
  - by exists [], [].
  - simpl in Hn. destruct (IH (S i)) as (results & events & Hloop & Hres & Hreq & Hsp & Hhd);
      [lia|].
    simpl. rewrite Hloop. do 2 eexists. split; [reflexivity|].
    destruct rest as [|p' rest'].
    + simpl in Hloop. injection Hloop as <- <-.
      destruct (Z.of_nat i <? n - 1) eqn:Hlt; [simpl in Hn; lia|].
      repeat split; try reflexivity. by do 3 eexists.
    + destruct (Z.of_nat i <? n - 1) eqn:Hlt; [|simpl in Hn; lia].
      destruct events as [|e events']; [done|].
      destruct Hhd as (p1 & o1 & s1 & ->). simpl. simpl in Hreq, Hres, Hsp.
      rewrite Hres. split; [done|]. split; [by rewrite Hreq|].
      split; [|by do 3 eexists]. done.
Qed.

(** X16: [batch_cartoonize] returns one result per image, in order, each
    the result of the request made for that image, and sleeps two seconds
    between consecutive requests, not before the first nor after the
    last. *)
Theorem batch_cartoonize_spaces_requests image_paths output_dir style :
  ∃ results events,
    Batch.batch_cartoonize cartoonize name_of image_paths output_dir style
      = (results, events)
    ∧ length results = length image_paths
    ∧ results = (λ r, cartoonize r.1.1 r.1.2 r.2) <$> Batch.requests events
    ∧ (λ r, r.1.1) <$> Batch.requests events = image_paths
    ∧ Batch.spaced events = true.
Proof.
  destruct (batch_loop_spec output_dir style (Z.of_nat (length image_paths))
              0 image_paths) as (results & events & Hloop & Hres & Hreq & Hsp & _);
    [lia|].
  exists results, events. split; [exact Hloop|]. split; [|done].
  by rewrite Hres, <- Hreq, !length_fmap.
Qed.

End batch.

(** X17: [update_job_status] never raises.  For an unknown job id it
    changes nothing; for a known one it sets the current step and the last
    update of that record and leaves its status, error, outputs, result, id
    and upload path, and every other record, as they were. *)
Theorem update_job_status_touches_two_keys id step data (jobs : gmap string Job) :
  ∃ jobs',
    Main.update_job_status id step data jobs = (jobs', None)
    ∧ (jobs !! id = None → jobs' = jobs)
    ∧ (∀ j, jobs !! id = Some j →
         ∃ j', jobs' !! id = Some j'
               ∧ current_step j' = Some step ∧ last_update j' = Some data
               ∧ status j' = status j ∧ error j' = error j
               ∧ output_files j' = output_files j ∧ result j' = result j
               ∧ job_id j' = job_id j ∧ upload_path j' = upload_path j)
    ∧ (∀ id', id' ≠ id → jobs' !! id' = jobs !! id').
Proof.
  destruct (jobs !! id) as [j|] eqn:Hj.
  - pose proof (update_job_status_insert id step data j jobs) as Hu.
    rewrite (insert_id _ _ _ Hj) in Hu. rewrite Hu.
    eexists. split; [reflexivity|]. split; [done|]. split.
    + intros j0 [= <-]. rewrite lookup_insert_eq. by eexists.
    + intros id' Hne. by rewrite lookup_insert_ne.
  - unfold Main.update_job_status. rewrite Hj.
    rewrite bool_decide_eq_false_2 by (by intros [? ?]).
    by exists jobs.
Qed.

(** ** The further properties on sample inputs *)

Lemma uploaded_step : sample_step Main.initial Sample.uploaded.
Proof.
  unfold Sample.uploaded.
  destruct (Main.upload_photo 10 Sample.pl Sample.sanitize_filename
              Sample.suffix_lower Sample.fmt_mb Sample.id Sample.photo None ∅
              Main.initial) as [[reply fs'] s'] eqn:Hup.
  by eapply Main.step_upload; [|exact Hup].
Qed.

Lemma successful_run_completes_witness :
  ∃ w r,
    run (Sample.oracle 5 (inl "unused"))
        (Main.process_avatar_background Sample.pl Sample.id Sample.path)
        (mkWorld {[Sample.id := Sample.pending_record]} [])
      = (inr tt, w)
    ∧ calls w = stage_calls Sample.pl Sample.id Sample.path
    ∧ Main.get_status Sample.id (jobs w) = Main.Returns r
    ∧ Main.js_status r = "completed"
    ∧ Main.js_progress r = 100.
Proof.
  destruct (successful_run_completes Sample.pl (Sample.oracle 5 (inl "unused"))
              Sample.id Sample.path {[Sample.id := Sample.pending_record]}
              Sample.pending_record)
    as (w & j' & r & Hrun & Hcalls & _ & _ & _ & _ & _ & Hget & Hst & Hprog & _).
  - apply lookup_singleton_eq.
  - apply sample_succeeds_before. lia.
  - exists w, r. repeat split; assumption.
Defined.

Lemma background_task_without_record_witness :
  run (Sample.oracle 5 (inl "unused"))
      (Main.process_avatar_background Sample.pl Sample.id Sample.path)
      (mkWorld ∅ [])
  = (inl (KeyError Sample.id), mkWorld ∅ []).
Proof.
  apply (background_task_without_record Sample.pl
           (Sample.oracle 5 (inl "unused")) Sample.id Sample.path ∅).
  apply lookup_empty.
Defined.

(** A task at a critical section takes it as its next step. *)
Lemma fire_locked_step MAX_UPLOAD_SIZE_MB pl sanitize_filename suffix_lower fmt_mb
    id r s :
  match Main.s_tasks s !! id with Some (Locked _ _) => true | _ => false end = true →
  Main.step MAX_UPLOAD_SIZE_MB pl sanitize_filename suffix_lower fmt_mb
    s (Sample.fire id r s).
Proof.
  unfold Sample.fire.
  destruct (Main.s_tasks s !! id) as [[a|e|c k|f k]|] eqn:Htask; try done.
  intros _. destruct (f (Main.s_jobs s)) as [jobs' e] eqn:Hf.
  by eapply Main.step_locked.
Qed.

Lemma uploaded_second_fresh : Main.s_jobs Sample.uploaded !! Sample.second = None.
Proof. vm_compute. reflexivity. Qed.

Lemma two_uploaded_reachable : sample_reachable Sample.two_uploaded.
Proof.
  unfold Main.reachable. etrans; [exact uploaded_reachable|].
  apply rtc_once. unfold Sample.two_uploaded.
  destruct (Main.upload_photo 10 Sample.pl Sample.sanitize_filename
              Sample.suffix_lower Sample.fmt_mb Sample.second Sample.photo None ∅
              Sample.uploaded) as [[reply fs'] s'] eqn:Hup.
  exact (Main.step_upload _ _ _ _ _ _ _ _ _ _ _ _ _ uploaded_second_fresh Hup).
Qed.

Lemma two_uploaded_task :
  match Main.s_tasks Sample.two_uploaded !! Sample.id with
  | Some (Locked _ _) => true
  | _ => false
  end = true.
Proof. vm_compute. reflexivity. Qed.

Lemma step_changes_one_record_witness :
  ∃ id0,
    (∀ id, id ≠ id0 →
       Main.s_jobs Sample.two_started !! id = Main.s_jobs Sample.two_uploaded !! id
       ∧ Main.s_tasks Sample.two_started !! id
         = Main.s_tasks Sample.two_uploaded !! id)
    ∧ (Sample.two_started = Sample.two_uploaded
       ∨ (Main.s_jobs Sample.two_uploaded !! id0 = None
          ∧ Main.s_tasks Sample.two_uploaded !! id0 = None
          ∧ ∃ j, Main.s_jobs Sample.two_started !! id0 = Some j
                 ∧ job_id j = id0 ∧ status j = "pending")
       ∨ ∃ j j' p p',
           Main.s_jobs Sample.two_uploaded !! id0 = Some j
           ∧ Main.s_jobs Sample.two_started !! id0 = Some j'
           ∧ Main.s_tasks Sample.two_uploaded !! id0 = Some p
           ∧ Main.s_tasks Sample.two_started !! id0 = Some p'
           ∧ match p with
             | Call _ k => j' = j ∧ ∃ r, p' = k r
             | Locked f k =>
                 ∃ r, p' = k r
                      ∧ f (Main.s_jobs Sample.two_uploaded)
                        = (Main.s_jobs Sample.two_started, r)
             | _ => False
             end).
Proof.
  exact (step_changes_one_record 10 Sample.pl Sample.sanitize_filename
           Sample.suffix_lower Sample.fmt_mb Sample.two_uploaded Sample.two_started
           two_uploaded_reachable
           (fire_locked_step 10 Sample.pl Sample.sanitize_filename
              Sample.suffix_lower Sample.fmt_mb Sample.id
              (inr (mkOutcome true "ok" None)) Sample.two_uploaded
              two_uploaded_task)).
Defined.

Lemma task_in_step_with_record_witness :
  ∃ j, Main.s_jobs Sample.failed !! Sample.id = Some j ∧ terminal (status j).
Proof.
  apply (task_in_step_with_record 10 Sample.pl Sample.sanitize_filename
           Sample.suffix_lower Sample.fmt_mb Sample.failed Sample.id (Ret tt)).
  - apply failed_reachable.
  - vm_compute. reflexivity.
Defined.

Lemma remote_failure_ends_the_wait_witness :
  ∃ w',
    ThreeDGenerator.generate_3d_model 1000 None (inr "t1") MoreSamples.fails_third
      (λ _, 800) (λ _, 3) (λ _, None) 10 "cartoon.png" "model.glb" 300 5
      (ThreeDGenerator.mkWorld 0 0 [])
    = Some (ThreeDGenerator.mkModel false None (Some "t1")
              "3D generation failed: None" None None, w')
    ∧ ThreeDGenerator.checks w' = 3%nat
    ∧ ThreeDGenerator.paced 5 (ThreeDGenerator.log w') = true.
Proof.
  apply (remote_failure_ends_the_wait 1000 (λ _, 800) (λ _, 3) 300 5 0
           ltac:(lia) ltac:(intros; lia) ltac:(intros; lia) ltac:(lia)
           MoreSamples.fails_third 2 "t1" (λ _, None) "cartoon.png" "model.glb" 10).
  - intros [|[|k]] Hk; [split; discriminate|split; discriminate|lia].
  - reflexivity.
  - vm_compute. discriminate.
  - lia.
Defined.

Lemma http_error_ends_the_wait_witness :
  ∃ w',
    ThreeDGenerator.generate_3d_model 1000 None (inr "t1")
      (λ k, MeshyHttp._check_status (MoreSamples.flaky k))
      (λ _, 800) (λ _, 3) (λ _, None) 10 "cartoon.png" "model.glb" 300 5
      (ThreeDGenerator.mkWorld 0 0 [])
    = Some (ThreeDGenerator.mkModel false None (Some "t1")
              "3D generation failed: Service Unavailable" None None, w')
    ∧ ThreeDGenerator.checks w' = 2%nat.
Proof.
  apply (http_error_ends_the_wait 1000 (λ _, 800) (λ _, 3) 300 5 0
           ltac:(lia) ltac:(intros; lia) ltac:(intros; lia) ltac:(lia)
           MoreSamples.flaky 1 "Service Unavailable" "t1" (λ _, None)
           "cartoon.png" "model.glb" 10).
  - intros [|k] Hk; [split; discriminate|lia].
  - right. eexists. split; [reflexivity|]. split; [simpl; lia|reflexivity].
  - vm_compute. discriminate.
  - lia.
Defined.

Lemma no_task_no_polling_witness :
  ∃ m,
    ThreeDGenerator.generate_3d_model 1000 None
      (MeshyHttp._create_task MoreSamples.unauthorized) MoreSamples.fails_third
      (λ _, 800) (λ _, 3) (λ _, None) 0 "cartoon.png" "model.glb" 300 5
      (ThreeDGenerator.mkWorld 0 0 [])
    = Some (m, ThreeDGenerator.mkWorld 0 0 [])
    ∧ ThreeDGenerator.m_success m = false
    ∧ ThreeDGenerator.m_task_id m = None
    ∧ ThreeDGenerator.m_message m = "Task creation failed: Unauthorized".
Proof.
  apply (no_task_no_polling 1000 None MoreSamples.unauthorized).
  right. exists "Unauthorized". right. eexists.
  split; [reflexivity|]. split; [simpl; lia|reflexivity].
Defined.

Lemma sanitize_filename_idempotent_witness :
  Filenames.sanitize_filename MoreSamples.isalnum "../a b/me"
    = ".._a_b_me"
  ∧ Filenames.sanitize_filename MoreSamples.isalnum
      (Filenames.sanitize_filename MoreSamples.isalnum "photo")
    = "photo.jpg".
Proof.
  split; [reflexivity|].
  rewrite (sanitize_filename_idempotent MoreSamples.isalnum "photo");
    reflexivity.
Defined.

Lemma upload_path_stays_in_uploads_witness :
  ∃ name,
    upload_path_of (Filenames.sanitize_filename MoreSamples.isalnum) Sample.id
      (Main.mkUploadFile "../../etc/passwd" (Main.uf_content Sample.photo))
      = "output/uploads/" +:+ name
    ∧ Filenames.contains "/"%char name = false
    ∧ Filenames.contains "\"%char name = false.
Proof.
  apply (upload_path_stays_in_uploads MoreSamples.isalnum Sample.id
           (Main.mkUploadFile "../../etc/passwd" (Main.uf_content Sample.photo)));
    reflexivity.
Defined.

Lemma crop_region_within_image_witness :
  0 ≤ 100 ∧ 0 ≤ 100 ∧ 900 ≤ 1000 ∧ 900 ≤ 1000
  ∧ ∃ r bb,
      FaceDetector.detect_face Sample.path (Some (1000, 1000)) Sample.faces = inr r
      ∧ FaceDetector.f_success r = true
      ∧ FaceDetector.f_bounding_box r = Some bb
      ∧ ((0 <= 3 # 10)%Q →
         100 ≤ Z.max 0 (FaceDetector.x_min bb)
         ∧ Z.min 1000 (FaceDetector.x_max bb) ≤ 900
         ∧ 100 ≤ Z.max 0 (FaceDetector.y_min bb)
         ∧ Z.min 1000 (FaceDetector.y_max bb) ≤ 900).
Proof.
  apply (crop_region_within_image Sample.path 1000 1000 Sample.faces (3 # 10)
           (Crop.mkRegion 100 100 900 900)).
  vm_compute. reflexivity.
Defined.
